(** * Plaza refinement and value redistribution of DOLFIN: a shallow embedding

    The definitions below follow [dolfin/refinement/PlazaRefinementND.cpp]
    and [dolfin/mesh/MeshPartitioning.h].  Vectors are lists read with
    stdpp's lookup and written with its insert, [std::map] is [gmap],
    [std::set] is [gset], [std::size_t] slot and entity numbers are [nat]
    (or [N] where the all-ones sentinel is stored), and [dolfin_assert] /
    [dolfin_error] are the two failure constructors of [result]. *)

From Stdlib Require Import QArith.
From stdpp Require Import base numbers list gmap sets strings sorting.

Open Scope nat_scope.

(** ** Outcomes of a call *)

Inductive result (A : Type) : Type :=
  | Ok (a : A)
  | AssertFail
  | Fatal (file task reason : string).
Arguments Ok {A} a.
Arguments AssertFail {A}.
Arguments Fatal {A} file task reason.

Definition dolfin_assert {A} (b : bool) (k : result A) : result A :=
  if b then k else AssertFail.

(** [v[i]] on a [std::vector<bool>]; the theorems only read inside the
    vector. *)
Definition vec_bool (v : list bool) (i : nat) : bool := default false (v !! i).
Definition vec_nat (v : list nat) (i : nat) : nat := default 0 (v !! i).

(** ** SimplexGenerator *)

Module SimplexGenerator.

Definition simplex := list nat.

(** [PlazaRefinementND::get_triangles] *)
Definition get_triangles (marked_edges : list bool) (longest_edge : nat)
  : result (list simplex) :=
  dolfin_assert (vec_bool marked_edges longest_edge)
    (let v0 := (longest_edge + 1) mod 3 in
     let v1 := (longest_edge + 2) mod 3 in
     let v2 := longest_edge in
     let e0 := v0 + 3 in
     let e1 := v1 + 3 in
     let e2 := v2 + 3 in
     let half0 :=
       if vec_bool marked_edges v0
       then [[e2; v2; e0]; [e2; e0; v1]]
       else [[e2; v2; v1]] in
     let half1 :=
       if vec_bool marked_edges v1
       then [[e2; v2; e1]; [e2; e1; v0]]
       else [[e2; v2; v0]] in
     Ok (half0 ++ half1)).

(** The 10 x 10 connectivity matrix [conn]. A write outside the matrix
    (which the source never performs on a tetrahedron) changes nothing. *)
Definition conn_t := list (list bool).
Definition conn_init : conn_t := replicate 10 (replicate 10 false).
Definition conn_set (a b : nat) (c : conn_t) : conn_t :=
  alter (λ row, <[b := true]> row) a c.
Definition conn_get (c : conn_t) (a b : nat) : bool :=
  default false (c !! a ≫= (.!! b)).

(** [static std::size_t edges[6][2]] *)
Definition edges : list (nat * nat) :=
  [(2, 3); (1, 3); (1, 2); (0, 3); (0, 2); (0, 1)].
Definition edges_at (e j : nat) : nat :=
  match edges !! e with
  | Some (a, b) => match j with 0 => a | _ => b end
  | None => 0
  end.

(** Body of the inner loop over the two facets [j] attached to edge [ei]. *)
Definition conn_facet (marked_edges : list bool) (longest_edge : list nat)
    (ei : nat) (conn : conn_t) (j : nat) : conn_t :=
  let e_opp := 5 - ei in
  let fj := edges_at e_opp j in
  let le_j := vec_nat longest_edge fj in
  if le_j =? ei then
    let fk := edges_at e_opp (1 - j) in
    let le_k := vec_nat longest_edge fk in
    let conn := conn_set fk (ei + 4) conn in
    if (le_k =? ei) && vec_bool marked_edges e_opp
    then conn_set (e_opp + 4) (ei + 4) (conn_set (ei + 4) (e_opp + 4) conn)
    else conn
  else conn_set (ei + 4) (le_j + 4) (conn_set (le_j + 4) (ei + 4) conn).

(** Body of the loop over the six cell edges. *)
Definition conn_edge (marked_edges : list bool) (longest_edge : list nat)
    (conn : conn_t) (ei : nat) : conn_t :=
  let v0 := edges_at ei 0 in
  let v1 := edges_at ei 1 in
  if vec_bool marked_edges ei then
    let conn := conn_set v0 (ei + 4) (conn_set v1 (ei + 4) conn) in
    foldl (conn_facet marked_edges longest_edge ei) conn (seq 0 2)
  else conn_set v0 v1 (conn_set v1 v0 conn).

Definition build_conn (marked_edges : list bool) (longest_edge : list nat)
  : conn_t :=
  foldl (conn_edge marked_edges longest_edge) conn_init (seq 0 6).

(** The loops over [p] and [q = p + 1 ..] of [facet_set]. *)
Fixpoint tets_of_facet_set (conn : conn_t) (i j : nat) (facet_set : list nat)
  : list simplex :=
  match facet_set with
  | [] => []
  | p :: rest =>
      ((λ q, [i; j; p; q]) <$> filter (λ q, conn_get conn p q) rest)
        ++ tets_of_facet_set conn i j rest
  end.

(** [for k = j + 1 .. 9: if conn[i][k] && conn[j][k] push k] *)
Definition facet_set_of (conn : conn_t) (i j : nat) : list nat :=
  filter (λ k, conn_get conn i k && conn_get conn j k)
         (seq (j + 1) (10 - (j + 1))).

Definition tets_of_ij (conn : conn_t) (i j : nat) : list simplex :=
  if conn_get conn i j
  then tets_of_facet_set conn i j (facet_set_of conn i j)
  else [].

Definition tets_of_i (conn : conn_t) (i : nat) : list simplex :=
  seq (i + 1) (10 - (i + 1)) ≫= tets_of_ij conn i.

Definition enumerate_tets (conn : conn_t) : list simplex :=
  seq 0 10 ≫= tets_of_i conn.

(** [PlazaRefinementND::get_tetrahedra] *)
Definition get_tetrahedra (marked_edges : list bool) (longest_edge : list nat)
  : list simplex :=
  enumerate_tets (build_conn marked_edges longest_edge).

(** [PlazaRefinementND::get_simplices]; [simplex_set] is the in/out
    argument. *)
Definition get_simplices (simplex_set : list simplex)
    (marked_edges : list bool) (longest_edge : list nat) (tdim : nat)
  : result (list simplex) :=
  if tdim =? 2 then
    dolfin_assert (length longest_edge =? 1)
      (get_triangles marked_edges (vec_nat longest_edge 0))
  else if tdim =? 3 then
    dolfin_assert (length longest_edge =? 4)
      (Ok (get_tetrahedra marked_edges longest_edge))
  else Ok simplex_set.

(** Edge [e] lies on facet [f] of the tetrahedron: facets are numbered by
    the vertex they do not contain. *)
Definition edge_of_facet (e f : nat) : Prop :=
  e < 6 ∧ edges_at e 0 ≠ f ∧ edges_at e 1 ≠ f.

(** [longest_edge] names, for each of the four facets, one of its edges. *)
Definition valid_longest_edge (longest_edge : list nat) : Prop :=
  length longest_edge = 4 ∧
  ∀ f e, longest_edge !! f = Some e → edge_of_facet e f.

(** The shape every emitted tetrahedron has. *)
Definition increasing_tet (t : simplex) : Prop :=
  ∃ i j k l, t = [i; j; k; l] ∧ i < j ∧ j < k ∧ k < l ∧ l < 10.

(** Number of marked edges of the triangle other than the longest one. *)
Definition marked_others (marked_edges : list bool) (longest_edge : nat) : nat :=
  length (filter (λ e, e ≠ longest_edge ∧ vec_bool marked_edges e = true) (seq 0 3)).

End SimplexGenerator.

(** ** RefinementOrchestrator: the entry check of [refine] *)

Module RefinementOrchestrator.

(** The three overloads of [PlazaRefinementND::refine] open with the same
    test of the topological dimension; [rest] stands for the statements
    that follow it ([face_long_edge], the marking, [enforce_rules] and
    [do_refine]), which run only when the test passes. *)
Definition refine {M : Type} (tdim : nat) (rest : unit → result M) : result M :=
  if negb (tdim =? 2) && negb (tdim =? 3)
  then Fatal "PlazaRefinementND.cpp" "refine mesh"
             "Topological dimension %d not supported"
  else rest tt.

End RefinementOrchestrator.

(** ** Mesh entities seen by the selector and the enforcer *)

(** Edge lengths are finite [double] values, hence rationals; [>] and
    [==] on them are the order and the equality of [Q], both decided on
    the cross products. *)
#[global] Instance Qlt_dec : RelDecision Qlt :=
  λ x y, decide (Qnum x * QDen y < Qnum y * QDen x)%Z.
#[global] Instance Qeq_dec' : RelDecision Qeq :=
  λ x y, decide (Qnum x * QDen y = Qnum y * QDen x)%Z.

(** An edge as [EdgeIterator] yields it: [e->index()] and [e->length()]. *)
Record Edge := { edge_index : nat; edge_length : Q }.

#[global] Instance Q_eq_dec : EqDecision Q.
Proof. solve_decision. Defined.
#[global] Instance Edge_eq_dec : EqDecision Edge.
Proof. solve_decision. Defined.

(** A face as [FaceIterator] yields it: [f->index()], its edges in the
    order in which the edge iterator of the face runs through them, and
    the global indices of the vertices [f->entities(0)[0]],
    [f->entities(0)[1]], ... *)
Record Face := {
  face_index : nat;
  face_edges : list Edge;
  face_vertices : list nat
}.

(** ** LongestEdgeSelector *)

Module LongestEdgeSelector.

(** The edges of a face, each with the global index [global_i] of the
    vertex [f->entities(0)[e.pos()]] read in the same iteration. *)
Definition edges_with_vertex (f : Face) : list (Edge * nat) :=
  imap (λ pos e, (e, vec_nat (face_vertices f) pos)) (face_edges f).

(** One iteration of the edge loop on [(imax, gimax, max_len)]. *)
Definition long_edge_step (st : nat * nat * Q) (ev : Edge * nat) : nat * nat * Q :=
  let '(imax, gimax, max_len) := st in
  let e_len := edge_length ev.1 in
  let global_i := ev.2 in
  if bool_decide (max_len < e_len)%Q
     || (bool_decide (e_len == max_len)%Q && bool_decide (gimax < global_i))
  then (edge_index ev.1, global_i, e_len)
  else st.

(** The edge loop of one face, from [imax = 0], [gimax = 0],
    [max_len = 0.0]. *)
Definition long_edge_scan (evs : list (Edge * nat)) : nat * nat * Q :=
  foldl long_edge_step (0, 0, 0%Q) evs.

(** [imax] after the edge loop. *)
Definition long_edge_of_face (f : Face) : nat :=
  (long_edge_scan (edges_with_vertex f)).1.1.

(** [PlazaRefinementND::face_long_edge]: [result[f->index()] = imax]. *)
Definition face_long_edge (num_faces : nat) (faces : list Face) : list nat :=
  foldl (λ result f, <[face_index f := long_edge_of_face f]> result)
        (replicate num_faces 0) faces.

(** [(l1, g1)] is below [(l2, g2)]: shorter, or as long with the smaller
    global vertex index. *)
Definition key_lt (l1 : Q) (g1 : nat) (l2 : Q) (g2 : nat) : Prop :=
  (l1 < l2)%Q ∨ ((l2 == l1)%Q ∧ g1 < g2).

(** The state the loop takes when it selects [ev]. *)
Definition selected (ev : Edge * nat) : nat * nat * Q :=
  (edge_index ev.1, ev.2, edge_length ev.1).

(** What a face must satisfy: as many vertices as edges, at least two
    edges, distinct global vertex indices, no negative length. *)
Definition face_ok (f : Face) : Prop :=
  length (face_vertices f) = length (face_edges f) ∧
  2 ≤ length (face_edges f) ∧
  NoDup (face_vertices f) ∧
  ∀ e, e ∈ face_edges f → (0 <= edge_length e)%Q.

(** The same edge under another local numbering [r]. *)
Definition relabel (r : nat → nat) (ev : Edge * nat) : Edge * nat :=
  ({| edge_index := r (edge_index ev.1); edge_length := edge_length ev.1 |}, ev.2).

End LongestEdgeSelector.

(** ** RuleEnforcer *)

(** The class [ParallelRefinement] is declared and defined outside the
    files at hand; its marker store is the MarkedEdgeSet of the
    specification, a boolean per edge. *)
Module ParallelRefinement.

(** Modelled from the spec: [ParallelRefinement::is_marked], the
    "is-marked query": the boolean of the edge. *)
Definition is_marked (marked_edges : list bool) (edge_index : nat) : bool :=
  vec_bool marked_edges edge_index.

(** Modelled from the spec: [ParallelRefinement::mark], "mark by edge
    index": sets the boolean of the edge; marks are only ever added. *)
Definition mark (marked_edges : list bool) (edge_index : nat) : list bool :=
  <[edge_index := true]> marked_edges.

(** Modelled from the spec: the global edges of which some process holds a
    marked copy; [global_edge] gives, per process, the global number of
    each local edge. *)
Definition marked_globally (global_edge : list (list nat))
    (st : list (list bool)) : gset nat :=
  list_to_set
    (mjoin (zip_with (λ ge m, (filter (λ gb, gb.2 = true) (zip ge m)).*1)
                     global_edge st)).

(** Modelled from the spec: [ParallelRefinement::update_logical_edgefunction],
    the collective that "synchronizes edge markers across process
    boundaries": after the call a local edge is marked when some process
    holds a marked copy of it. *)
Definition update_logical_edgefunction (global_edge : list (list nat))
    (st : list (list bool)) : list (list bool) :=
  let G := marked_globally global_edge st in
  imap (λ r m,
          imap (λ e b,
                  b || match global_edge !! r ≫= (.!! e) with
                       | Some g => bool_decide (g ∈ G)
                       | None => false
                       end) m) st.

End ParallelRefinement.

Module RuleEnforcer.
Import ParallelRefinement.

(** What one process passes to [enforce_rules]: the faces of its mesh
    and the [long_edge] vector. *)
Record Process := {
  mesh_faces : list Face;
  long_edge : list nat
}.

(** Body of the loop over the faces, on [(p_ref, update_count)]. *)
Definition scan_face (long_edge : list nat) (st : list bool * nat) (f : Face)
  : list bool * nat :=
  let '(p_ref, update_count) := st in
  let long_e := vec_nat long_edge (face_index f) in
  if is_marked p_ref long_e then st
  else
    let any_marked :=
      foldl (λ b e, b || is_marked p_ref (edge_index e)) false (face_edges f) in
    if any_marked then (mark p_ref long_e, update_count + 1) else st.

(** The loop over the faces of one process, from [update_count = 0]. *)
Definition scan_faces (pr : Process) (p_ref : list bool) : list bool * nat :=
  foldl (scan_face (long_edge pr)) (p_ref, 0) (mesh_faces pr).

(** One pass of the [while] body on all processes: the collective marker
    update, the local scans, and [MPI::sum] of the local counts. *)
Definition round (sync : list (list bool) → list (list bool))
    (procs : list Process) (st : list (list bool)) : list (list bool) * nat :=
  let scanned := zip_with scan_faces procs (sync st) in
  (scanned.*1, sum_list scanned.*2).

(** The [while (update_count != 0)] loop; [fuel] bounds the number of
    passes and the second component of the result counts them. *)
Fixpoint enforce_rules_loop (sync : list (list bool) → list (list bool))
    (procs : list Process) (fuel : nat) (st : list (list bool)) (rounds : nat)
  : option (list (list bool) * nat) :=
  match fuel with
  | 0 => None
  | S fuel =>
      let '(st', update_count) := round sync procs st in
      if update_count =? 0 then Some (st', S rounds)
      else enforce_rules_loop sync procs fuel st' (S rounds)
  end.

(** [PlazaRefinementND::enforce_rules] *)
Definition enforce_rules (sync : list (list bool) → list (list bool))
    (procs : list Process) (fuel : nat) (st : list (list bool))
  : option (list (list bool) * nat) :=
  enforce_rules_loop sync procs fuel st 0.

(** Number of unmarked edges of one process, and over all processes. *)
Definition falses (m : list bool) : nat := length (filter (λ b, b = false) m).

Definition unmarked (st : list (list bool)) : nat := sum_list (falses <$> st).

(** Number of edges over all processes. *)
Definition num_edges (st : list (list bool)) : nat :=
  sum_list (length <$> st).

(** The rule on one process. *)
Definition rule_holds (pr : Process) (p_ref : list bool) : Prop :=
  ∀ f, f ∈ mesh_faces pr →
    (∃ e, e ∈ face_edges f ∧ is_marked p_ref (edge_index e) = true) →
    is_marked p_ref (vec_nat (long_edge pr) (face_index f)) = true.

(** Every [long_edge] entry used by a process is one of its edges. *)
Definition long_edge_in_range (pr : Process) (p_ref : list bool) : Prop :=
  ∀ f, f ∈ mesh_faces pr → vec_nat (long_edge pr) (face_index f) < length p_ref.

(** Marks are only added. *)
Definition marks_le (m m' : list bool) : Prop :=
  length m = length m' ∧ ∀ e, is_marked m e = true → is_marked m' e = true.

(** The rule at one face. *)
Definition rule_at (le : list nat) (m : list bool) (f : Face) : Prop :=
  (∃ e, e ∈ face_edges f ∧ is_marked m (edge_index e) = true) →
  is_marked m (vec_nat le (face_index f)) = true.

End RuleEnforcer.

(** ** ParentFacetMapper *)

Module ParentFacetMapper.

(** [std::numeric_limits<std::size_t>::max()], the "no parent" entry. *)
Definition no_parent : N := 18446744073709551615%N.

(** A facet as [FacetIterator] yields it: [f->index()], the global
    indices of its vertices, and the indices of its edges. Facet, edge and
    vertex numbers are [std::size_t] values, kept in [N]. *)
Record Facet := {
  facet_index : N;
  facet_vertices : list N;
  facet_edges : list N
}.

(** A mesh: a cell is the list of its facets, in the order of
    [cell->entities(tdim - 1)]; the index of a cell is its position. *)
Record Mesh := {
  tdim : nat;
  cells : list (list Facet);
  num_facets : nat
}.

(** [if (e_it != new_vertex_map.end()) vset.insert(e_it->second)] *)
Definition add_new_vertex (new_vertex_map : gmap N N) (vset : gset N) (edge : N)
  : gset N :=
  match new_vertex_map !! edge with
  | Some v => {[v]} ∪ vset
  | None => vset
  end.

(** The vertex set pushed on [facet_sets] for the parent facet [f]. *)
Definition parent_facet_set (tdim : nat) (new_vertex_map : gmap N N) (f : Facet)
  : gset N :=
  let vset : gset N := list_to_set (facet_vertices f) in
  if tdim =? 2 then add_new_vertex new_vertex_map vset (facet_index f)
  else if tdim =? 3 then foldl (add_new_vertex new_vertex_map) vset (facet_edges f)
  else vset.

(** The loop over the vertices of the child facet, with its [break]. *)
Definition vertex_match (vset : gset N) (f : Facet) : bool :=
  forallb (λ v, bool_decide (v ∈ vset)) (facet_vertices f).

(** Body of the loop over [i]: [p] is [(pcell->entities(tdim - 1)[i],
    facet_sets[i])]. *)
Definition tag_step (f : Facet) (new_parent_facet : list N) (p : N * gset N)
  : list N :=
  if vertex_match p.2 f
  then <[N.to_nat (facet_index f) := p.1]> new_parent_facet
  else new_parent_facet.

(** Body of the loop over the facets [f] of a child cell. A facet index
    outside [new_parent_facet], which no mesh yields, is passed over. *)
Definition tag_child_facet (pcell : list Facet) (facet_sets : list (gset N))
    (new_parent_facet : list N) (f : Facet) : list N :=
  if bool_decide (new_parent_facet !! N.to_nat (facet_index f) = Some no_parent)
  then foldl (tag_step f) new_parent_facet (zip (facet_index <$> pcell) facet_sets)
  else new_parent_facet.

(** [reverse_cell_map[parent_cell[cell_index]].insert(cell_index)] for
    every cell of the new mesh; a cell without a ["parent_cell"] entry, or
    with one that is no cell of the parent mesh, is not inserted. *)
Definition reverse_cell_map (num_cells : nat) (parent_cell : list nat)
    (num_new_cells : nat) : list (gset nat) :=
  foldl (λ rcm cell_index,
           match parent_cell !! cell_index with
           | Some pi => alter (λ s, {[cell_index]} ∪ s) pi rcm
           | None => rcm
           end)
        (replicate num_cells ∅) (seq 0 num_new_cells).

(** Iteration over a [std::set<std::size_t>]: increasing order. *)
Definition children_of (rcm : list (gset nat)) (pi : nat) : list nat :=
  merge_sort (≤) (elements (default ∅ (rcm !! pi))).

(** Body of the loop over the parent cells. *)
Definition tag_children (tdim : nat) (new_vertex_map : gmap N N)
    (new_mesh : Mesh) (rcm : list (gset nat))
    (new_parent_facet : list N) (p : nat * list Facet) : list N :=
  let facet_sets := parent_facet_set tdim new_vertex_map <$> p.2 in
  foldl (λ npf child_index,
           match cells new_mesh !! child_index with
           | Some cell => foldl (tag_child_facet p.2 facet_sets) npf cell
           | None => npf
           end)
        new_parent_facet (children_of rcm p.1).

(** [PlazaRefinementND::set_parent_facet_markers]; the result is the
    array ["parent_facet"] of the new mesh. *)
Definition set_parent_facet_markers (mesh new_mesh : Mesh)
    (parent_cell : list nat) (new_vertex_map : gmap N N) : list N :=
  let new_parent_facet := replicate (num_facets new_mesh) no_parent in
  let rcm := reverse_cell_map (length (cells mesh)) parent_cell
                              (length (cells new_mesh)) in
  foldl (tag_children (tdim mesh) new_vertex_map new_mesh rcm)
        new_parent_facet (imap (λ pi pcell, (pi, pcell)) (cells mesh)).

(** All vertices of the child facet [f] lie in the vertex set of the
    parent facet [pf]. *)
Definition facet_within (tdim : nat) (new_vertex_map : gmap N N)
    (f pf : Facet) : Prop :=
  ∀ v, v ∈ facet_vertices f → v ∈ parent_facet_set tdim new_vertex_map pf.

(** The pairs the loop over [i] runs through. *)
Definition tagged_sets tdim nvm (pcell : list Facet) : list (N * gset N) :=
  (λ pf, (facet_index pf, parent_facet_set tdim nvm pf)) <$> pcell.

(** Tagging with the first matching set, as section 4.5 of the
    specification words it: [l1] holds the parent facets before [pf], none
    of which matches. *)
Definition tags_first_match : Prop :=
  ∀ (tdim : nat) (nvm : gmap N N) (pcell : list Facet) (npf : list N)
    (f : Facet) (l1 : list Facet) (pf : Facet) (l2 : list Facet),
    npf !! N.to_nat (facet_index f) = Some no_parent →
    pcell = l1 ++ pf :: l2 →
    facet_within tdim nvm f pf →
    Forall (λ pf', ¬ facet_within tdim nvm f pf') l1 →
    tag_child_facet pcell (parent_facet_set tdim nvm <$> pcell) npf f
      !! N.to_nat (facet_index f) = Some (facet_index pf).

Section entries.
Variables (mesh new_mesh : Mesh) (parent_cell : list nat) (nvm : gmap N N).

(** The facet numbered [fi] of the new mesh belongs to a child cell whose
    parent cell has the facet numbered [v], and lies within its vertex
    set. *)
Definition descends (fi : nat) (v : N) : Prop :=
  ∃ pi ci pcell cell f pf,
    cells mesh !! pi = Some pcell ∧ cells new_mesh !! ci = Some cell ∧
    parent_cell !! ci = Some pi ∧
    f ∈ cell ∧ N.to_nat (facet_index f) = fi ∧
    pf ∈ pcell ∧ facet_index pf = v ∧
    facet_within (tdim mesh) nvm f pf.

(** What the loops keep true of ["parent_facet"]. *)
Definition entries_ok (npf : list N) : Prop :=
  length npf = num_facets new_mesh ∧
  ∀ fi v, npf !! fi = Some v → v = no_parent ∨ descends fi v.

End entries.

End ParentFacetMapper.

(** ** ValueCollectionRedistributor *)

#[global] Instance result_bind : MBind result :=
  λ A B k r,
    match r with
    | Ok a => k a
    | AssertFail => AssertFail
    | Fatal file task reason => Fatal file task reason
    end.
#[global] Instance result_ret : MRet result := λ A a, Ok a.

(** The template parameter [MeshValueCollection]: what
    [build_mesh_value_collection] calls on it. *)
Class MeshValueCollection (M T : Type) := {
  mvc_clear : M → M;
  set_value : M → nat → nat → T → M
}.

Module ValueCollectionRedistributor.

Section build.
Context {M T : Type} `{!MeshValueCollection M T}.

(** An entry of [local_value_data]:
    [((global cell index, local entity index), value)]. *)
#[local] Abbreviation datum := ((nat * nat) * T)%type.

(** An entry of [entity_hosts], in the iteration order of the [std::map]:
    a global cell index with its [(process, local cell index)] pairs. *)
#[local] Abbreviation host := (nat * list (nat * nat))%type.

(** What one process brings to the call. [locate_off_process_entities]
    stands for [DistributedMeshTools::locate_off_process_entities] on
    this process, an external query. *)
Record Process := {
  have_global_indices : bool;
  global_entity_indices : list nat;
  num_cells : nat;
  local_value_data : list datum;
  mesh_values : M;
  locate_off_process_entities : list nat → list host
}.

(** [map_of_global_entity_indices[global_entity_indices[i]] = i] *)
Definition map_of_global_entity_indices (global_entity_indices : list nat)
  : gmap nat nat :=
  foldl (λ m ig, <[ig.2 := ig.1]> m) ∅ (imap pair global_entity_indices).

(** Body of the first loop over [ldata], on
    [(markers, off_process_global_cell_entities)]. *)
Definition local_step (map : gmap nat nat) (st : M * list nat) (d : datum)
  : M * list nat :=
  let global_cell_index := d.1.1 in
  match map !! global_cell_index with
  | Some local_cell_index =>
      let entity_local_index := d.1.2 in
      let value := d.2 in
      (set_value st.1 local_cell_index entity_local_index value, st.2)
  | None => (st.1, st.2 ++ [global_cell_index])
  end.

(** [map_of_ldata[ldata[i].first.first].insert(i)] *)
Definition map_of_ldata (ldata : list datum) : gmap nat (gset nat) :=
  foldl (λ m id, <[id.2.1.1 := {[id.1]} ∪ default ∅ (m !! id.2.1.1)]> m)
        ∅ (imap pair ldata).

(** Body of the loop over [processes_data]: the three [push_back]s. *)
Definition push_send (local_entity_index : nat) (domain_value : T)
    (send : list (list nat) * list (list T)) (process_data : nat * nat)
  : list (list nat) * list (list T) :=
  let proc := process_data.1 in
  let local_cell_entity := process_data.2 in
  (alter (λ b, b ++ [local_cell_entity; local_entity_index]) proc send.1,
   alter (λ b, b ++ [domain_value]) proc send.2).

(** Body of the loop over [entity_hosts]. *)
Definition pack_host (ldata : list datum) (map_of_ldata : gmap nat (gset nat))
    (send : list (list nat) * list (list T)) (entity_host : host)
  : list (list nat) * list (list T) :=
  let host_global_cell_index := entity_host.1 in
  let processes_data := entity_host.2 in
  match map_of_ldata !! host_global_cell_index with
  | Some its =>
      foldl (λ send it,
               match ldata !! it with
               | Some d => foldl (push_send d.1.2 d.2) send processes_data
               | None => send
               end)
            send (merge_sort (≤) (elements its))
  | None => send
  end.

(** [send_data0] and [send_data1] after the packing loops. *)
Definition pack (ldata : list datum) (entity_hosts : list host)
    (num_processes : nat) : list (list nat) * list (list T) :=
  foldl (pack_host ldata (map_of_ldata ldata))
        (replicate num_processes [], replicate num_processes [])
        entity_hosts.

(** What a process holds when it reaches the exchange. *)
Record Prepared := {
  local_markers : M;
  send_data0 : list (list nat);
  send_data1 : list (list T)
}.

(** The function up to the two [MPI::all_to_all] calls. *)
Definition prepare (num_processes : nat) (p : Process) : result Prepared :=
  if negb (have_global_indices p)
  then Fatal "MeshPartitioning.h" "build mesh value collection"
             "Do not have have_global_entity_indices"
  else
    let map := map_of_global_entity_indices (global_entity_indices p) in
    let st := foldl (local_step map) (mvc_clear (mesh_values p), [])
                    (local_value_data p) in
    let entity_hosts := locate_off_process_entities p st.2 in
    let send := pack (local_value_data p) entity_hosts num_processes in
    Ok {| local_markers := st.1; send_data0 := send.1; send_data1 := send.2 |}.

(** Modelled from the spec: [MPI::all_to_all], whose source is not part
    of the files at hand ("per-destination buffers in, per-source buffers
    out"): process [q] receives from each process the buffer that process
    filled for [q]. *)
Definition all_to_all {A} (send : list (list (list A))) (q : nat)
  : list (list A) :=
  (λ s, default [] (s !! q)) <$> send.

(** Body of the loop over [i] for one source process. *)
Definition receive_step (num_cells : nat) (received0 : list nat)
    (markers : result M) (iv : nat * T) : result M :=
  m ← markers;
  let local_cell_entity := vec_nat received0 (2 * iv.1) in
  let local_entity_index := vec_nat received0 (2 * iv.1 + 1) in
  let value := iv.2 in
  dolfin_assert (local_cell_entity <? num_cells)
    (Ok (set_value m local_cell_entity local_entity_index value)).

(** Body of the loop over the source processes [p]. *)
Definition receive_from (num_cells : nat) (markers : result M)
    (received : list nat * list T) : result M :=
  m ← markers;
  dolfin_assert (2 * length received.2 =? length received.1)
    (foldl (receive_step num_cells received.1) (Ok m) (imap pair received.2)).

(** The receiving loops of one process. *)
Definition receive (num_cells : nat) (markers : M)
    (received_data0 : list (list nat)) (received_data1 : list (list T))
  : result M :=
  foldl (receive_from num_cells) (Ok markers) (zip received_data0 received_data1).

(** [MeshPartitioning::build_mesh_value_collection] on all processes of
    the communicator: the result holds the [mesh_values] of each. *)
Definition build_mesh_value_collection (procs : list Process) : result (list M) :=
  let num_processes := length procs in
  prepared ← mapM (prepare num_processes) procs;
  mapM (λ qp : nat * (Process * Prepared),
          receive (num_cells qp.2.1) (local_markers qp.2.2)
                  (all_to_all (send_data0 <$> prepared) qp.1)
                  (all_to_all (send_data1 <$> prepared) qp.1))
       (imap pair (zip procs prepared)).

(** *** The specification's view: (local index pair, value) triples

    Section 4.6 of the specification speaks of "(local-index, value)
    pairs" that are packed, exchanged and applied. The definitions below
    keep each destination's triples in one list; the theorems compare the
    two parallel buffers of the code with them. *)

#[local] Abbreviation triple := (nat * nat * T)%type.

(** [set_value] on each triple in turn. *)
Definition apply_triples (markers : M) (trs : list triple) : M :=
  foldl (λ m tr, set_value m tr.1.1 tr.1.2 tr.2) markers trs.

(** The tuples applied directly, with the local cell index found for
    each. *)
Definition direct_triples (p : Process) : list triple :=
  omap (λ d : datum,
          (λ local_cell_index, (local_cell_index, d.1.2, d.2))
            <$> map_of_global_entity_indices (global_entity_indices p) !! d.1.1)
       (local_value_data p).

(** The global cell indices left for the other processes. *)
Definition off_process (p : Process) : list nat :=
  omap (λ d : datum,
          match map_of_global_entity_indices (global_entity_indices p) !! d.1.1 with
          | Some _ => None
          | None => Some d.1.1
          end)
       (local_value_data p).

(** The packing loops with one buffer of triples per destination. *)
Definition push_triple (local_entity_index : nat) (domain_value : T)
    (send : list (list triple)) (process_data : nat * nat) : list (list triple) :=
  alter (λ b, b ++ [(process_data.2, local_entity_index, domain_value)])
        process_data.1 send.

(** [pack_host] on triples. *)
Definition pack_host_triples (ldata : list datum)
    (map_of_ldata : gmap nat (gset nat))
    (send : list (list triple)) (entity_host : host) : list (list triple) :=
  match map_of_ldata !! entity_host.1 with
  | Some its =>
      foldl (λ send it,
               match ldata !! it with
               | Some d => foldl (push_triple d.1.2 d.2) send entity_host.2
               | None => send
               end)
            send (merge_sort (≤) (elements its))
  | None => send
  end.

(** The triples process [p] packs, destination by destination. *)
Definition sent_triples (num_processes : nat) (p : Process)
  : list (list triple) :=
  foldl (pack_host_triples (local_value_data p) (map_of_ldata (local_value_data p)))
        (replicate num_processes [])
        (locate_off_process_entities p (off_process p)).

(** The index buffer and the value buffer of a list of triples. *)
Definition index_buffer (trs : list triple) : list nat :=
  trs ≫= λ tr, [tr.1.1; tr.1.2].
Definition value_buffer (trs : list triple) : list T := snd <$> trs.

(** The triples that reach process [q], source by source. *)
Definition arriving (procs : list Process) (q : nat) : list triple :=
  procs ≫= λ p, default [] (sent_triples (length procs) p !! q).

(** The two send buffers hold, destination by destination, the index
    pairs and the values of [trs]. *)
Definition buffers_of (send : list (list nat) * list (list T))
    (trs : list (list triple)) : Prop :=
  send.1 = index_buffer <$> trs ∧ send.2 = value_buffer <$> trs.

(** What [prepare] returns, in terms of triples. *)
Definition prepared_of (n : nat) (p : Process) : Prepared :=
  {| local_markers := apply_triples (mvc_clear (mesh_values p)) (direct_triples p);
     send_data0 := index_buffer <$> sent_triples n p;
     send_data1 := value_buffer <$> sent_triples n p |}.

(** The buffer for [proc] holds the triple [tr]. *)
Definition holds (proc : nat) (tr : triple) (send : list (list triple)) : Prop :=
  tr ∈ default [] (send !! proc).

End build.

End ValueCollectionRedistributor.

(** ** Sample inputs *)

(** A run of the enforcer on two processes that share one edge: local
    edge 4 of the first process is local edge 0 of the second. *)
Module EnforcerExample.
Import RuleEnforcer.

Definition edge (i : nat) : Edge := {| edge_index := i; edge_length := 1 |}.
Definition face (i : nat) (es : list nat) : Face :=
  {| face_index := i; face_edges := edge <$> es; face_vertices := [] |}.

Definition global_edge : list (list nat) := [[0; 1; 2; 3; 4]; [4; 5; 6]].
Definition procs : list Process :=
  [ {| mesh_faces := [face 0 [0; 1; 2]; face 1 [2; 3; 4]]; long_edge := [2; 4] |};
    {| mesh_faces := [face 0 [0; 1; 2]]; long_edge := [1] |} ].
Definition st0 : list (list bool) :=
  [[true; false; false; false; false]; [false; false; false]].
Definition st1 : list (list bool) :=
  [[true; false; true; false; true]; [true; true; false]].

End EnforcerExample.

Module SelectorExample.

(** A triangle with two edges of length 1 and one of length 1/2; the
    vertices at the positions of the edges have the global indices 5, 7
    and 3. *)
Definition tri : Face :=
  {| face_index := 0;
     face_edges := [ {| edge_index := 10; edge_length := 1 |};
                     {| edge_index := 11; edge_length := 1 |};
                     {| edge_index := 12; edge_length := 1 # 2 |} ];
     face_vertices := [5; 7; 3] |}.

End SelectorExample.

Module MapperExample.
Import ParentFacetMapper.

(** A tetrahedron with vertices 0..3 whose edge between 2 and 3 (edge 0)
    was split by the new vertex 4, and a child facet lying on that edge:
    the vertex sets of the parent facets 0 and 1 both contain it. *)
Definition pf0 : Facet := {| facet_index := 0; facet_vertices := [1; 2; 3]%N; facet_edges := [0; 1; 2]%N |}.
Definition pf1 : Facet := {| facet_index := 1; facet_vertices := [0; 2; 3]%N; facet_edges := [0; 3; 4]%N |}.
Definition pf2 : Facet := {| facet_index := 2; facet_vertices := [0; 1; 3]%N; facet_edges := [1; 3; 5]%N |}.
Definition pf3 : Facet := {| facet_index := 3; facet_vertices := [0; 1; 2]%N; facet_edges := [2; 4; 5]%N |}.
Definition child : Facet := {| facet_index := 0; facet_vertices := [2; 3; 4]%N; facet_edges := [] |}.
Definition split_edge_0 : gmap N N := {[ 0%N := 4%N ]}.

End MapperExample.

Module RedistributorExample.
Import ValueCollectionRedistributor.

(** A collection as a map from (cell, entity) to the value. *)
#[export] Instance map_collection : MeshValueCollection (gmap (nat * nat) nat) nat := {|
  mvc_clear := λ _, ∅;
  set_value := λ m cell entity value, <[(cell, entity) := value]> m
|}.

(** Two processes: the first holds the global cells 10 and 11, the second
    12 and 13; each has one tuple for a cell of the other. *)
Definition two_procs : list (@Process (gmap (nat * nat) nat) nat) :=
  [ {| have_global_indices := true;
       global_entity_indices := [10; 11];
       num_cells := 2;
       local_value_data := [((10, 0), 7); ((12, 1), 8); ((11, 2), 9)];
       mesh_values := ∅;
       locate_off_process_entities := λ _, [(12, [(1, 0)])] |};
    {| have_global_indices := true;
       global_entity_indices := [12; 13];
       num_cells := 2;
       local_value_data := [((13, 0), 5); ((10, 1), 6)];
       mesh_values := ∅;
       locate_off_process_entities := λ _, [(10, [(0, 0)])] |} ].

End RedistributorExample.

(** ** Enumerations for the exhaustive checks of the generator *)

Module GeneratorSweep.
Import SimplexGenerator.

(** All vectors of [n] booleans. *)
Fixpoint all_markings (n : nat) : list (list bool) :=
  match n with
  | 0 => [[]]
  | S n => all_markings n ≫= λ l, [false :: l; true :: l]
  end.

(** The three edges of facet [f] of the tetrahedron. *)
Definition edges_of_facet (f : nat) : list nat :=
  filter (λ e, edges_at e 0 ≠ f ∧ edges_at e 1 ≠ f) (seq 0 6).

(** All vectors that name, for each facet, one of its edges. *)
Definition all_longest : list (list nat) :=
  a ← edges_of_facet 0; b ← edges_of_facet 1;
  c ← edges_of_facet 2; d ← edges_of_facet 3; [[a; b; c; d]].

(** The longest edges of the four facets when [order] lists the six
    edges by increasing length: the last edge of each facet in [order]. *)
Definition longest_from_order (order : list nat) : list nat :=
  (λ f, default 0 (last (filter (λ e, e ∈ edges_of_facet f) order))) <$> seq 0 4.

Definition all_ordered_longest : list (list nat) :=
  remove_dups (longest_from_order <$> permutations (seq 0 6)).

(** The rule of the enforcer on the faces of one tetrahedron: a facet
    with a marked edge has its longest edge marked. *)
Definition facets_follow_rule (marked_edges : list bool) (longest_edge : list nat)
  : Prop :=
  ∀ f e, f < 4 → e ∈ edges_of_facet f → vec_bool marked_edges e = true →
         vec_bool marked_edges (vec_nat longest_edge f) = true.

Definition facets_follow_rule_b (marked_edges : list bool)
    (longest_edge : list nat) : bool :=
  forallb (λ f, implb (existsb (vec_bool marked_edges) (edges_of_facet f))
                      (vec_bool marked_edges (vec_nat longest_edge f)))
          (seq 0 4).

(** Number of marked edges. *)
Definition count_marked (marked_edges : list bool) : nat :=
  length (filter (λ b, b = true) marked_edges).

Definition inb (x : nat) (l : list nat) : bool := existsb (Nat.eqb x) l.

(** A midpoint slot of [t] always belongs to a marked edge, and [t] never
    holds both ends of a marked edge. *)
Definition conforming_b (marked_edges : list bool) (t : simplex) : bool :=
  forallb (λ s, (s <? 4) || vec_bool marked_edges (s - 4)) t
  && forallb (λ e, implb (vec_bool marked_edges e)
                         (negb (inb (edges_at e 0) t && inb (edges_at e 1) t)))
             (seq 0 6).

(** The four vertices and the midpoints of all marked edges occur in
    [tet_set], which has between one and two tetrahedra more than there
    are marked edges, and eight when all six are marked. *)
Definition covering_b (marked_edges : list bool) (tet_set : list simplex) : bool :=
  forallb (λ v, existsb (inb v) tet_set) (seq 0 4)
  && forallb (λ e, implb (vec_bool marked_edges e) (existsb (inb (e + 4)) tet_set))
             (seq 0 6)
  && (count_marked marked_edges + 1 <=? length tet_set)
  && (length tet_set <=? count_marked marked_edges + 2)
  && implb (count_marked marked_edges =? 6) (length tet_set =? 8).

(** The same for a triangle [t] of a cell with longest edge
    [longest_edge]: three different slots below 6, the first the midpoint
    of the longest edge. *)
Definition tri_conforming_b (marked_edges : list bool) (longest_edge : nat)
    (t : simplex) : bool :=
  match t with
  | [s; a; b] =>
      (s =? longest_edge + 3) && negb (s =? a) && negb (s =? b) && negb (a =? b)
      && (a <? 6) && (b <? 6)
  | _ => false
  end
  && forallb (λ s, (s <? 3) || vec_bool marked_edges (s - 3)) t
  && forallb (λ e, implb (vec_bool marked_edges e)
                         (negb (inb ((e + 1) mod 3) t && inb ((e + 2) mod 3) t)))
             (seq 0 3).

Definition tri_covering_b (marked_edges : list bool) (tri_set : list simplex)
  : bool :=
  forallb (λ v, existsb (inb v) tri_set) (seq 0 3)
  && forallb (λ e, implb (vec_bool marked_edges e) (existsb (inb (e + 3)) tri_set))
             (seq 0 3).

End GeneratorSweep.

(** ** A serial run of the enforcer *)

Module SerialEnforcerExample.
Import RuleEnforcer.

(** One process, whose marker update has nothing to exchange: two faces
    sharing edge 2, initially only edge 0 marked. *)
Definition serial_sync (st : list (list bool)) : list (list bool) := st.
Definition serial_procs : list Process :=
  [ {| mesh_faces :=
         [ {| face_index := 0;
              face_edges := [ {| edge_index := 0; edge_length := 1 |};
                              {| edge_index := 1; edge_length := 1 |};
                              {| edge_index := 2; edge_length := 2 |} ];
              face_vertices := [] |};
           {| face_index := 1;
              face_edges := [ {| edge_index := 2; edge_length := 2 |};
                              {| edge_index := 3; edge_length := 1 |};
                              {| edge_index := 4; edge_length := 3 |} ];
              face_vertices := [] |} ];
       long_edge := [2; 4] |} ].
Definition serial_st0 : list (list bool) := [[true; false; false; false; false]].
Definition serial_st1 : list (list bool) := [[true; false; true; false; true]].
Definition serial_all : list (list bool) := [[true; true; true; true; true]].

End SerialEnforcerExample.

(** ** Entries that carry a parent *)

Module MapperFacts.
Import ParentFacetMapper.

(** Entry [fi] of ["parent_facet"] exists and is not the "no parent"
    value. *)
Definition tagged (fi : nat) (npf : list N) : Prop :=
  ∃ v, npf !! fi = Some v ∧ v ≠ no_parent.

End MapperFacts.

(** ** A process whose host query answers only for the cells asked for *)

Module SenderExample.
Import ValueCollectionRedistributor RedistributorExample.

(** The known hosts: the global cell 12 is cell 0 of process 1, the
    global cell 14 is cell 1 of process 1 and cell 0 of process 2. *)
Definition known_hosts : list (nat * list (nat * nat)) :=
  [(12, [(1, 0)]); (14, [(1, 1); (2, 0)])].

(** Holds the global cells 10 and 11 and has tuples for 10, 12, 11
    and 14. *)
Definition sender : @Process (gmap (nat * nat) nat) nat :=
  {| have_global_indices := true;
     global_entity_indices := [10; 11];
     num_cells := 2;
     local_value_data := [((10, 0), 7); ((12, 1), 8); ((11, 2), 9); ((14, 3), 4)];
     mesh_values := ∅;
     locate_off_process_entities :=
       λ off, filter (λ h, h.1 ∈ off) known_hosts |}.

End SenderExample.

(** ** The cell loop of [do_refine] *)

Module CellLoop.
Import SimplexGenerator.

(** What the loop reads of a cell: its index, the global indices of its
    vertices in the order of the [VertexIterator], its edges as
    [cell->entities(1)] lists them (the [EdgeIterator] runs over the same
    list) and the indices of its faces in the order of the
    [FaceIterator]. *)
Record Cell := {
  cell_index : nat;
  cell_vertices : list nat;
  cell_edges : list nat;
  cell_faces : list nat
}.

(** Modelled from the spec: [ParallelRefinement::marked_edge_list], the
    "per-cell marked-edge-list query": the positions, within the cell, of
    its marked edges. *)
Definition marked_edge_list (marked_edges : list bool) (cell : Cell) : list nat :=
  omap (λ pe : nat * nat, if vec_bool marked_edges pe.2 then Some pe.1 else None)
       (imap pair (cell_edges cell)).

(** Modelled from the spec: [ParallelRefinement::new_cell], the
    "append-new-cell operation" on the pending cell list. *)
Definition new_cell (pending : list (list nat)) (idx : list nat)
  : list (list nat) :=
  pending ++ [idx].

(** The three vectors the loop carries from one cell to the next;
    [indices] is not cleared in between. *)
Record State := {
  indices : list nat;
  new_cell_topology : list (list nat);
  parent_cell : list nat
}.

(** [indices[j++] = v->global_index()] over the vertices of the cell. A
    write past the end of [indices], which the source performs on no
    simplex, changes nothing. *)
Definition set_vertices (indices vs : list nat) : list nat :=
  foldl (λ ind jv, <[jv.1 := jv.2]> ind) indices (imap pair vs).

(** Body of the loop over [marked_edge_list], on [(markers, indices)]. *)
Definition set_new_vertex (cell : Cell) (new_vertex_map : gmap nat nat)
    (num_cell_vertices : nat) (st : result (list bool * list nat)) (p : nat)
  : result (list bool * list nat) :=
  mi ← st;
  let markers := <[p := true]> mi.1 in
  let edge_index := vec_nat (cell_edges cell) p in
  match new_vertex_map !! edge_index with
  | Some new_vertex => Ok (markers, <[num_cell_vertices + p := new_vertex]> mi.2)
  | None => AssertFail
  end.

(** The conversion of one entry of [longest_edge] to the position of the
    edge in the cell; an entry that matches no edge of the cell stays as
    it is. *)
Definition cell_local (cell : Cell) (p : nat) : nat :=
  match list_find (λ e, p = e) (cell_edges cell) with
  | Some (pos, _) => pos
  | None => p
  end.

(** [longest_edge] of the cell, in cell local indexing. *)
Definition cell_longest_edge (tdim : nat) (long_edge : list nat) (cell : Cell)
  : list nat :=
  cell_local cell <$>
    (if tdim =? 3 then vec_nat long_edge <$> cell_faces cell
     else if tdim =? 2 then [vec_nat long_edge (cell_index cell)]
     else []).

(** Body of the loop over [simplex_set], on the pending cells and
    [parent_cell]. *)
Definition emit_child (indices : list nat) (index : nat)
    (out : list (list nat) * list nat) (it : simplex)
  : list (list nat) * list nat :=
  (new_cell out.1 (vec_nat indices <$> it), out.2 ++ [index]).

(** Body of the loop over the cells. *)
Definition refine_cell (tdim : nat) (marked_edges : list bool)
    (new_vertex_map : gmap nat nat) (long_edge : list nat)
    (st : State) (cell : Cell) : result State :=
  let num_cell_edges := tdim * 3 - 3 in
  let num_cell_vertices := tdim + 1 in
  let indices := set_vertices (indices st) (cell_vertices cell) in
  let marked_edge_list := marked_edge_list marked_edges cell in
  if length marked_edge_list =? 0 then
    let indices := resize num_cell_vertices 0 indices in
    Ok {| indices := indices;
          new_cell_topology := new_cell (new_cell_topology st) indices;
          parent_cell := parent_cell st ++ [cell_index cell] |}
  else
    let indices := resize (num_cell_vertices + num_cell_edges) 0 indices in
    mi ← foldl (set_new_vertex cell new_vertex_map num_cell_vertices)
               (Ok (replicate num_cell_edges false, indices)) marked_edge_list;
    let longest_edge := cell_longest_edge tdim long_edge cell in
    simplex_set ← get_simplices [] mi.1 longest_edge tdim;
    let out := foldl (emit_child mi.2 (cell_index cell))
                     (new_cell_topology st, parent_cell st) simplex_set in
    Ok {| indices := mi.2; new_cell_topology := out.1; parent_cell := out.2 |}.

(** The loop over the cells of [do_refine], from the empty pending list
    of a new [ParallelRefinement]. *)
Definition do_refine_cells (tdim : nat) (marked_edges : list bool)
    (new_vertex_map : gmap nat nat) (long_edge : list nat) (cells : list Cell)
  : result State :=
  foldl (λ st cell,
           st ← st; refine_cell tdim marked_edges new_vertex_map long_edge st cell)
        (Ok {| indices := replicate (tdim + 1 + (tdim * 3 - 3)) 0;
               new_cell_topology := []; parent_cell := [] |})
        cells.

(** Vertex [v] of a new cell stems from [cell]: it is one of its vertices
    or the new vertex of one of its marked edges. *)
Definition from_parent (marked_edges : list bool) (new_vertex_map : gmap nat nat)
    (cell : Cell) (v : nat) : Prop :=
  v ∈ cell_vertices cell ∨
  ∃ p e, cell_edges cell !! p = Some e ∧ vec_bool marked_edges e = true ∧
         new_vertex_map !! e = Some v.

End CellLoop.

(** ** Two triangles that share their longest edge *)

Module CellLoopExample.
Import CellLoop.

(** Edge [i] of a triangle lies opposite its vertex [i]; edge 0 of the
    mesh joins the vertices 1 and 2 and is the longest edge of both
    cells. *)
Definition two_triangles : list Cell :=
  [ {| cell_index := 0; cell_vertices := [0; 1; 2]; cell_edges := [0; 1; 2];
       cell_faces := [] |};
    {| cell_index := 1; cell_vertices := [1; 2; 3]; cell_edges := [3; 4; 0];
       cell_faces := [] |} ].

(** Only the shared edge is marked; its new vertex is 4. *)
Definition shared_marked : list bool := [true; false; false; false; false].
Definition shared_vertex : gmap nat nat := {[0 := 4]}.

End CellLoopExample.

(** ** One tetrahedron with two marked edges *)

Module TetLoopExample.
Import CellLoop.

(** The edges 0 and 4 are marked and get the new vertices 10 and 11; the
    longest edges of the four faces are 0, 0, 3 and 4. *)
Definition one_tet : list Cell :=
  [ {| cell_index := 0; cell_vertices := [0; 1; 2; 3];
       cell_edges := [0; 1; 2; 3; 4; 5]; cell_faces := [0; 1; 2; 3] |} ].
Definition tet_marked : list bool := [true; false; false; false; true; false].
Definition tet_vertex : gmap nat nat := {[0 := 10; 4 := 11]}.
Definition tet_long_edge : list nat := [0; 0; 3; 4].

End TetLoopExample.

(** ** The cells of the serial run of the enforcer *)

Module SerialLoopExample.
Import CellLoop.

(** The two faces of [SerialEnforcerExample.serial_procs] as the cells
    of a mesh of triangles, and a new vertex for each edge that is marked
    after the enforcer has run. *)
Definition serial_cells : list Cell :=
  [ {| cell_index := 0; cell_vertices := [0; 1; 2]; cell_edges := [0; 1; 2];
       cell_faces := [] |};
    {| cell_index := 1; cell_vertices := [1; 0; 3]; cell_edges := [2; 3; 4];
       cell_faces := [] |} ].
Definition serial_vertex : gmap nat nat := {[0 := 4; 2 := 5; 4 := 6]}.

End SerialLoopExample.

(** * Theorems *)

(** ** Generic list facts *)

Lemma StronglySorted_filter_lt {A} (R : relation A) (P : A → Prop)
    `{!∀ x, Decision (P x)} (l : list A) :
  StronglySorted R l → StronglySorted R (filter P l).
Proof.
  induction 1 as [|x l Hl IH Hx]; [constructor|].
  rewrite filter_cons. destruct (decide (P x)); [|done].
  constructor; [done|].
  apply Forall_forall. intros y [_ Hy]%list_elem_of_filter.
  by eapply Forall_forall in Hx.
Qed.

Lemma StronglySorted_lt_seq (a n : nat) : StronglySorted lt (seq a n).
Proof.
  revert a. induction n as [|n IH]; intros a; simpl; constructor; [apply IH|].
  apply Forall_forall. intros y Hy%elem_of_seq. lia.
Qed.

Lemma foldl_invariant {A B} (P : A → Prop) (f : A → B → A) (l : list B) (a : A) :
  P a → (∀ a x, x ∈ l → P a → P (f a x)) → P (foldl f a l).
Proof.
  revert a. induction l as [|x l IH]; intros a Ha Hf; simpl; [done|].
  apply IH.
  - apply Hf; [left|done].
  - intros a' y Hy. apply Hf. by right.
Qed.

Lemma sorted_same_elements (l1 l2 : list nat) :
  StronglySorted lt l1 → StronglySorted lt l2 →
  (∀ x, x ∈ l1 ↔ x ∈ l2) → l1 = l2.
Proof.
  intros H1 H2 Hel.
  assert (∀ l, StronglySorted lt l → NoDup l) as Hnd.
  { induction 1 as [|x l Hl IH Hx]; constructor; [|done].
    intros Hin. eapply Forall_forall in Hx; [|done]. lia. }
  assert (∀ l, StronglySorted lt l → StronglySorted le l) as Hle.
  { induction 1 as [|x l Hl IH Hx]; constructor; [done|].
    eapply Forall_impl; [done|]. simpl. lia. }
  eapply (StronglySorted_unique le); [by apply Hle..|].
  apply NoDup_Permutation; auto.
Qed.

Lemma zip_fmap_diag {A B C} (g : A → B) (h : A → C) (l : list A) :
  zip (g <$> l) (h <$> l) = (λ x, (g x, h x)) <$> l.
Proof.
  induction l as [|x l IH]; [done|].
  rewrite !fmap_cons. cbn [zip_with]. by f_equal.
Qed.

Module SimplexGeneratorProps.
Import SimplexGenerator.

Lemma facet_set_of_sorted conn i j : StronglySorted lt (facet_set_of conn i j).
Proof. apply StronglySorted_filter_lt, StronglySorted_lt_seq. Qed.

Lemma facet_set_of_range conn i j k :
  k ∈ facet_set_of conn i j → j < k < 10.
Proof. intros [_ Hk%elem_of_seq]%list_elem_of_filter. lia. Qed.

Lemma elem_of_tets_of_facet_set conn i j l t :
  StronglySorted lt l →
  t ∈ tets_of_facet_set conn i j l →
  ∃ p q, t = [i; j; p; q] ∧ p ∈ l ∧ q ∈ l ∧ p < q.
Proof.
  induction 1 as [|p rest Hs IH Hp]; simpl; [by intros ?%elem_of_nil|].
  intros [Ht|Ht]%elem_of_app.
  - apply list_elem_of_fmap in Ht as (q & -> & [_ Hq]%list_elem_of_filter).
    exists p, q. repeat split; [left|by right|].
    by eapply Forall_forall in Hp.
  - destruct (IH Ht) as (p' & q' & -> & ? & ? & ?).
    exists p', q'. repeat split; by try right.
Qed.

Lemma NoDup_tets_of_facet_set conn i j l :
  StronglySorted lt l → NoDup (tets_of_facet_set conn i j l).
Proof.
  induction 1 as [|p rest Hs IH Hp]; simpl; [constructor|].
  apply NoDup_app. split_and!.
  - apply NoDup_fmap_2; [by intros ?? [= ->]|].
    apply NoDup_filter. clear IH.
    induction Hs as [|x l Hl IHl Hx]; constructor.
    + intros Hin. eapply Forall_forall in Hx; [|done]. lia.
    + apply IHl. by inversion Hp.
  - intros t (q & -> & _)%list_elem_of_fmap Hin.
    apply elem_of_tets_of_facet_set in Hin as (p' & q' & [= <- <-] & Hp' & _); [|done].
    eapply Forall_forall in Hp; [|done]. lia.
  - done.
Qed.

Lemma elem_of_tets_of_ij conn i j t :
  t ∈ tets_of_ij conn i j → ∃ p q, t = [i; j; p; q] ∧ j < p ∧ p < q ∧ q < 10.
Proof.
  unfold tets_of_ij. destruct (conn_get conn i j); [|by intros ?%elem_of_nil].
  intros (p & q & -> & Hp%facet_set_of_range & Hq%facet_set_of_range & ?)
    %elem_of_tets_of_facet_set; [|apply facet_set_of_sorted].
  exists p, q. repeat split; lia.
Qed.

Lemma NoDup_tets_of_ij conn i j : NoDup (tets_of_ij conn i j).
Proof.
  unfold tets_of_ij. destruct (conn_get conn i j); [|constructor].
  apply NoDup_tets_of_facet_set, facet_set_of_sorted.
Qed.

Lemma elem_of_tets_of_i conn i t :
  t ∈ tets_of_i conn i → ∃ j p q, t = [i; j; p; q] ∧ i < j ∧ j < p ∧ p < q ∧ q < 10.
Proof.
  intros (j & (p & q & -> & ?)%elem_of_tets_of_ij & Hj%elem_of_seq)%list_elem_of_bind.
  exists j, p, q. repeat split; lia.
Qed.

Lemma NoDup_tets_of_i conn i : NoDup (tets_of_i conn i).
Proof.
  apply NoDup_bind; [|intros; apply NoDup_tets_of_ij|apply NoDup_seq].
  intros j1 j2 t _ _ (? & ? & -> & _)%elem_of_tets_of_ij
    (? & ? & [= ->] & _)%elem_of_tets_of_ij. done.
Qed.

Lemma elem_of_enumerate_tets conn t :
  t ∈ enumerate_tets conn → increasing_tet t.
Proof.
  intros (i & (j & p & q & -> & ?)%elem_of_tets_of_i & _)%list_elem_of_bind.
  exists i, j, p, q. repeat split; lia.
Qed.

Lemma NoDup_enumerate_tets conn : NoDup (enumerate_tets conn).
Proof.
  apply NoDup_bind; [|intros; apply NoDup_tets_of_i|apply NoDup_seq].
  intros i1 i2 t _ _ (? & ? & ? & -> & _)%elem_of_tets_of_i
    (? & ? & ? & [= ->] & _)%elem_of_tets_of_i. done.
Qed.

Lemma increasing_tet_sorted t : increasing_tet t → StronglySorted lt t.
Proof.
  intros (i & j & k & l & -> & ? & ? & ? & ?).
  apply SSorted_cons; [apply SSorted_cons; [apply SSorted_cons;
    [apply SSorted_cons; [apply SSorted_nil|]|]|]|];
    repeat (apply Forall_cons; split; [lia|]); by apply Forall_nil.
Qed.

(** C1: for each of the 2^6 markings (a vector of six booleans) and each
    valid per-facet longest-edge assignment, every tetrahedron emitted by
    [get_tetrahedra] is a strictly increasing 4-tuple of slots below 10,
    and two different positions of the output never hold the same set of
    slots. *)
Theorem get_tetrahedra_no_duplicate
    (marked_edges : list bool) (longest_edge : list nat) :
  length marked_edges = 6 →
  valid_longest_edge longest_edge →
  let tet_set := get_tetrahedra marked_edges longest_edge in
  (∀ t, t ∈ tet_set → increasing_tet t) ∧
  (∀ a b ta tb, tet_set !! a = Some ta → tet_set !! b = Some tb →
     a ≠ b → ¬ (∀ x, x ∈ ta ↔ x ∈ tb)).
Proof.
  intros _ _ tet_set. split.
  - apply elem_of_enumerate_tets.
  - intros a b ta tb Ha Hb Hab Hset. apply Hab.
    assert (ta = tb) as ->.
    { apply sorted_same_elements; [..|done];
        apply increasing_tet_sorted, (elem_of_enumerate_tets (build_conn marked_edges longest_edge));
        by eapply list_elem_of_lookup_2. }
    eapply NoDup_lookup; [apply (NoDup_enumerate_tets (build_conn marked_edges longest_edge))|done..].
Qed.

End SimplexGeneratorProps.

Module SimplexGeneratorTriangles.
Import SimplexGenerator.

(** C4: [get_triangles] asserts that the longest edge is marked; when it
    is, the output has 2 triangles plus one for every marked edge other
    than the longest: 2 when only the longest is marked, 3 with one more
    marked edge, 4 when all three are marked. *)
Theorem get_triangles_count (marked_edges : list bool) (longest_edge : nat) :
  length marked_edges = 3 →
  longest_edge < 3 →
  (vec_bool marked_edges longest_edge = false →
     get_triangles marked_edges longest_edge = AssertFail) ∧
  (vec_bool marked_edges longest_edge = true →
     ∃ tri_set,
       get_triangles marked_edges longest_edge = Ok tri_set ∧
       marked_others marked_edges longest_edge ≤ 2 ∧
       length tri_set = 2 + marked_others marked_edges longest_edge).
Proof.
  intros Hlen Hle.
  destruct marked_edges as [|a [|b [|c [|? ?]]]]; try discriminate Hlen.
  destruct longest_edge as [|[|[|?]]]; [| | |lia];
    destruct a, b, c; (split; [by intros [=]|intros [=]]);
    eexists; (split; [reflexivity|]); vm_compute; lia.
Qed.

(** Edges 0 and 2 marked, edge 2 the longest: three triangles. *)
Lemma get_triangles_count_witness :
  (vec_bool [true; false; true] 2 = false →
     get_triangles [true; false; true] 2 = AssertFail) ∧
  (vec_bool [true; false; true] 2 = true →
     ∃ tri_set,
       get_triangles [true; false; true] 2 = Ok tri_set ∧
       marked_others [true; false; true] 2 ≤ 2 ∧
       length tri_set = 2 + marked_others [true; false; true] 2).
Proof. apply get_triangles_count; [reflexivity|lia]. Defined.

End SimplexGeneratorTriangles.

Module SimplexGeneratorWitness.
Import SimplexGenerator SimplexGeneratorProps.

(** All six edges marked, with the longest edges 0, 0, 3 and 5 of the
    facets 0 to 3. *)
Lemma get_tetrahedra_no_duplicate_witness :
  let tet_set := get_tetrahedra [true; true; true; true; true; true] [0; 0; 3; 5] in
  (∀ t, t ∈ tet_set → increasing_tet t) ∧
  (∀ a b ta tb, tet_set !! a = Some ta → tet_set !! b = Some tb →
     a ≠ b → ¬ (∀ x, x ∈ ta ↔ x ∈ tb)).
Proof.
  apply get_tetrahedra_no_duplicate; [reflexivity|].
  split; [reflexivity|].
  intros [|[|[|[|f]]]] e [= <-]; unfold edge_of_facet;
    (split_and!; [lia|by vm_compute..]).
Defined.

End SimplexGeneratorWitness.

Module EntryPoints.
Import SimplexGenerator RefinementOrchestrator.

(** C10: for a topological dimension other than 2 and 3, [get_simplices]
    returns normally and leaves [simplex_set] as it was, whereas [refine]
    stops with the fatal error before running any of its other
    statements. *)
Theorem get_simplices_silent_refine_fatal
    (simplex_set : list simplex) (marked_edges : list bool)
    (longest_edge : list nat) (tdim : nat) :
  tdim ≠ 2 → tdim ≠ 3 →
  get_simplices simplex_set marked_edges longest_edge tdim = Ok simplex_set ∧
  ∀ (M : Type) (rest : unit → result M),
    refine tdim rest
    = Fatal "PlazaRefinementND.cpp" "refine mesh"
            "Topological dimension %d not supported".
Proof.
  intros H2 H3. unfold get_simplices, refine.
  destruct (Nat.eqb_spec tdim 2); [done|].
  destruct (Nat.eqb_spec tdim 3); [done|]. done.
Qed.

(** Topological dimension 1. *)
Lemma get_simplices_silent_refine_fatal_witness :
  get_simplices [[0; 1; 2]] [true] [0] 1 = Ok [[0; 1; 2]] ∧
  ∀ (M : Type) (rest : unit → result M),
    refine 1 rest
    = Fatal "PlazaRefinementND.cpp" "refine mesh"
            "Topological dimension %d not supported".
Proof. apply get_simplices_silent_refine_fatal; lia. Defined.

End EntryPoints.

(** ** RuleEnforcer *)

Module RuleEnforcerLemmas.
Import ParallelRefinement RuleEnforcer.

Lemma unmarked_cons m st : unmarked (m :: st) = falses m + unmarked st.
Proof. reflexivity. Qed.

Lemma num_edges_cons m st : num_edges (m :: st) = length m + num_edges st.
Proof. reflexivity. Qed.

Lemma falses_cons b m : falses (b :: m) = (if b then 0 else 1) + falses m.
Proof. unfold falses. rewrite filter_cons. by destruct b. Qed.

Lemma falses_le_length m : falses m ≤ length m.
Proof. induction m as [|b m IH]; [done|]. rewrite falses_cons. destruct b; simpl; lia. Qed.

Lemma unmarked_le_num_edges st : unmarked st ≤ num_edges st.
Proof.
  induction st as [|m st IH]; [done|].
  rewrite unmarked_cons, num_edges_cons.
  pose proof (falses_le_length m). lia.
Qed.

Lemma falses_mark m e :
  e < length m → is_marked m e = false → falses (mark m e) + 1 = falses m.
Proof.
  revert e. induction m as [|b m IH]; intros [|e] Hlt Hm; simpl in *; try lia.
  - unfold is_marked, vec_bool in Hm. simpl in Hm. subst b.
    unfold mark. simpl. rewrite !falses_cons. lia.
  - unfold mark. simpl. rewrite !falses_cons.
    specialize (IH e). unfold mark in IH. rewrite <- IH; [lia|lia|done].
Qed.

#[global] Instance marks_le_refl : Reflexive marks_le.
Proof. by intros m. Qed.

#[global] Instance marks_le_trans : Transitive marks_le.
Proof. intros m1 m2 m3 [? H1] [? H2]. split; [congruence|auto]. Qed.

Lemma marks_le_mark m e : marks_le m (mark m e).
Proof.
  unfold mark. split; [by rewrite length_insert|].
  intros e'. unfold is_marked, vec_bool.
  rewrite list_lookup_insert. case_decide; [done|done].
Qed.

Lemma marks_le_falses m m' : marks_le m m' → falses m' ≤ falses m.
Proof.
  revert m'. induction m as [|b m IH]; intros [|b' m'] [Hlen H]; simpl in *;
    try done.
  rewrite !falses_cons.
  assert (falses m' ≤ falses m).
  { apply IH. split; [lia|]. intros e. apply (H (S e)). }
  specialize (H 0). unfold is_marked, vec_bool in H. simpl in H.
  destruct b, b'; simpl; lia.
Qed.

Lemma marks_le_unmarked st st' :
  Forall2 marks_le st st' → unmarked st' ≤ unmarked st.
Proof.
  induction 1 as [|m m' st st' Hm _ IH]; [done|].
  rewrite !unmarked_cons. apply marks_le_falses in Hm. lia.
Qed.

Lemma marks_le_num_edges st st' :
  Forall2 marks_le st st' → num_edges st' = num_edges st.
Proof.
  induction 1 as [|m m' st st' [Hm _] _ IH]; [done|].
  rewrite !num_edges_cons. lia.
Qed.

Lemma in_range_marks_le pr m m' :
  long_edge_in_range pr m → marks_le m m' → long_edge_in_range pr m'.
Proof. intros Hr [Hlen _] f Hf. rewrite <- Hlen. by apply Hr. Qed.

Lemma any_marked_spec m (es : list Edge) b0 :
  foldl (λ b e, b || is_marked m (edge_index e)) b0 es = true
  ↔ b0 = true ∨ ∃ e, e ∈ es ∧ is_marked m (edge_index e) = true.
Proof.
  revert b0. induction es as [|e es IH]; intros b0; simpl.
  - split; [by left|]. intros [?|(e & []%elem_of_nil & _)]. done.
  - rewrite IH, orb_true_iff. split.
    + intros [[?|?]|(e' & ? & ?)]; [by left|right..].
      * exists e. split; [left|done].
      * exists e'. split; [by right|done].
    + intros [?|(e' & [->|?]%elem_of_cons & ?)]; [by left; left|by left; right|].
      right. by exists e'.
Qed.

Lemma scan_face_spec le m c f m' c' :
  scan_face le (m, c) f = (m', c') →
  marks_le m m' ∧ c ≤ c' ∧
  (vec_nat le (face_index f) < length m → falses m' + c' = falses m + c) ∧
  (c' = c → m' = m ∧ rule_at le m f).
Proof.
  unfold scan_face, rule_at.
  destruct (is_marked m (vec_nat le (face_index f))) eqn:Hl.
  { intros [= <- <-]. by repeat split. }
  destruct (foldl _ false (face_edges f)) eqn:Hany.
  - intros [= <- <-]. split_and!; [apply marks_le_mark|lia| |lia].
    intros Hlt. pose proof (falses_mark _ _ Hlt Hl). lia.
  - intros [= <- <-]. split_and!; [done|lia|done|].
    intros _. split; [done|]. intros Hex.
    assert (foldl (λ b e, b || is_marked m (edge_index e)) false (face_edges f) = true)
      as Ht by (apply any_marked_spec; by right).
    congruence.
Qed.

Lemma scan_fold_spec le faces m c m' c' :
  foldl (scan_face le) (m, c) faces = (m', c') →
  marks_le m m' ∧ c ≤ c' ∧
  ((∀ f, f ∈ faces → vec_nat le (face_index f) < length m) →
     falses m' + c' = falses m + c) ∧
  (c' = c → m' = m ∧ ∀ f, f ∈ faces → rule_at le m f).
Proof.
  revert m c. induction faces as [|f faces IH]; intros m c; cbn [foldl].
  { intros [= <- <-]. split_and!; [done|lia|done|].
    intros _. split; [done|]. by intros f ?%elem_of_nil. }
  destruct (scan_face le (m, c) f) as [m1 c1] eqn:Hf.
  apply scan_face_spec in Hf as (Hle1 & Hc1 & Hcount1 & Hsame1).
  intros (Hle & Hc & Hcount & Hsame)%IH.
  split_and!; [by etrans|lia| |].
  - intros Hr. destruct Hle1 as [Hlen1 _].
    rewrite Hcount, Hcount1; [done|apply Hr; left|].
    intros f' Hf'. rewrite <- Hlen1. apply Hr. by right.
  - intros ->. assert (c1 = c) as -> by lia.
    destruct Hsame1 as [-> Hrule1]; [done|].
    destruct Hsame as [-> Hrule]; [done|].
    split; [done|]. by intros f' [->|?]%elem_of_cons; auto.
Qed.

Lemma scan_faces_spec pr m m' c :
  scan_faces pr m = (m', c) →
  marks_le m m' ∧
  (long_edge_in_range pr m → falses m' + c = falses m) ∧
  (c = 0 → m' = m ∧ rule_holds pr m).
Proof.
  unfold scan_faces. intros (Hle & _ & Hcount & Hsame)%scan_fold_spec.
  split_and!; [done| |].
  - intros Hr. rewrite Hcount; [lia|done].
  - intros ->. by destruct Hsame.
Qed.

(** All the local scans of one pass. *)
Lemma scans_spec procs st :
  length procs = length st →
  let scanned := zip_with scan_faces procs st in
  Forall2 marks_le st scanned.*1 ∧
  (Forall2 long_edge_in_range procs st →
     unmarked scanned.*1 + sum_list scanned.*2 = unmarked st) ∧
  (sum_list scanned.*2 = 0 → scanned.*1 = st ∧ Forall2 rule_holds procs st).
Proof.
  revert st. induction procs as [|pr procs IH]; intros [|m st] Hlen;
    try done.
  cbn [zip_with]. rewrite !fmap_cons.
  destruct (scan_faces pr m) as [m' c] eqn:Hs. cbn [fst snd sum_list_with].
  change (id c) with c.
  apply scan_faces_spec in Hs as (Hle & Hcount & Hsame).
  destruct (IH st) as (IHle & IHcount & IHsame); [simpl in Hlen; lia|].
  split_and!.
  - by constructor.
  - intros [Hr Hrs]%Forall2_cons. rewrite !unmarked_cons.
    specialize (Hcount Hr). specialize (IHcount Hrs). lia.
  - intros Hz. destruct Hsame as [-> ?]; [lia|].
    destruct IHsame as [-> ?]; [lia|]. split; [done|by constructor].
Qed.

End RuleEnforcerLemmas.

Module RuleEnforcerProps.
Import ParallelRefinement RuleEnforcer RuleEnforcerLemmas.

Lemma in_range_Forall2 procs st st' :
  Forall2 long_edge_in_range procs st → Forall2 marks_le st st' →
  Forall2 long_edge_in_range procs st'.
Proof. apply Forall2_trans. intros pr m m'. apply in_range_marks_le. Qed.

Section with_sync.
(** The collective marker update, of which the loop only needs that it
    keeps the shape of the marker vectors and removes no mark. *)
Variable sync : list (list bool) → list (list bool).
Hypothesis sync_mono : ∀ st, Forall2 marks_le st (sync st).

Lemma round_spec procs st st' cnt :
  length procs = length st →
  round sync procs st = (st', cnt) →
  Forall2 marks_le st st' ∧
  length procs = length st' ∧
  (Forall2 long_edge_in_range procs st →
     Forall2 long_edge_in_range procs st' ∧ unmarked st' + cnt = unmarked (sync st)) ∧
  (cnt = 0 → st' = sync st ∧ Forall2 rule_holds procs st').
Proof.
  intros Hlen. unfold round. intros [= <- <-].
  pose proof (sync_mono st) as Hsync.
  assert (length procs = length (sync st)) as Hlen'
    by (rewrite Hlen; by eapply Forall2_length).
  destruct (scans_spec procs (sync st) Hlen') as (Hle & Hcount & Hsame).
  split_and!.
  - by etrans.
  - rewrite Hlen'. by eapply Forall2_length.
  - intros Hr. pose proof (in_range_Forall2 _ _ _ Hr Hsync) as Hr'.
    split; [by eapply in_range_Forall2|by apply Hcount].
  - intros Hz. destruct (Hsame Hz) as [Heq Hrule]. split; [done|].
    by rewrite Heq.
Qed.

Lemma enforce_rules_loop_spec procs n :
  ∀ fuel st rounds,
    unmarked st ≤ n → n < fuel →
    length procs = length st →
    Forall2 long_edge_in_range procs st →
    ∃ st' rounds',
      enforce_rules_loop sync procs fuel st rounds = Some (st', rounds') ∧
      rounds' ≤ rounds + n + 1 ∧
      Forall2 marks_le st st' ∧
      Forall2 rule_holds procs st'.
Proof.
  induction n as [|n IH]; intros [|fuel] st rounds Hn Hfuel Hlen Hr;
    try lia; cbn [enforce_rules_loop];
    destruct (round sync procs st) as [st1 cnt] eqn:Hround;
    destruct (round_spec _ _ _ _ Hlen Hround) as (Hle & Hlen1 & Hcount & Hsame);
    destruct (Hcount Hr) as [Hr1 Hc];
    pose proof (marks_le_unmarked _ _ (sync_mono st));
    destruct (Nat.eqb_spec cnt 0) as [->|Hnz].
  - exists st1, (S rounds). split_and!; [done|lia|done|by apply Hsame].
  - lia.
  - exists st1, (S rounds). split_and!; [done|lia|done|by apply Hsame].
  - destruct (IH fuel st1 (S rounds)) as (st' & r' & Hloop & Hr' & Hle' & Hrule);
      [lia|lia|done|done|].
    exists st', r'. split_and!; [done|lia|by etrans|done].
Qed.

Lemma enforce_rules_loop_final procs fuel :
  ∀ st rounds st' rounds',
    length procs = length st →
    enforce_rules_loop sync procs fuel st rounds = Some (st', rounds') →
    ∃ s, length procs = length s ∧ round sync procs s = (st', 0).
Proof.
  induction fuel as [|fuel IH]; intros st rounds st' rounds' Hlen; [done|].
  cbn [enforce_rules_loop].
  destruct (round sync procs st) as [st1 cnt] eqn:Hround.
  destruct (Nat.eqb_spec cnt 0) as [->|Hnz].
  - intros [= <- <-]. by exists st.
  - apply IH. by destruct (round_spec _ _ _ _ Hlen Hround) as (_ & ? & _).
Qed.

(** C2: whatever the meshes and the initial marking, [enforce_rules]
    returns (any fuel above the number of unmarked edges is enough), and
    on return every face of every process that has a marked edge has its
    longest edge marked. *)
Theorem enforce_rules_postcondition
    (procs : list Process) (st : list (list bool)) (fuel : nat) :
  length procs = length st →
  Forall2 long_edge_in_range procs st →
  unmarked st < fuel →
  ∃ st' rounds,
    enforce_rules sync procs fuel st = Some (st', rounds) ∧
    Forall2 rule_holds procs st'.
Proof.
  intros Hlen Hr Hfuel.
  destruct (enforce_rules_loop_spec procs (unmarked st) fuel st 0)
    as (st' & r & Hloop & _ & _ & Hrule); [done..|].
  by exists st', r.
Qed.

(** C5: [enforce_rules] terminates. A pass never removes a mark, and it
    either reports no update (and is then the last one) or leaves
    strictly fewer unmarked edges; hence with fuel above the number of
    edges the loop returns, after at most that number plus one passes. *)
Theorem enforce_rules_terminates
    (procs : list Process) (st : list (list bool)) :
  length procs = length st →
  Forall2 long_edge_in_range procs st →
  (∀ s s' cnt,
     length procs = length s →
     Forall2 long_edge_in_range procs s →
     round sync procs s = (s', cnt) →
     Forall2 marks_le s s' ∧
     ((cnt = 0 ∧ ∀ fuel rounds,
         enforce_rules_loop sync procs (S fuel) s rounds = Some (s', S rounds))
      ∨ unmarked s' < unmarked s)) ∧
  (∀ fuel, num_edges st < fuel →
     ∃ st' rounds,
       enforce_rules sync procs fuel st = Some (st', rounds) ∧
       Forall2 marks_le st st' ∧
       rounds ≤ num_edges st + 1).
Proof.
  intros Hlen Hr. split.
  - intros s s' cnt Hlens Hrs Hround.
    destruct (round_spec _ _ _ _ Hlens Hround) as (Hle & _ & Hcount & _).
    split; [done|].
    destruct (Hcount Hrs) as [_ Hc].
    pose proof (marks_le_unmarked _ _ (sync_mono s)).
    destruct (Nat.eqb_spec cnt 0) as [->|Hnz]; [left|right; lia].
    split; [done|]. intros fuel rounds. cbn [enforce_rules_loop].
    by rewrite Hround.
  - intros fuel Hfuel. pose proof (unmarked_le_num_edges st).
    destruct (enforce_rules_loop_spec procs (num_edges st) fuel st 0)
      as (st' & r & Hloop & Hrounds & Hle & _); [done..|].
    exists st', r. split_and!; [done|done|lia].
Qed.

Hypothesis sync_idem : ∀ st, sync (sync st) = sync st.

(** C6: a second run of [enforce_rules] on the marking a first run
    returned makes no mark: its first pass counts zero updates, so the
    loop leaves after that one pass with the marking unchanged. *)
Theorem enforce_rules_idempotent
    (procs : list Process) (st st' : list (list bool)) (fuel rounds : nat) :
  length procs = length st →
  enforce_rules sync procs fuel st = Some (st', rounds) →
  round sync procs st' = (st', 0) ∧
  ∀ fuel', enforce_rules sync procs (S fuel') st' = Some (st', 1).
Proof.
  intros Hlen Hrun.
  destruct (enforce_rules_loop_final _ _ _ _ _ _ Hlen Hrun) as (s & Hlens & Hround).
  assert (round sync procs st' = (st', 0)) as Hagain.
  { destruct (round_spec _ _ _ _ Hlens Hround) as (_ & _ & _ & Hsame).
    destruct Hsame as [Heq _]; [done|].
    rewrite <- Hround. unfold round. by rewrite Heq, sync_idem. }
  split; [done|]. intros fuel'. unfold enforce_rules.
  cbn [enforce_rules_loop]. by rewrite Hagain.
Qed.

End with_sync.

End RuleEnforcerProps.

(** The marker update modelled in [ParallelRefinement] meets the two
    requirements the enforcer places on it. *)
Module MarkerUpdateLaws.
Import ParallelRefinement RuleEnforcer RuleEnforcerLemmas.

Lemma elem_of_marked_globally ge st g :
  g ∈ marked_globally ge st ↔
  ∃ r gs m e, ge !! r = Some gs ∧ st !! r = Some m ∧
              gs !! e = Some g ∧ m !! e = Some true.
Proof.
  unfold marked_globally. rewrite elem_of_list_to_set, list_elem_of_join.
  split.
  - intros (l & Hg & (r & gs & m & -> & Hgs & Hm)%elem_of_lookup_zip_with).
    apply list_elem_of_fmap in Hg as ([g' b] & -> & [Hb Hz]%list_elem_of_filter).
    apply elem_of_lookup_zip_with in Hz as (e & x & y & [= <- <-] & ? & ?).
    simpl in Hb. subst b. by exists r, gs, m, e.
  - intros (r & gs & m & e & Hgs & Hm & Hg & He).
    eexists. split; [|apply elem_of_lookup_zip_with; by exists r, gs, m].
    apply list_elem_of_fmap. exists (g, true). split; [done|].
    apply list_elem_of_filter. split; [done|].
    apply elem_of_lookup_zip_with. by exists e, g, true.
Qed.

Lemma update_lookup ge st r :
  update_logical_edgefunction ge st !! r
  = (λ m, imap (λ e b,
        b || match ge !! r ≫= (.!! e) with
             | Some g => bool_decide (g ∈ marked_globally ge st)
             | None => false
             end) m) <$> st !! r.
Proof. unfold update_logical_edgefunction. by rewrite list_lookup_imap. Qed.

Lemma update_mono ge st :
  Forall2 marks_le st (update_logical_edgefunction ge st).
Proof.
  apply Forall2_same_length_lookup. split.
  { unfold update_logical_edgefunction. by rewrite length_imap. }
  intros r m m' Hm. rewrite update_lookup, Hm. intros [= <-].
  split; [by rewrite length_imap|].
  intros e. unfold is_marked, vec_bool. rewrite list_lookup_imap.
  destruct (m !! e) as [[]|]; naive_solver.
Qed.

Lemma update_marked_globally ge st :
  marked_globally ge (update_logical_edgefunction ge st) = marked_globally ge st.
Proof.
  apply set_eq. intros g. rewrite !elem_of_marked_globally. split.
  - intros (r & gs & m' & e & Hgs & Hm' & Hg & He).
    rewrite update_lookup in Hm'.
    destruct (st !! r) as [m|] eqn:Hm; [|done]. injection Hm' as <-.
    rewrite list_lookup_imap in He.
    destruct (m !! e) as [b|] eqn:Hb; [|done]. injection He as He.
    rewrite Hgs in He. simpl in He. rewrite Hg in He.
    destruct b; [by exists r, gs, m, e|].
    simpl in He. apply bool_decide_eq_true in He.
    by apply elem_of_marked_globally.
  - intros (r & gs & m & e & Hgs & Hm & Hg & He).
    eexists r, gs, _, e. split_and!; [done| |done|].
    + by rewrite update_lookup, Hm.
    + by rewrite list_lookup_imap, He.
Qed.

Lemma update_idem ge st :
  update_logical_edgefunction ge (update_logical_edgefunction ge st)
  = update_logical_edgefunction ge st.
Proof.
  apply list_eq. intros r.
  rewrite (update_lookup ge (update_logical_edgefunction ge st)).
  rewrite update_marked_globally, update_lookup.
  destruct (st !! r) as [m|]; [|done]. simpl. f_equal.
  apply list_eq. intros e. rewrite !list_lookup_imap.
  destruct (m !! e) as [b|]; [|done]. simpl. f_equal.
  by destruct b, (ge !! r ≫= _) as [?|]; try destruct (bool_decide _).
Qed.

End MarkerUpdateLaws.

(** A run on two processes that share one edge: local edge 4 of the first
    process is local edge 0 of the second. *)
Module RuleEnforcerRun.
Import ParallelRefinement RuleEnforcer RuleEnforcerLemmas RuleEnforcerProps
       MarkerUpdateLaws EnforcerExample.

Example run_three_rounds :
  enforce_rules (update_logical_edgefunction global_edge) procs 9 st0
  = Some (st1, 3).
Proof. vm_compute. reflexivity. Qed.

Lemma procs_in_range : Forall2 long_edge_in_range procs st0.
Proof.
  repeat (apply Forall2_cons; split); [..|apply Forall2_nil_2];
    intros f Hf; repeat (apply elem_of_cons in Hf as [->|Hf]);
    try (by apply elem_of_nil in Hf); vm_compute; lia.
Qed.

(** The three theorems on the sample run, with the modelled marker
    update. *)
Lemma enforce_rules_postcondition_witness :
  ∃ st' rounds,
    enforce_rules (update_logical_edgefunction global_edge) procs 9 st0
    = Some (st', rounds) ∧
    Forall2 rule_holds procs st'.
Proof.
  apply (enforce_rules_postcondition (update_logical_edgefunction global_edge)
           (update_mono global_edge) procs st0 9);
    [reflexivity|apply procs_in_range|vm_compute; lia].
Defined.

Lemma enforce_rules_terminates_witness :
  (∀ s s' cnt,
     length procs = length s →
     Forall2 long_edge_in_range procs s →
     round (update_logical_edgefunction global_edge) procs s = (s', cnt) →
     Forall2 marks_le s s' ∧
     ((cnt = 0 ∧ ∀ fuel rounds,
         enforce_rules_loop (update_logical_edgefunction global_edge)
           procs (S fuel) s rounds = Some (s', S rounds))
      ∨ unmarked s' < unmarked s)) ∧
  (∀ fuel, num_edges st0 < fuel →
     ∃ st' rounds,
       enforce_rules (update_logical_edgefunction global_edge) procs fuel st0
       = Some (st', rounds) ∧
       Forall2 marks_le st0 st' ∧
       rounds ≤ num_edges st0 + 1).
Proof.
  apply (enforce_rules_terminates (update_logical_edgefunction global_edge)
           (update_mono global_edge) procs st0);
    [reflexivity|apply procs_in_range].
Defined.

Lemma enforce_rules_idempotent_witness :
  round (update_logical_edgefunction global_edge) procs st1 = (st1, 0) ∧
  ∀ fuel',
    enforce_rules (update_logical_edgefunction global_edge) procs (S fuel') st1
    = Some (st1, 1).
Proof.
  apply (enforce_rules_idempotent (update_logical_edgefunction global_edge)
           (update_mono global_edge) (update_idem global_edge)
           procs st0 st1 9 3);
    [reflexivity|vm_compute; reflexivity].
Defined.

End RuleEnforcerRun.

(** ** LongestEdgeSelector *)

Module LongestEdgeSelectorProps.
Import LongestEdgeSelector SelectorExample.

Lemma key_lt_irrefl l g : ¬ key_lt l g l g.
Proof. intros [H|[_ H]]; [by apply Qlt_irrefl in H|lia]. Qed.

Lemma key_lt_trans l1 g1 l2 g2 l3 g3 :
  key_lt l1 g1 l2 g2 → key_lt l2 g2 l3 g3 → key_lt l1 g1 l3 g3.
Proof.
  intros [H1|[H1 H1']] [H2|[H2 H2']].
  - left. by eapply Qlt_trans.
  - left. by rewrite H2.
  - left. by rewrite <- H1.
  - right. split; [by rewrite H2|lia].
Qed.

Lemma key_total l1 g1 l2 g2 :
  key_lt l1 g1 l2 g2 ∨ key_lt l2 g2 l1 g1 ∨ ((l1 == l2)%Q ∧ g1 = g2).
Proof.
  destruct (Q_dec l1 l2) as [[H|H]|H].
  - left. by left.
  - right. left. by left.
  - destruct (lt_eq_lt_dec g1 g2) as [[?|?]|?].
    + left. right. split; [by symmetry|done].
    + right. right. done.
    + right. left. right. done.
Qed.

Lemma not_key_lt_trans l1 g1 l2 g2 l3 g3 :
  ¬ key_lt l2 g2 l1 g1 → ¬ key_lt l3 g3 l2 g2 → ¬ key_lt l3 g3 l1 g1.
Proof.
  intros H12 H23 H31.
  destruct (key_total l2 g2 l3 g3) as [H|[H|[Hl ->]]]; [|done|].
  - apply H12. by eapply key_lt_trans.
  - apply H12. destruct H31 as [H31|[H31 ?]].
    + left. by rewrite Hl.
    + right. split; [by rewrite H31|done].
Qed.

Lemma long_edge_step_spec st ev :
  long_edge_step st ev
  = if decide (key_lt st.2 st.1.2 (edge_length ev.1) ev.2) then selected ev else st.
Proof.
  destruct st as [[imax gimax] max_len]. unfold long_edge_step, key_lt. simpl.
  destruct (decide _) as [H|H].
  - destruct H as [H|[H1 H2]].
    + by rewrite (bool_decide_eq_true_2 _ H).
    + rewrite (bool_decide_eq_true_2 _ H1), (bool_decide_eq_true_2 _ H2).
      by rewrite orb_true_r.
  - destruct (bool_decide_reflect (max_len < edge_length ev.1)%Q) as [?|?];
      [destruct H; by left|].
    destruct (bool_decide_reflect (edge_length ev.1 == max_len)%Q) as [?|?]; [|done].
    destruct (bool_decide_reflect (gimax < ev.2)) as [?|?]; [|done].
    destruct H. by right.
Qed.

(** The loop ends on a state that no scanned edge beats, and that is
    either the initial one or the state of a scanned edge. *)
Lemma scan_from_spec evs :
  ∀ st, let st' := foldl long_edge_step st evs in
    ¬ key_lt st'.2 st'.1.2 st.2 st.1.2 ∧
    (∀ ev, ev ∈ evs → ¬ key_lt st'.2 st'.1.2 (edge_length ev.1) ev.2) ∧
    (st' = st ∨ ∃ ev, ev ∈ evs ∧ st' = selected ev).
Proof.
  induction evs as [|ev evs IH]; intros st; cbn [foldl].
  { split_and!; [apply key_lt_irrefl|by intros ? ?%elem_of_nil|by left]. }
  destruct (IH (long_edge_step st ev)) as (H1 & H2 & H3).
  set (st' := foldl long_edge_step (long_edge_step st ev) evs) in *.
  rewrite long_edge_step_spec in H1, H3.
  destruct (decide (key_lt st.2 st.1.2 (edge_length ev.1) ev.2)) as [Hlt|Hnlt].
  - simpl in H1. split_and!.
    + intros H. apply H1. by eapply key_lt_trans.
    + intros ev' [->|Hin]%elem_of_cons; [done|by apply H2].
    + right. destruct H3 as [->|(ev' & ? & ?)].
      * exists ev. split; [left|done].
      * exists ev'. split; [by right|done].
  - split_and!.
    + done.
    + intros ev' [->|Hin]%elem_of_cons; [|by apply H2].
      by eapply not_key_lt_trans.
    + destruct H3 as [->|(ev' & ? & ?)]; [by left|].
      right. exists ev'. split; [by right|done].
Qed.

Lemma NoDup_snd_inj {A B} (l : list (A * B)) x y :
  NoDup l.*2 → x ∈ l → y ∈ l → x.2 = y.2 → x = y.
Proof.
  intros Hnd (i & Hi)%list_elem_of_lookup (j & Hj)%list_elem_of_lookup Heq.
  assert (i = j) as ->; [|congruence].
  eapply NoDup_lookup; [done|..]; rewrite list_lookup_fmap;
    [by rewrite Hi|by rewrite Hj, Heq].
Qed.

(** On a list of edges with distinct vertex indices, at least two of
    them, and no negative length, the loop selects the edge that beats
    all the others. *)
Lemma long_edge_scan_max evs :
  2 ≤ length evs → NoDup evs.*2 →
  (∀ ev, ev ∈ evs → (0 <= edge_length ev.1)%Q) →
  ∃ ev, ev ∈ evs ∧ long_edge_scan evs = selected ev ∧
    ∀ ev', ev' ∈ evs → ev' ≠ ev →
      key_lt (edge_length ev'.1) ev'.2 (edge_length ev.1) ev.2.
Proof.
  intros Hlen Hnd Hpos.
  destruct (scan_from_spec evs (0, 0, 0%Q)) as (_ & Hmax & Hsel).
  fold (long_edge_scan evs) in Hmax, Hsel.
  assert (∃ ev, ev ∈ evs ∧ long_edge_scan evs = selected ev) as (ev & Hev & Heq).
  { destruct Hsel as [Hinit|?]; [exfalso|done].
    rewrite Hinit in Hmax. simpl in Hmax.
    destruct evs as [|ev1 [|ev2 evs]]; simpl in Hlen; try lia.
    assert (ev1.2 ≠ ev2.2) as Hne.
    { intros Heq. rewrite !fmap_cons in Hnd.
      apply NoDup_cons in Hnd as [Hnd _]. apply Hnd. rewrite Heq. left. }
    assert (∀ ev, ev ∈ ev1 :: ev2 :: evs → ev.2 = 0) as Hzero.
    { intros ev Hev. specialize (Hmax ev Hev). specialize (Hpos ev Hev).
      destruct (decide (ev.2 = 0)) as [?|Hnz]; [done|]. destruct Hmax.
      apply Qle_lt_or_eq in Hpos as [?|?]; [by left|right].
      split; [by symmetry|lia]. }
    apply Hne. rewrite (Hzero ev1), (Hzero ev2); [done|right; left|left]. }
  exists ev. split_and!; [done..|].
  intros ev' Hev' Hne. rewrite Heq in Hmax. simpl in Hmax.
  destruct (key_total (edge_length ev'.1) ev'.2 (edge_length ev.1) ev.2)
    as [?|[?|[_ Hg]]]; [done|by apply Hmax in Hev'|].
  destruct Hne. by eapply NoDup_snd_inj.
Qed.

Lemma edges_with_vertex_snd f :
  length (face_vertices f) = length (face_edges f) →
  (edges_with_vertex f).*2 = face_vertices f.
Proof.
  intros Hlen. unfold edges_with_vertex. apply list_eq. intros i.
  rewrite list_lookup_fmap, list_lookup_imap. unfold vec_nat.
  destruct (face_edges f !! i) as [e|] eqn:He; simpl.
  - apply lookup_lt_Some in He. rewrite <- Hlen in He.
    apply lookup_lt_is_Some in He as [g ->]. done.
  - apply lookup_ge_None in He. rewrite <- Hlen in He.
    symmetry. by apply lookup_ge_None.
Qed.

Lemma elem_of_edges_with_vertex f ev :
  ev ∈ edges_with_vertex f →
  ∃ pos, face_edges f !! pos = Some ev.1 ∧ vec_nat (face_vertices f) pos = ev.2.
Proof.
  intros (pos & Hpos)%list_elem_of_lookup. exists pos.
  unfold edges_with_vertex in Hpos. rewrite list_lookup_imap in Hpos.
  destruct (face_edges f !! pos); [|done]. by injection Hpos as <-.
Qed.

Lemma face_ok_edges f :
  face_ok f →
  2 ≤ length (edges_with_vertex f) ∧ NoDup (edges_with_vertex f).*2 ∧
  ∀ ev, ev ∈ edges_with_vertex f → (0 <= edge_length ev.1)%Q.
Proof.
  intros (Hlen & H2 & Hnd & Hpos). split_and!.
  - unfold edges_with_vertex. by rewrite length_imap.
  - by rewrite edges_with_vertex_snd.
  - intros ev (pos & He & _)%elem_of_edges_with_vertex.
    apply Hpos. by eapply list_elem_of_lookup_2.
Qed.

(** The selection on one face: the body of the loop over the faces. *)
Lemma long_edge_of_face_spec (f : Face) :
  face_ok f →
  (∃ ev, ev ∈ edges_with_vertex f ∧
     long_edge_of_face f = edge_index ev.1 ∧
     ∀ ev', ev' ∈ edges_with_vertex f → ev' ≠ ev →
       key_lt (edge_length ev'.1) ev'.2 (edge_length ev.1) ev.2) ∧
  (∀ (f' : Face) (r : nat → nat),
     edges_with_vertex f' ≡ₚ relabel r <$> edges_with_vertex f →
     long_edge_of_face f' = r (long_edge_of_face f)).
Proof.
  intros Hok. destruct (face_ok_edges f Hok) as (Hlen & Hnd & Hpos).
  destruct (long_edge_scan_max _ Hlen Hnd Hpos) as (ev & Hev & Heq & Hmax).
  split.
  { exists ev. split_and!; [done| |done]. unfold long_edge_of_face. by rewrite Heq. }
  intros f' r Hperm.
  destruct (long_edge_scan_max (edges_with_vertex f')) as (ev' & Hev' & Heq' & Hmax').
  - by rewrite Hperm, length_fmap.
  - rewrite Hperm, <- list_fmap_compose.
    by rewrite (list_fmap_ext (snd ∘ relabel r) snd _ (λ _ _ _, eq_refl)).
  - intros x Hx. rewrite Hperm in Hx.
    apply list_elem_of_fmap in Hx as (y & -> & Hy). simpl. by apply Hpos.
  - unfold long_edge_of_face. rewrite Heq, Heq'. simpl.
    assert (relabel r ev ∈ edges_with_vertex f') as Hin
      by (rewrite Hperm; by apply list_elem_of_fmap_2).
    destruct (decide (relabel r ev = ev')) as [<-|Hne]; [done|].
    specialize (Hmax' _ Hin Hne).
    rewrite Hperm in Hev'. apply list_elem_of_fmap in Hev' as (y & -> & Hy).
    destruct (decide (y = ev)) as [->|Hne']; [done|].
    specialize (Hmax _ Hy Hne'). simpl in Hmax'.
    destruct (key_lt_irrefl (edge_length ev.1) ev.2).
    by eapply key_lt_trans.
Qed.

Lemma length_face_long_edge n faces : length (face_long_edge n faces) = n.
Proof.
  unfold face_long_edge. apply foldl_invariant; [by rewrite length_replicate|].
  intros res f _ <-. by rewrite length_insert.
Qed.

Lemma face_long_edge_lookup n faces f :
  NoDup (face_index <$> faces) → f ∈ faces → face_index f < n →
  face_long_edge n faces !! face_index f = Some (long_edge_of_face f).
Proof.
  induction faces as [|x faces IH] using rev_ind; [by intros _ ?%elem_of_nil|].
  rewrite fmap_app. intros (Hnd & Hdisj & _)%NoDup_app Hf Hlt.
  unfold face_long_edge. rewrite foldl_app. cbn [foldl].
  fold (face_long_edge n faces).
  apply elem_of_app in Hf as [Hf|Hf%list_elem_of_singleton]; [|subst x].
  - rewrite list_lookup_insert_ne; [by apply IH|].
    intros Heq. apply (Hdisj (face_index f)); [by apply list_elem_of_fmap_2|].
    rewrite <- Heq. simpl. left.
  - apply list_lookup_insert_eq. by rewrite length_face_long_edge.
Qed.

(** C7: on every face the edge [face_long_edge] selects is the one whose
    pair (length, global index of the opposite vertex) is the largest:
    every other edge of the face is shorter, or as long with a smaller
    global vertex index. The choice does not depend on the order in which
    the edges come, nor on their local numbers: an evaluation on a mesh
    that holds the same edges of the face in another order, numbered
    through [r], selects the same edge under its number there. *)
Theorem face_long_edge_deterministic
    (num_faces : nat) (faces : list Face) (f : Face) :
  NoDup (face_index <$> faces) → f ∈ faces → face_index f < num_faces →
  face_ok f →
  ∃ ev, ev ∈ edges_with_vertex f ∧
    face_long_edge num_faces faces !! face_index f = Some (edge_index ev.1) ∧
    (∀ ev', ev' ∈ edges_with_vertex f → ev' ≠ ev →
       key_lt (edge_length ev'.1) ev'.2 (edge_length ev.1) ev.2) ∧
    (∀ (num_faces' : nat) (faces' : list Face) (f' : Face) (r : nat → nat),
       NoDup (face_index <$> faces') → f' ∈ faces' →
       face_index f' < num_faces' →
       edges_with_vertex f' ≡ₚ relabel r <$> edges_with_vertex f →
       face_long_edge num_faces' faces' !! face_index f'
       = Some (r (edge_index ev.1))).
Proof.
  intros Hnd Hf Hlt Hok.
  destruct (long_edge_of_face_spec f Hok) as ((ev & Hev & Heq & Hmax) & Hperm).
  exists ev. split_and!; [done| |done|].
  - by rewrite face_long_edge_lookup, Heq.
  - intros n' faces' f' r Hnd' Hf' Hlt' Hp.
    rewrite face_long_edge_lookup by done. by rewrite (Hperm f' r Hp), Heq.
Qed.

(** On the sample triangle: edge 11, of length 1 and with vertex 7. *)
Lemma face_long_edge_deterministic_witness :
  ∃ ev, ev ∈ edges_with_vertex tri ∧
    face_long_edge 1 [tri] !! face_index tri = Some (edge_index ev.1) ∧
    (∀ ev', ev' ∈ edges_with_vertex tri → ev' ≠ ev →
       key_lt (edge_length ev'.1) ev'.2 (edge_length ev.1) ev.2) ∧
    (∀ (num_faces' : nat) (faces' : list Face) (f' : Face) (r : nat → nat),
       NoDup (face_index <$> faces') → f' ∈ faces' →
       face_index f' < num_faces' →
       edges_with_vertex f' ≡ₚ relabel r <$> edges_with_vertex tri →
       face_long_edge num_faces' faces' !! face_index f'
       = Some (r (edge_index ev.1))).
Proof.
  apply (face_long_edge_deterministic 1 [tri] tri).
  - apply NoDup_singleton.
  - left.
  - simpl. lia.
  - split_and!; [reflexivity|simpl; lia| |].
    + by apply (bool_decide_unpack (NoDup _)).
    + intros e He. repeat (apply elem_of_cons in He as [->|He]);
        [by vm_compute..|by apply elem_of_nil in He].
Defined.

Example tri_long_edge : face_long_edge 1 [tri] = [11].
Proof. reflexivity. Qed.

End LongestEdgeSelectorProps.

(** ** ParentFacetMapper *)

Module ParentFacetMapperProps.
Import ParentFacetMapper MapperExample.

Lemma vertex_match_spec tdim nvm f pf :
  vertex_match (parent_facet_set tdim nvm pf) f = true ↔ facet_within tdim nvm f pf.
Proof.
  unfold vertex_match, facet_within. rewrite forallb_forall. split.
  - intros H v Hv. apply list_elem_of_In, H in Hv. by apply bool_decide_eq_true in Hv.
  - intros H v Hv. apply bool_decide_eq_true, H. by apply list_elem_of_In.
Qed.

Lemma length_tag_fold f l npf : length (foldl (tag_step f) npf l) = length npf.
Proof.
  apply foldl_invariant; [done|]. intros a p _ <-. unfold tag_step.
  destruct (vertex_match _ _); [by rewrite length_insert|done].
Qed.

Lemma tag_fold_no_match tdim nvm f pcell npf :
  Forall (λ pf, ¬ facet_within tdim nvm f pf) pcell →
  foldl (tag_step f) npf (tagged_sets tdim nvm pcell) = npf.
Proof.
  induction 1 as [|pf pcell Hpf _ IH]; [done|].
  cbn [tagged_sets fmap list_fmap foldl]. unfold tag_step at 2. cbn [fst snd].
  destruct (vertex_match _ _) eqn:Hm; [by apply vertex_match_spec in Hm|].
  apply IH.
Qed.

Lemma tag_child_facet_unfold tdim nvm pcell npf f :
  tag_child_facet pcell (parent_facet_set tdim nvm <$> pcell) npf f
  = if bool_decide (npf !! N.to_nat (facet_index f) = Some no_parent)
    then foldl (tag_step f) npf (tagged_sets tdim nvm pcell)
    else npf.
Proof. unfold tag_child_facet. by rewrite zip_fmap_diag. Qed.

(** C3, as the code has it: a child facet that is not yet tagged and
    lies within some vertex set of its parent cell is tagged with the
    parent facet of the last such set in the parent's facet order: the
    loop over the sets does not stop at a match, and a later match
    overwrites an earlier one. *)
Theorem tag_child_facet_last_match
    (tdim : nat) (nvm : gmap N N) (pcell : list Facet) (npf : list N)
    (f : Facet) (l1 : list Facet) (pf : Facet) (l2 : list Facet) :
  npf !! N.to_nat (facet_index f) = Some no_parent →
  pcell = l1 ++ pf :: l2 →
  facet_within tdim nvm f pf →
  Forall (λ pf', ¬ facet_within tdim nvm f pf') l2 →
  tag_child_facet pcell (parent_facet_set tdim nvm <$> pcell) npf f
    !! N.to_nat (facet_index f) = Some (facet_index pf).
Proof.
  intros Hnpf -> Hpf Hl2. rewrite tag_child_facet_unfold.
  rewrite bool_decide_eq_true_2 by done.
  unfold tagged_sets. rewrite fmap_app, fmap_cons, foldl_app. cbn [foldl].
  fold (tagged_sets tdim nvm l1) (tagged_sets tdim nvm l2).
  rewrite tag_fold_no_match by done.
  unfold tag_step at 1. cbn [fst snd].
  apply vertex_match_spec in Hpf. rewrite Hpf.
  apply list_lookup_insert_eq. rewrite length_tag_fold.
  by eapply lookup_lt_Some.
Qed.

(** The first matching set is not the one that tags: on the sample
    tetrahedron the child facet lies within the sets of the parent facets
    0 and 1, and the entry written is 1. *)
Lemma tags_first_match_counterexample : ¬ tags_first_match.
Proof.
  intros H.
  specialize (H 3 split_edge_0 [pf0; pf1; pf2; pf3] [no_parent] child
                [] pf0 [pf1; pf2; pf3]).
  assert (Some 1%N = Some (facet_index pf0)) as Habs; [|discriminate Habs].
  rewrite <- H; [by vm_compute|reflexivity|reflexivity| |constructor].
  apply vertex_match_spec. by vm_compute.
Qed.

(** On the sample tetrahedron the last matching parent facet is facet 1. *)
Lemma tag_child_facet_last_match_witness :
  tag_child_facet [pf0; pf1; pf2; pf3]
                  (parent_facet_set 3 split_edge_0 <$> [pf0; pf1; pf2; pf3])
                  [no_parent] child
    !! N.to_nat (facet_index child) = Some (facet_index pf1).
Proof.
  apply (tag_child_facet_last_match 3 split_edge_0 [pf0; pf1; pf2; pf3]
           [no_parent] child [pf0] pf1 [pf2; pf3]); [reflexivity|reflexivity| |].
  - apply vertex_match_spec. by vm_compute.
  - repeat (apply Forall_cons; split; [|try apply Forall_nil_2]);
      intros H%vertex_match_spec; by vm_compute in H.
Defined.

(** The same on a whole run, with one child cell under the parent. *)
Example set_parent_facet_markers_last :
  set_parent_facet_markers
    {| tdim := 3; cells := [[pf0; pf1; pf2; pf3]]; num_facets := 4 |}
    {| tdim := 3; cells := [[child]]; num_facets := 1 |}
    [0] split_edge_0
  = [1%N].
Proof. by vm_compute. Qed.

(** *** The entries of ["parent_facet"] after the whole run *)

Section entries.
Variables (mesh new_mesh : Mesh) (parent_cell : list nat) (nvm : gmap N N).

Lemma entries_ok_init : entries_ok mesh new_mesh parent_cell nvm (replicate (num_facets new_mesh) no_parent).
Proof.
  split; [apply length_replicate|].
  intros fi v [-> _]%lookup_replicate. by left.
Qed.

Lemma entries_ok_tag_child_facet pi ci pcell cell f npf :
  cells mesh !! pi = Some pcell → cells new_mesh !! ci = Some cell →
  parent_cell !! ci = Some pi → f ∈ cell →
  entries_ok mesh new_mesh parent_cell nvm npf →
  entries_ok mesh new_mesh parent_cell nvm (tag_child_facet pcell (parent_facet_set (tdim mesh) nvm <$> pcell) npf f).
Proof.
  intros Hp Hc Hpc Hf Hok. rewrite tag_child_facet_unfold.
  case_bool_decide; [|done].
  apply foldl_invariant; [done|].
  intros a p (pf & -> & Hpf)%list_elem_of_fmap [Hlen Ha].
  unfold tag_step. cbn [fst snd].
  destruct (vertex_match _ _) eqn:Hm; [|done].
  apply vertex_match_spec in Hm.
  split; [by rewrite length_insert|].
  intros fi v. rewrite list_lookup_insert. case_decide as Hfi; [|apply Ha].
  intros [= <-]. right. destruct Hfi as [<- _].
  by exists pi, ci, pcell, cell, f, pf.
Qed.

Lemma reverse_cell_map_spec n m pi s ci :
  reverse_cell_map n parent_cell m !! pi = Some s → ci ∈ s →
  parent_cell !! ci = Some pi.
Proof.
  unfold reverse_cell_map. revert pi s ci.
  apply (foldl_invariant
           (λ rcm : list (gset nat), ∀ pi s ci,
              rcm !! pi = Some s → ci ∈ s → parent_cell !! ci = Some pi)).
  - intros pi s ci [-> _]%lookup_replicate. set_solver.
  - intros rcm c _ IH pi s ci.
    destruct (parent_cell !! c) as [pc|] eqn:Hc; [|apply IH].
    rewrite list_lookup_alter. case_decide as Hpi; [subst pc|apply IH].
    destruct (rcm !! pi) as [s'|] eqn:Hs; [|done].
    intros [= <-] [->%elem_of_singleton|?]%elem_of_union; [done|by eapply IH].
Qed.

Lemma elem_of_children_of n m pi ci :
  ci ∈ children_of (reverse_cell_map n parent_cell m) pi →
  parent_cell !! ci = Some pi.
Proof.
  unfold children_of. rewrite merge_sort_Permutation, elem_of_elements.
  destruct (reverse_cell_map n parent_cell m !! pi) as [s|] eqn:Hs; simpl;
    [by apply (reverse_cell_map_spec n m)|set_solver].
Qed.

Lemma entries_ok_run :
  entries_ok mesh new_mesh parent_cell nvm (set_parent_facet_markers mesh new_mesh parent_cell nvm).
Proof.
  unfold set_parent_facet_markers. cbv zeta.
  apply foldl_invariant; [apply entries_ok_init|].
  intros npf [pi pcell] (i & Hi)%list_elem_of_lookup Hok.
  rewrite list_lookup_imap in Hi.
  destruct (cells mesh !! i) as [pc|] eqn:Hpc; [|done].
  injection Hi as <- <-.
  unfold tag_children. cbn [fst snd].
  apply foldl_invariant; [done|].
  intros npf' ci Hci Hok'. apply elem_of_children_of in Hci.
  destruct (cells new_mesh !! ci) as [cell|] eqn:Hcell; [|done].
  apply foldl_invariant; [done|].
  intros npf'' f Hf Hok''. by eapply entries_ok_tag_child_facet.
Qed.

(** C8: after [set_parent_facet_markers], every facet of the new mesh has
    exactly one ["parent_facet"] entry; the entry is the no-parent value
    or the index of a facet of the parent of a cell the facet belongs to,
    within whose vertex set the facet lies; and a facet that lies within
    no vertex set of any facet of the parent cells of its cells has the
    no-parent value. *)
Theorem set_parent_facet_markers_entries :
  let parent_facet := set_parent_facet_markers mesh new_mesh parent_cell nvm in
  length parent_facet = num_facets new_mesh ∧
  (∀ fi, fi < num_facets new_mesh →
     ∃ v, parent_facet !! fi = Some v ∧
          (∀ v', parent_facet !! fi = Some v' → v' = v) ∧
          (v = no_parent ∨ descends mesh new_mesh parent_cell nvm fi v)) ∧
  (∀ fi, fi < num_facets new_mesh →
     (∀ pi ci pcell cell f pf,
        cells mesh !! pi = Some pcell → cells new_mesh !! ci = Some cell →
        parent_cell !! ci = Some pi →
        f ∈ cell → N.to_nat (facet_index f) = fi → pf ∈ pcell →
        ¬ facet_within (tdim mesh) nvm f pf) →
     parent_facet !! fi = Some no_parent).
Proof.
  intros parent_facet. destruct entries_ok_run as [Hlen Hent].
  fold parent_facet in Hlen, Hent.
  assert (∀ fi, fi < num_facets new_mesh → ∃ v, parent_facet !! fi = Some v) as Hsome.
  { intros fi Hfi. apply lookup_lt_is_Some. by rewrite Hlen. }
  split_and!; [done| |].
  - intros fi Hfi. destruct (Hsome fi Hfi) as [v Hv]. exists v.
    split_and!; [done|congruence|by apply Hent].
  - intros fi Hfi Hno. destruct (Hsome fi Hfi) as [v Hv].
    destruct (Hent _ _ Hv) as [->|Hd]; [done|].
    destruct Hd as (pi & ci & pcell & cell & f & pf & ? & ? & ? & ? & ? & ? & _ & Hw).
    by destruct (Hno pi ci pcell cell f pf).
Qed.

End entries.

End ParentFacetMapperProps.

(** ** ValueCollectionRedistributor *)

Lemma foldl_simulation {A A' B} (R : A → A' → Prop) (f : A → B → A)
    (f' : A' → B → A') (l : list B) (a : A) (a' : A') :
  R a a' → (∀ a a' x, x ∈ l → R a a' → R (f a x) (f' a' x)) →
  R (foldl f a l) (foldl f' a' l).
Proof.
  revert a a'. induction l as [|x l IH]; intros a a' Ha Hf; [done|].
  cbn [foldl]. apply IH.
  - apply Hf; [left|done].
  - intros ??? Hy. apply Hf. by right.
Qed.

Lemma foldl_reaches {A B} (I P : A → Prop) (f : A → B → A) (l : list B) (x : B) :
  x ∈ l →
  (∀ a y, I a → I (f a y)) →
  (∀ a, I a → P (f a x)) →
  (∀ a y, I a → P a → P (f a y)) →
  ∀ a, I a → P (foldl f a l).
Proof.
  intros Hx HI Hadd Hkeep.
  induction l as [|y l IH]; intros a Ha; [by apply elem_of_nil in Hx|].
  cbn [foldl]. apply elem_of_cons in Hx as [<-|Hx]; [|by apply IH, HI].
  apply (foldl_invariant (λ a, I a ∧ P a)); [split; [by apply HI|by apply Hadd]|].
  intros a' y _ [? ?]. split; [by apply HI|by apply Hkeep].
Qed.

Lemma mapM_result_Ok {A B} (f : A → result B) (g : A → B) (l : list A) :
  (∀ x, x ∈ l → f x = Ok (g x)) → mapM f l = Ok (g <$> l).
Proof.
  induction l as [|x l IH]; intros Hf; [done|].
  cbn [mapM]. rewrite Hf by left. cbn [mbind result_bind].
  rewrite IH; [done|]. intros y Hy. apply Hf. by right.
Qed.

Module RedistributorProps.
Import ValueCollectionRedistributor RedistributorExample.

Section props.
Context {M T : Type} `{!MeshValueCollection M T}.

#[local] Abbreviation triple := (nat * nat * T)%type.
#[local] Abbreviation datum := ((nat * nat) * T)%type.
#[local] Abbreviation Process := (@Process M T).
#[local] Abbreviation Prepared := (@Prepared M T).

Lemma apply_triples_app (m : M) (a b : list triple) :
  apply_triples m (a ++ b) = apply_triples (apply_triples m a) b.
Proof. apply foldl_app. Qed.

(** *** The global-to-local lookup *)

Lemma map_of_global_entity_indices_sound gei g i :
  map_of_global_entity_indices gei !! g = Some i → gei !! i = Some g.
Proof.
  unfold map_of_global_entity_indices. revert g i.
  apply (foldl_invariant
           (λ m : gmap nat nat, ∀ g i, m !! g = Some i → gei !! i = Some g)).
  - intros g i. by rewrite lookup_empty.
  - intros m [i' g'] (k & Hk)%list_elem_of_lookup IH g i.
    rewrite list_lookup_imap in Hk.
    destruct (gei !! k) as [x|] eqn:Hx; [|done]. injection Hk as <- <-.
    cbn [fst snd]. rewrite lookup_insert. case_decide as Hg; [|apply IH].
    intros [= <-]. by subst.
Qed.

Lemma map_of_global_entity_indices_complete gei g :
  g ∈ gei → is_Some (map_of_global_entity_indices gei !! g).
Proof.
  intros (k & Hk)%list_elem_of_lookup.
  assert ((k, g) ∈ imap pair gei) as Hin.
  { apply list_elem_of_lookup. exists k. by rewrite list_lookup_imap, Hk. }
  unfold map_of_global_entity_indices.
  assert (∀ (l : list (nat * nat)) (m : gmap nat nat),
            is_Some (m !! g) ∨ (k, g) ∈ l →
            is_Some (foldl (λ m ig, <[ig.2 := ig.1]> m) m l !! g)) as Hgen.
  { induction l as [|x l IH]; intros m [Hm|Hl]; cbn [foldl]; [done| |..].
    - by apply elem_of_nil in Hl.
    - apply IH. left. rewrite lookup_insert. by case_decide.
    - apply IH. apply elem_of_cons in Hl as [<-|Hl]; [left|by right].
      cbn [fst snd]. by rewrite lookup_insert_eq. }
  apply Hgen. by right.
Qed.

(** *** The first loop *)

Lemma local_pass_spec (map : gmap nat nat) (l : list datum) (m : M) (off : list nat) :
  foldl (local_step map) (m, off) l
  = (apply_triples m
       (omap (λ d : datum, (λ lc, (lc, d.1.2, d.2)) <$> map !! d.1.1) l),
     off ++ omap (λ d : datum, match map !! d.1.1 with
                               | Some _ => None
                               | None => Some d.1.1
                               end) l).
Proof.
  revert m off. induction l as [|d l IH]; intros m off; cbn [foldl omap list_omap].
  { by rewrite app_nil_r. }
  unfold local_step at 2. cbn [fst snd].
  destruct (map !! d.1.1) as [lc|]; cbn [fmap option_fmap option_map]; rewrite IH.
  - done.
  - by rewrite <- app_assoc.
Qed.

(** *** The two send buffers hold the projections of the triples *)

Lemma index_buffer_snoc (b : list triple) tr :
  index_buffer (b ++ [tr]) = index_buffer b ++ [tr.1.1; tr.1.2].
Proof. unfold index_buffer. rewrite bind_app. by f_equal. Qed.

Lemma value_buffer_snoc (b : list triple) tr :
  value_buffer (b ++ [tr]) = value_buffer b ++ [tr.2].
Proof. unfold value_buffer. by rewrite fmap_app. Qed.

Lemma length_index_buffer (b : list triple) :
  length (index_buffer b) = 2 * length b.
Proof.
  induction b as [|tr b IH]; [done|].
  unfold index_buffer in *. rewrite bind_cons, length_app, IH. simpl. lia.
Qed.

Lemma push_send_triple e (v : T) send (trs : list (list triple)) pd :
  buffers_of send trs →
  buffers_of (push_send e v send pd) (push_triple e v trs pd).
Proof.
  intros [H0 H1]. unfold push_send, push_triple, buffers_of. cbn [fst snd].
  rewrite H0, H1. split; symmetry; apply list_fmap_alter, Forall_forall;
    intros b _; [apply index_buffer_snoc|apply value_buffer_snoc].
Qed.

Lemma pack_host_triples_spec (ldata : list datum) mol send
    (trs : list (list triple)) h :
  buffers_of send trs →
  buffers_of (pack_host ldata mol send h) (pack_host_triples ldata mol trs h).
Proof.
  intros Hb. unfold pack_host, pack_host_triples.
  destruct (mol !! h.1) as [its|]; [|done].
  apply foldl_simulation; [done|]. intros s t it _ Hst.
  destruct (ldata !! it) as [d|]; [|done].
  apply foldl_simulation; [done|]. intros s' t' pd _ Hst'.
  by apply push_send_triple.
Qed.

Lemma pack_spec (ldata : list datum) hosts n :
  buffers_of (pack ldata hosts n)
    (foldl (pack_host_triples ldata (map_of_ldata ldata)) (replicate n []) hosts).
Proof.
  unfold pack. apply foldl_simulation.
  - split; cbn [fst snd]; by rewrite fmap_replicate.
  - intros s t h _ Hst. by apply pack_host_triples_spec.
Qed.

Lemma prepare_spec n (p : Process) :
  have_global_indices p = true → prepare n p = Ok (prepared_of n p).
Proof.
  intros Hg. unfold prepare. rewrite Hg. cbn [negb].
  rewrite local_pass_spec. cbn [fst snd app].
  fold (direct_triples p) (off_process p).
  destruct (pack_spec (local_value_data p)
              (locate_off_process_entities p (off_process p)) n) as [H0 H1].
  fold (sent_triples n p) in H0, H1. unfold prepared_of. by rewrite H0, H1.
Qed.

(** *** The receiving loops *)

Lemma receive_steps_spec nc (m : M) (trs : list triple) :
  (∀ tr, tr ∈ trs → tr.1.1 < nc) →
  ∀ extra,
    foldl (receive_step nc (index_buffer trs ++ extra)) (Ok m)
          (imap pair (value_buffer trs))
    = Ok (apply_triples m trs).
Proof.
  induction trs as [|tr trs IH] using rev_ind; intros Hnc extra; [done|].
  rewrite index_buffer_snoc, value_buffer_snoc, imap_app, foldl_app.
  rewrite <- app_assoc, IH by (intros; apply Hnc, elem_of_app; by left).
  cbn [imap foldl]. unfold receive_step. cbn [mbind result_bind fst snd].
  assert (length (value_buffer trs) = length trs) as ->
    by (unfold value_buffer; by rewrite length_fmap).
  unfold vec_nat.
  rewrite !(lookup_app_r (index_buffer trs)) by (rewrite length_index_buffer; lia).
  rewrite length_index_buffer.
  replace (2 * (length trs + 0) - 2 * length trs) with 0 by lia.
  replace (2 * (length trs + 0) + 1 - 2 * length trs) with 1 by lia.
  cbn [lookup list_lookup app default].
  unfold id.
  assert ((tr.1.1 <? nc) = true) as ->.
  { apply Nat.ltb_lt, Hnc, elem_of_app. right. left. }
  cbn [dolfin_assert]. by rewrite apply_triples_app.
Qed.

Lemma receive_from_spec nc (m : M) (trs : list triple) :
  (∀ tr, tr ∈ trs → tr.1.1 < nc) →
  receive_from nc (Ok m) (index_buffer trs, value_buffer trs)
  = Ok (apply_triples m trs).
Proof.
  intros Hnc. unfold receive_from. cbn [mbind result_bind fst snd].
  assert ((2 * length (value_buffer trs) =? length (index_buffer trs)) = true) as ->.
  { apply Nat.eqb_eq. unfold value_buffer.
    by rewrite length_index_buffer, length_fmap. }
  cbn [dolfin_assert].
  rewrite <- (app_nil_r (index_buffer trs)). by apply receive_steps_spec.
Qed.

Lemma receive_spec {P} nc (F : P → list triple) (ps : list P) (m : M) :
  (∀ p tr, p ∈ ps → tr ∈ F p → tr.1.1 < nc) →
  receive nc m ((λ p, index_buffer (F p)) <$> ps) ((λ p, value_buffer (F p)) <$> ps)
  = Ok (apply_triples m (ps ≫= F)).
Proof.
  unfold receive. rewrite zip_fmap_diag.
  revert m. induction ps as [|p ps IH]; intros m Hnc; [done|].
  rewrite fmap_cons. cbn [foldl]. rewrite receive_from_spec.
  - rewrite IH, bind_cons, apply_triples_app; [done|].
    intros p' tr ?. apply Hnc. by right.
  - intros tr. apply Hnc. left.
Qed.

Lemma all_to_all_buffers {P A B} (F : P → list (list A)) (g : list A → list B)
    (h : P → list (list B)) (ps : list P) (q : nat) :
  g [] = [] → (∀ p, h p = g <$> F p) →
  all_to_all (h <$> ps) q = (λ p, g (default [] (F p !! q))) <$> ps.
Proof.
  intros Hg Hh. unfold all_to_all. rewrite <- list_fmap_compose.
  apply list_fmap_ext. intros i p _. cbn. rewrite Hh, list_lookup_fmap.
  by destruct (F p !! q).
Qed.

(** *** Entry [i] of the value buffer goes with entries [2i], [2i + 1] *)

Lemma buffers_lookup (trs : list triple) i tr :
  trs !! i = Some tr →
  value_buffer trs !! i = Some tr.2 ∧
  index_buffer trs !! (2 * i) = Some tr.1.1 ∧
  index_buffer trs !! (2 * i + 1) = Some tr.1.2.
Proof.
  revert i. induction trs as [|tr' trs IH]; intros i Hi; [done|].
  destruct i as [|i]; [by injection Hi as ->|].
  destruct (IH i Hi) as (Hv & H0 & H1). split_and!; [done|..].
  - by replace (2 * S i) with (S (S (2 * i))) by lia.
  - by replace (2 * S i + 1) with (S (S (2 * i + 1))) by lia.
Qed.

(** *** Every tuple whose cell has a host is packed for that host *)

Lemma map_of_ldata_lookup (ldata : list datum) k d :
  ldata !! k = Some d →
  ∃ its, map_of_ldata ldata !! d.1.1 = Some its ∧ k ∈ its.
Proof.
  intros Hk.
  assert ((k, d) ∈ imap pair ldata) as Hin.
  { apply list_elem_of_lookup. exists k.
    by rewrite list_lookup_imap, Hk. }
  unfold map_of_ldata.
  apply (foldl_reaches (λ _, True)
           (λ m : gmap nat (gset nat), ∃ its, m !! d.1.1 = Some its ∧ k ∈ its)
           _ _ (k, d)); [done|done| | |done].
  - intros m _. cbn [fst snd]. rewrite lookup_insert_eq.
    eexists. split; [done|]. set_solver.
  - intros m [k' d'] _ (its & Hits & Hkin). cbn [fst snd].
    rewrite lookup_insert. case_decide as Hg; [|by exists its].
    eexists. split; [done|]. rewrite Hg, Hits. set_solver.
Qed.

Lemma push_triple_length e v (send : list (list triple)) pd :
  length (push_triple e v send pd) = length send.
Proof. unfold push_triple. apply length_alter. Qed.

Lemma push_triple_keeps e (v : T) (send : list (list triple)) pd proc tr :
  holds proc tr send → holds proc tr (push_triple e v send pd).
Proof.
  unfold holds, push_triple. rewrite list_lookup_alter.
  case_decide as Hp; [|done]. subst proc.
  destruct (send !! pd.1); [|done]. cbn. intros ?. apply elem_of_app. by left.
Qed.

Lemma push_triple_adds e (v : T) (send : list (list triple)) proc lc :
  proc < length send → holds proc (lc, e, v) (push_triple e v send (proc, lc)).
Proof.
  intros [b Hb]%lookup_lt_is_Some. unfold holds, push_triple. cbn [fst snd].
  rewrite list_lookup_alter_eq, Hb. cbn. apply elem_of_app. right. left.
Qed.

Lemma sent_triples_complete n (p : Process) k d pd proc lc :
  local_value_data p !! k = Some d →
  (d.1.1, pd) ∈ locate_off_process_entities p (off_process p) →
  (proc, lc) ∈ pd → proc < n →
  holds proc (lc, d.1.2, d.2) (sent_triples n p).
Proof.
  intros Hk Hhost Hpd Hproc.
  destruct (map_of_ldata_lookup _ _ _ Hk) as (its & Hits & Hkin).
  set (tr := (lc, d.1.2, d.2)).
  assert (∀ e v (pd' : list (nat * nat)) (send : list (list triple)),
            length send = n →
            length (foldl (push_triple e v) send pd') = n) as Hlen3.
  { intros e v pd' send Hs. apply foldl_invariant; [done|].
    intros a y _ <-. apply push_triple_length. }
  assert (∀ e v (pd' : list (nat * nat)) (send : list (list triple)),
            holds proc tr send →
            holds proc tr (foldl (push_triple e v) send pd')) as Hkeep3.
  { intros e v pd' send Hs. apply foldl_invariant; [done|].
    intros a y _ ?. by apply push_triple_keeps. }
  set (step2 := λ (pd' : list (nat * nat)) (send : list (list triple)) (it : nat),
         match local_value_data p !! it with
         | Some d' => foldl (push_triple d'.1.2 d'.2) send pd'
         | None => send
         end).
  assert (∀ pd' send it, length send = n → length (step2 pd' send it) = n) as Hlen2.
  { intros pd' send it Hs. unfold step2. destruct (_ !! it); [by apply Hlen3|done]. }
  assert (∀ pd' send it, holds proc tr send → holds proc tr (step2 pd' send it))
    as Hkeep2.
  { intros pd' send it Hs. unfold step2. destruct (_ !! it); [by apply Hkeep3|done]. }
  unfold sent_triples.
  apply (foldl_reaches (λ send, length send = n) (holds proc tr) _ _ (d.1.1, pd));
    [done| | | |apply length_replicate].
  - intros send h Hs. unfold pack_host_triples.
    destruct (_ !! h.1); [|done]. apply foldl_invariant; [done|].
    intros a it _ Ha. by apply (Hlen2 h.2).
  - intros send Hs. unfold pack_host_triples. cbn [fst snd]. rewrite Hits.
    apply (foldl_reaches (λ send, length send = n) (holds proc tr)
             (step2 pd) _ k); [|by apply Hlen2| |by intros; apply Hkeep2|done].
    + by rewrite merge_sort_Permutation, elem_of_elements.
    + intros a Ha. unfold step2. rewrite Hk.
      apply (foldl_reaches (λ send, length send = n) (holds proc tr)
               _ _ (proc, lc)); [done| | | |done].
      * intros a' y <-. apply push_triple_length.
      * intros a' Ha'. apply push_triple_adds. lia.
      * intros a' y _ ?. by apply push_triple_keeps.
  - intros send h Hs Hh. unfold pack_host_triples.
    destruct (_ !! h.1); [|done]. apply foldl_invariant; [done|].
    intros a it _ Ha. by apply (Hkeep2 h.2).
Qed.

(** C9: every tuple whose global cell index is among the global entity
    indices of the process is applied on that process with the local cell
    index the lookup gives for it; every tuple whose cell has a host is
    packed for that host; the value buffer and the index buffer a process
    fills for a destination hold the same triples in the same order
    (value [i] with index entries [2i] and [2i + 1]); and each receiver
    ends with its directly applied tuples followed, source by source, by
    exactly the triples packed for it, so no value is ever applied with
    the index pair of another. *)
Theorem build_mesh_value_collection_pairing (procs : list Process) :
  (∀ p, p ∈ procs → have_global_indices p = true) →
  (∀ q pq tr, procs !! q = Some pq → tr ∈ arriving procs q →
              tr.1.1 < num_cells pq) →
  (∀ p d, p ∈ procs → d ∈ local_value_data p →
     d.1.1 ∈ global_entity_indices p →
     ∃ lc, global_entity_indices p !! lc = Some d.1.1 ∧
           (lc, d.1.2, d.2) ∈ direct_triples p) ∧
  (∀ p k d pd proc lc, p ∈ procs →
     local_value_data p !! k = Some d →
     (d.1.1, pd) ∈ locate_off_process_entities p (off_process p) →
     (proc, lc) ∈ pd → proc < length procs →
     (lc, d.1.2, d.2) ∈ default [] (sent_triples (length procs) p !! proc)) ∧
  (∀ p, p ∈ procs →
     ∃ pr, prepare (length procs) p = Ok pr ∧
       local_markers pr
         = apply_triples (mvc_clear (mesh_values p)) (direct_triples p) ∧
       ∀ dest trs, sent_triples (length procs) p !! dest = Some trs →
         ∃ b0 b1, send_data0 pr !! dest = Some b0 ∧
                  send_data1 pr !! dest = Some b1 ∧
                  length b0 = 2 * length b1 ∧ length b1 = length trs ∧
                  ∀ i tr, trs !! i = Some tr →
                    b1 !! i = Some tr.2 ∧
                    b0 !! (2 * i) = Some tr.1.1 ∧
                    b0 !! (2 * i + 1) = Some tr.1.2) ∧
  (∃ ms, build_mesh_value_collection procs = Ok ms ∧
     length ms = length procs ∧
     ∀ q pq, procs !! q = Some pq →
       ms !! q = Some (apply_triples
                         (apply_triples (mvc_clear (mesh_values pq))
                                        (direct_triples pq))
                         (arriving procs q))).
Proof.
  intros Hglob Hrange. split_and!.
  - intros p d _ Hd Hg.
    destruct (map_of_global_entity_indices_complete _ _ Hg) as [lc Hlc].
    exists lc. split; [by apply map_of_global_entity_indices_sound|].
    unfold direct_triples. apply list_elem_of_omap. exists d.
    split; [done|]. by rewrite Hlc.
  - intros p k d pd proc lc _ Hk Hhost Hpd Hproc.
    by eapply (sent_triples_complete (length procs) p k d pd proc lc).
  - intros p Hp. exists (prepared_of (length procs) p).
    split_and!; [by apply prepare_spec, Hglob|done|].
    intros dest trs Htrs. exists (index_buffer trs), (value_buffer trs).
    cbn [prepared_of send_data0 send_data1].
    rewrite !list_lookup_fmap, Htrs.
    split_and!; [done|done| | |by apply buffers_lookup].
    + unfold value_buffer. by rewrite length_index_buffer, length_fmap.
    + unfold value_buffer. by rewrite length_fmap.
  - set (n := length procs).
    set (final := λ (qp : nat * (Process * Prepared)),
           apply_triples (local_markers qp.2.2) (arriving procs qp.1)).
    exists (final <$> imap pair (zip procs (prepared_of n <$> procs))).
    split_and!.
    + unfold build_mesh_value_collection. fold n.
      rewrite (mapM_result_Ok _ (prepared_of n))
        by (intros p Hp; by apply prepare_spec, Hglob).
      cbn [mbind result_bind].
      apply mapM_result_Ok.
      intros [q [pq pr]] (q' & Hq)%list_elem_of_lookup.
      rewrite list_lookup_imap in Hq.
      destruct (zip procs _ !! q') as [[pq' pr']|] eqn:Hz; [|done].
      injection Hq as <- <- <-.
      apply lookup_zip_with_Some in Hz as (? & ? & [= <- <-] & Hpq & Hpr).
      cbn [fst snd]. rewrite <- !list_fmap_compose.
      rewrite (all_to_all_buffers (sent_triples n) index_buffer
                 (send_data0 ∘ prepared_of n)) by done.
      rewrite (all_to_all_buffers (sent_triples n) value_buffer
                 (send_data1 ∘ prepared_of n)) by done.
      rewrite (receive_spec _ (λ p, default [] (sent_triples n p !! q'))); [done|].
      intros p tr Hp Htr. apply (Hrange q'); [done|].
      unfold arriving. apply list_elem_of_bind. by exists p.
    + by rewrite length_fmap, length_imap, length_zip_with, length_fmap, Nat.min_id.
    + intros q pq Hq.
      rewrite list_lookup_fmap, list_lookup_imap.
      assert (zip procs (prepared_of n <$> procs) !! q = Some (pq, prepared_of n pq)) as ->.
      { apply lookup_zip_with_Some. exists pq, (prepared_of n pq).
        split_and!; [done..|]. by rewrite list_lookup_fmap, Hq. }
      done.
Qed.

End props.

Example two_procs_result :
  build_mesh_value_collection two_procs
  = Ok [ {[ (0, 0) := 7; (1, 2) := 9; (0, 1) := 6 ]};
         {[ (1, 0) := 5; (0, 1) := 8 ]} ].
Proof. by vm_compute. Qed.

(** The last part of the theorem on the two sample processes. *)
Lemma build_mesh_value_collection_pairing_witness :
  ∃ ms, build_mesh_value_collection two_procs = Ok ms ∧
    length ms = length two_procs ∧
    ∀ q pq, two_procs !! q = Some pq →
      ms !! q = Some (apply_triples
                        (apply_triples (mvc_clear (mesh_values pq))
                                       (direct_triples pq))
                        (arriving two_procs q)).
Proof.
  apply (build_mesh_value_collection_pairing two_procs).
  - intros p Hp. repeat (apply elem_of_cons in Hp as [->|Hp]); [done..|].
    by apply elem_of_nil in Hp.
  - intros [|[|q]] pq tr [= <-] Htr; vm_compute in Htr;
      repeat (apply elem_of_cons in Htr as [->|Htr]);
      try (by apply elem_of_nil in Htr); cbn; lia.
Defined.

End RedistributorProps.

(** ** More on the generator *)

Module GeneratorSweepProps.
Import SimplexGenerator GeneratorSweep.

Lemma inb_spec x l : inb x l = true ↔ x ∈ l.
Proof.
  unfold inb. rewrite existsb_exists. split.
  - intros (y & Hy%list_elem_of_In & ->%Nat.eqb_eq). done.
  - intros Hx. exists x. split; [by apply list_elem_of_In|apply Nat.eqb_refl].
Qed.

Lemma forallb_elem {A} (f : A → bool) (l : list A) :
  forallb f l = true ↔ ∀ x, x ∈ l → f x = true.
Proof.
  rewrite forallb_forall. split; intros H x Hx; apply H; by apply list_elem_of_In.
Qed.

Lemma existsb_elem {A} (f : A → bool) (l : list A) :
  existsb f l = true ↔ ∃ x, x ∈ l ∧ f x = true.
Proof.
  rewrite existsb_exists. split; intros (x & Hx & ?); exists x;
    (split; [by apply list_elem_of_In|done]).
Qed.

Lemma elem_of_all_markings n (m : list bool) :
  length m = n → m ∈ all_markings n.
Proof.
  revert m. induction n as [|n IH]; intros [|b m] Hlen; try done; [left|].
  cbn [all_markings]. apply list_elem_of_bind. exists m.
  split; [|apply IH; by injection Hlen].
  destruct b; [right|]; left.
Qed.

Lemma elem_of_edges_of_facet e f : e ∈ edges_of_facet f ↔ edge_of_facet e f.
Proof.
  unfold edges_of_facet, edge_of_facet.
  rewrite list_elem_of_filter, elem_of_seq.
  split; [intros [[??] ?]|intros (? & ? & ?)]; split_and!; (done || lia).
Qed.

Lemma elem_of_all_longest longest_edge :
  valid_longest_edge longest_edge → longest_edge ∈ all_longest.
Proof.
  intros [Hlen Hval].
  destruct longest_edge as [|a [|b [|c [|d [|??]]]]]; try discriminate Hlen.
  pose proof (Hval 0 a eq_refl) as Ha. pose proof (Hval 1 b eq_refl) as Hb.
  pose proof (Hval 2 c eq_refl) as Hc. pose proof (Hval 3 d eq_refl) as Hd.
  apply elem_of_edges_of_facet in Ha, Hb, Hc, Hd.
  unfold all_longest.
  apply list_elem_of_bind. exists a. split; [|done].
  apply list_elem_of_bind. exists b. split; [|done].
  apply list_elem_of_bind. exists c. split; [|done].
  apply list_elem_of_bind. exists d. split; [left|done].
Qed.

Lemma elem_of_all_ordered_longest order :
  order ≡ₚ seq 0 6 → longest_from_order order ∈ all_ordered_longest.
Proof.
  intros Hp. apply elem_of_remove_dups, list_elem_of_fmap_2.
  by apply permutations_Permutation.
Qed.

Lemma facets_follow_rule_b_spec marked_edges longest_edge :
  facets_follow_rule marked_edges longest_edge →
  facets_follow_rule_b marked_edges longest_edge = true.
Proof.
  intros Hrule. apply forallb_elem. intros f Hf%elem_of_seq.
  destruct (existsb _ _) eqn:Hex; [|done]. simpl.
  apply existsb_elem in Hex as (e & He & Hm). eapply Hrule; [lia|done..].
Qed.

(** The two exhaustive checks: 64 markings against the 81 vectors of
    facet edges, and against the vectors that come from an order of the
    six edges. *)
Lemma sweep_conforming :
  forallb (λ m, forallb (λ le, forallb (conforming_b m) (get_tetrahedra m le))
                        all_longest)
          (all_markings 6) = true.
Proof. vm_compute. reflexivity. Qed.

Lemma sweep_covering :
  forallb (λ m, forallb (λ le, implb (facets_follow_rule_b m le)
                                     (covering_b m (get_tetrahedra m le)))
                        all_ordered_longest)
          (all_markings 6) = true.
Proof. vm_compute. reflexivity. Qed.

(** X1: every tetrahedron [get_tetrahedra] emits is conforming: a midpoint
    slot [4 + e] occurs in it only if edge [e] is marked, and it never
    holds both end vertices of a marked edge. *)
Theorem get_tetrahedra_conforming
    (marked_edges : list bool) (longest_edge : list nat) (t : simplex) :
  length marked_edges = 6 →
  valid_longest_edge longest_edge →
  t ∈ get_tetrahedra marked_edges longest_edge →
  (∀ s, s ∈ t → 4 ≤ s → vec_bool marked_edges (s - 4) = true) ∧
  (∀ e, e < 6 → vec_bool marked_edges e = true →
        ¬ (edges_at e 0 ∈ t ∧ edges_at e 1 ∈ t)).
Proof.
  intros Hm%elem_of_all_markings Hle%elem_of_all_longest Ht.
  pose proof sweep_conforming as Hs.
  rewrite forallb_elem in Hs. specialize (Hs _ Hm).
  rewrite forallb_elem in Hs. specialize (Hs _ Hle).
  rewrite forallb_elem in Hs. specialize (Hs _ Ht).
  apply andb_true_iff in Hs as [Hslots Hends]. split.
  - intros s Hs Hge. rewrite forallb_elem in Hslots. specialize (Hslots _ Hs).
    apply orb_true_iff in Hslots as [Hlt%Nat.ltb_lt|?]; [lia|done].
  - intros e He Hmark [H0%inb_spec H1%inb_spec].
    rewrite forallb_elem in Hends.
    specialize (Hends e). rewrite Hmark, H0, H1 in Hends.
    discriminate Hends. apply elem_of_seq. lia.
Qed.

(** X2: when the longest edges of the facets come from one order of the six
    edges and the marking follows the rule of the enforcer,
    [get_tetrahedra] emits at least one tetrahedron; the four vertices
    and the midpoint of every marked edge occur in the output; the output
    has one or two tetrahedra more than there are marked edges; and it
    has eight when all six edges are marked. *)
Theorem get_tetrahedra_covering
    (marked_edges : list bool) (order : list nat) :
  length marked_edges = 6 →
  order ≡ₚ seq 0 6 →
  facets_follow_rule marked_edges (longest_from_order order) →
  let tet_set := get_tetrahedra marked_edges (longest_from_order order) in
  (∀ v, v < 4 → ∃ t, t ∈ tet_set ∧ v ∈ t) ∧
  (∀ e, e < 6 → vec_bool marked_edges e = true → ∃ t, t ∈ tet_set ∧ e + 4 ∈ t) ∧
  count_marked marked_edges + 1 ≤ length tet_set ≤ count_marked marked_edges + 2 ∧
  (count_marked marked_edges = 6 → length tet_set = 8).
Proof.
  intros Hm%elem_of_all_markings Hle%elem_of_all_ordered_longest
    Hrule%facets_follow_rule_b_spec tet_set.
  pose proof sweep_covering as Hs.
  rewrite forallb_elem in Hs. specialize (Hs _ Hm).
  rewrite forallb_elem in Hs. specialize (Hs _ Hle).
  rewrite Hrule in Hs. cbn [implb] in Hs. fold tet_set in Hs.
  unfold covering_b in Hs.
  apply andb_true_iff in Hs as [Hs H8].
  apply andb_true_iff in Hs as [Hs Hub%Nat.leb_le].
  apply andb_true_iff in Hs as [Hs Hlb%Nat.leb_le].
  apply andb_true_iff in Hs as [Hv He].
  rewrite forallb_elem in Hv. rewrite forallb_elem in He.
  split_and!; [| |done..|].
  - intros v Hlt. specialize (Hv v). rewrite existsb_elem in Hv.
    destruct Hv as (t & ? & ?%inb_spec); [apply elem_of_seq; lia|]. by exists t.
  - intros e Hlt Hmark. specialize (He e). rewrite Hmark in He.
    cbn [implb] in He. rewrite existsb_elem in He.
    destruct He as (t & ? & ?%inb_spec); [apply elem_of_seq; lia|]. by exists t.
  - intros H6. apply Nat.eqb_eq in H6. rewrite H6 in H8. by apply Nat.eqb_eq in H8.
Qed.

(** X3: with no edge marked the cell is returned whole, whatever
    [longest_edge] holds. *)
Theorem get_tetrahedra_unmarked (marked_edges : list bool) (longest_edge : list nat) :
  length marked_edges = 6 →
  (∀ e, vec_bool marked_edges e = false) →
  get_tetrahedra marked_edges longest_edge = [[0; 1; 2; 3]].
Proof.
  intros Hlen Hno.
  destruct marked_edges as [|b0 [|b1 [|b2 [|b3 [|b4 [|b5 [|??]]]]]]];
    try discriminate Hlen.
  pose proof (Hno 0) as H0. pose proof (Hno 1) as H1. pose proof (Hno 2) as H2.
  pose proof (Hno 3) as H3. pose proof (Hno 4) as H4. pose proof (Hno 5) as H5.
  cbv in H0, H1, H2, H3, H4, H5. subst. by vm_compute.
Qed.

(** *** Triangles *)

Lemma sweep_triangles :
  forallb (λ m, forallb (λ le,
             match get_triangles m le with
             | Ok tri_set =>
                 forallb (tri_conforming_b m le) tri_set && tri_covering_b m tri_set
             | _ => true
             end) (seq 0 3))
          (all_markings 3) = true.
Proof. vm_compute. reflexivity. Qed.

Lemma triangles_checked marked_edges longest_edge tri_set :
  length marked_edges = 3 → longest_edge < 3 →
  get_triangles marked_edges longest_edge = Ok tri_set →
  forallb (tri_conforming_b marked_edges longest_edge) tri_set = true ∧
  tri_covering_b marked_edges tri_set = true.
Proof.
  intros Hm%elem_of_all_markings Hle Hget.
  pose proof sweep_triangles as Hs.
  rewrite forallb_elem in Hs. specialize (Hs _ Hm).
  rewrite forallb_elem in Hs. specialize (Hs longest_edge).
  rewrite Hget in Hs. apply andb_true_iff, Hs, elem_of_seq. lia.
Qed.

(** X4: every triangle [get_triangles] emits has three different slots below
    6, the first of which is the midpoint of the longest edge; a midpoint
    slot [3 + e] occurs in it only if edge [e] is marked, and it never
    holds both end vertices of a marked edge. *)
Theorem get_triangles_conforming
    (marked_edges : list bool) (longest_edge : nat) (tri_set : list simplex)
    (t : simplex) :
  length marked_edges = 3 → longest_edge < 3 →
  get_triangles marked_edges longest_edge = Ok tri_set →
  t ∈ tri_set →
  (∃ a b, t = [longest_edge + 3; a; b] ∧ NoDup t ∧ a < 6 ∧ b < 6) ∧
  (∀ s, s ∈ t → 3 ≤ s → vec_bool marked_edges (s - 3) = true) ∧
  (∀ e, e < 3 → vec_bool marked_edges e = true →
        ¬ ((e + 1) mod 3 ∈ t ∧ (e + 2) mod 3 ∈ t)).
Proof.
  intros Hm Hle Hget Ht.
  destruct (triangles_checked _ _ _ Hm Hle Hget) as [Hc _].
  rewrite forallb_elem in Hc. specialize (Hc _ Ht). unfold tri_conforming_b in Hc.
  apply andb_true_iff in Hc as [Hc Hends].
  apply andb_true_iff in Hc as [Hshape Hslots].
  split_and!.
  - destruct t as [|s [|a [|b [|??]]]]; try discriminate Hshape.
    repeat (apply andb_true_iff in Hshape as [Hshape ?]).
    repeat match goal with
           | H : (_ =? _) = true |- _ => apply Nat.eqb_eq in H
           | H : (_ <? _) = true |- _ => apply Nat.ltb_lt in H
           | H : negb (_ =? _) = true |- _ =>
               apply negb_true_iff, Nat.eqb_neq in H
           end.
    subst s. exists a, b. split_and!; [done| |done..].
    repeat (apply NoDup_cons; split;
              [rewrite ?elem_of_cons, elem_of_nil; lia|]).
    apply NoDup_nil_2.
  - intros s Hs Hge. rewrite forallb_elem in Hslots. specialize (Hslots _ Hs).
    apply orb_true_iff in Hslots as [Hlt%Nat.ltb_lt|?]; [lia|done].
  - intros e He Hmark [H0%inb_spec H1%inb_spec].
    rewrite forallb_elem in Hends.
    specialize (Hends e). rewrite Hmark, H0, H1 in Hends.
    discriminate Hends. apply elem_of_seq. lia.
Qed.

(** X5: the three vertices of the cell and the midpoint of every marked edge
    occur in the triangles [get_triangles] emits. *)
Theorem get_triangles_covering
    (marked_edges : list bool) (longest_edge : nat) (tri_set : list simplex) :
  length marked_edges = 3 → longest_edge < 3 →
  get_triangles marked_edges longest_edge = Ok tri_set →
  (∀ v, v < 3 → ∃ t, t ∈ tri_set ∧ v ∈ t) ∧
  (∀ e, e < 3 → vec_bool marked_edges e = true → ∃ t, t ∈ tri_set ∧ e + 3 ∈ t).
Proof.
  intros Hm Hle Hget.
  destruct (triangles_checked _ _ _ Hm Hle Hget) as [_ Hc].
  apply andb_true_iff in Hc as [Hv He].
  rewrite forallb_elem in Hv. rewrite forallb_elem in He. split.
  - intros v Hlt. specialize (Hv v). rewrite existsb_elem in Hv.
    destruct Hv as (t & ? & ?%inb_spec); [apply elem_of_seq; lia|]. by exists t.
  - intros e Hlt Hmark. specialize (He e). rewrite Hmark in He.
    cbn [implb] in He. rewrite existsb_elem in He.
    destruct He as (t & ? & ?%inb_spec); [apply elem_of_seq; lia|]. by exists t.
Qed.

End GeneratorSweepProps.

Module GeneratorSweepRun.
Import SimplexGenerator GeneratorSweep GeneratorSweepProps.

Lemma facets_follow_rule_b_true marked_edges longest_edge :
  facets_follow_rule_b marked_edges longest_edge = true →
  facets_follow_rule marked_edges longest_edge.
Proof.
  intros Hb f e Hf He Hm. unfold facets_follow_rule_b in Hb.
  rewrite forallb_elem in Hb. specialize (Hb f).
  assert (existsb (vec_bool marked_edges) (edges_of_facet f) = true) as Hex.
  { apply existsb_elem. by exists e. }
  rewrite Hex in Hb. apply Hb, elem_of_seq. lia.
Qed.

Lemma valid_longest_edge_0034 : valid_longest_edge [0; 0; 3; 4].
Proof.
  split; [reflexivity|].
  intros [|[|[|[|f]]]] e [= <-]; unfold edge_of_facet;
    (split_and!; [lia|by vm_compute..]).
Qed.

(** Edges 0 and 4 marked, the longest edges 0, 0, 3 and 4: the
    tetrahedron with the vertices 0 and 1 and the two midpoints. *)
Lemma get_tetrahedra_conforming_witness :
  (∀ s, s ∈ [0; 1; 4; 8] → 4 ≤ s →
        vec_bool [true; false; false; false; true; false] (s - 4) = true) ∧
  (∀ e, e < 6 → vec_bool [true; false; false; false; true; false] e = true →
        ¬ (edges_at e 0 ∈ [0; 1; 4; 8] ∧ edges_at e 1 ∈ [0; 1; 4; 8])).
Proof.
  apply (get_tetrahedra_conforming
           [true; false; false; false; true; false] [0; 0; 3; 4]);
    [reflexivity|apply valid_longest_edge_0034|].
  vm_compute. right. left.
Defined.

(** Edges 0 and 4 marked, edge 0 the longest of all and edge 5 the
    shortest: three tetrahedra. *)
Lemma get_tetrahedra_covering_witness :
  let marked_edges := [true; false; false; false; true; false] in
  let tet_set := get_tetrahedra marked_edges (longest_from_order [5; 1; 2; 3; 4; 0]) in
  (∀ v, v < 4 → ∃ t, t ∈ tet_set ∧ v ∈ t) ∧
  (∀ e, e < 6 → vec_bool marked_edges e = true → ∃ t, t ∈ tet_set ∧ e + 4 ∈ t) ∧
  count_marked marked_edges + 1 ≤ length tet_set ≤ count_marked marked_edges + 2 ∧
  (count_marked marked_edges = 6 → length tet_set = 8).
Proof.
  apply (get_tetrahedra_covering
           [true; false; false; false; true; false] [5; 1; 2; 3; 4; 0]);
    [reflexivity| |apply facets_follow_rule_b_true; reflexivity].
  rewrite <- (merge_sort_Permutation (≤) [5; 1; 2; 3; 4; 0]). reflexivity.
Defined.

(** No edge marked, no longest edge given. *)
Lemma get_tetrahedra_unmarked_witness :
  get_tetrahedra (replicate 6 false) [] = [[0; 1; 2; 3]].
Proof.
  apply get_tetrahedra_unmarked; [reflexivity|].
  intros e. do 7 (try destruct e as [|e]); reflexivity.
Defined.

(** Edges 0 and 2 marked, edge 2 the longest: the triangle with the
    midpoints of both. *)
Lemma get_triangles_conforming_witness :
  (∃ a b, [5; 3; 1] = [2 + 3; a; b] ∧ NoDup [5; 3; 1] ∧ a < 6 ∧ b < 6) ∧
  (∀ s, s ∈ [5; 3; 1] → 3 ≤ s → vec_bool [true; false; true] (s - 3) = true) ∧
  (∀ e, e < 3 → vec_bool [true; false; true] e = true →
        ¬ ((e + 1) mod 3 ∈ [5; 3; 1] ∧ (e + 2) mod 3 ∈ [5; 3; 1])).
Proof.
  apply (get_triangles_conforming [true; false; true] 2
           [[5; 2; 3]; [5; 3; 1]; [5; 2; 0]]);
    [reflexivity|lia|reflexivity|].
  right. left.
Defined.

(** The same cell: its three triangles hold the vertices 0, 1, 2 and the
    midpoints 3 and 5. *)
Lemma get_triangles_covering_witness :
  let tri_set := [[5; 2; 3]; [5; 3; 1]; [5; 2; 0]] in
  (∀ v, v < 3 → ∃ t, t ∈ tri_set ∧ v ∈ t) ∧
  (∀ e, e < 3 → vec_bool [true; false; true] e = true →
        ∃ t, t ∈ tri_set ∧ e + 3 ∈ t).
Proof.
  apply (get_triangles_covering [true; false; true] 2); [reflexivity|lia|reflexivity].
Defined.

End GeneratorSweepRun.

(** ** More on the enforcer *)

Module RuleEnforcerClosure.
Import ParallelRefinement RuleEnforcer RuleEnforcerLemmas SerialEnforcerExample.

Lemma any_marked_false m (es : list Edge) :
  foldl (λ b e, b || is_marked m (edge_index e)) false es = false ↔
  ∀ e, e ∈ es → is_marked m (edge_index e) = false.
Proof.
  split.
  - intros Hf e He. destruct (is_marked m (edge_index e)) eqn:Hm; [|done].
    assert (foldl (λ b e, b || is_marked m (edge_index e)) false es = true)
      as Ht by (apply any_marked_spec; right; by exists e).
    congruence.
  - intros Hno. apply not_true_is_false.
    intros [?|(e & He & Hm)]%any_marked_spec; [done|].
    rewrite (Hno e He) in Hm. done.
Qed.

Lemma is_marked_mark m e e' :
  is_marked (mark m e) e' = true → e' = e ∨ is_marked m e' = true.
Proof.
  unfold is_marked, vec_bool, mark. rewrite list_lookup_insert.
  case_decide as H; [left; by destruct H|by right].
Qed.

Lemma scan_face_below le m c f m' c' (target : list bool) :
  scan_face le (m, c) f = (m', c') →
  marks_le m target → rule_at le target f → marks_le m' target.
Proof.
  unfold scan_face.
  destruct (is_marked m (vec_nat le (face_index f))); [by intros [= <- <-]|].
  destruct (foldl _ false (face_edges f)) eqn:Hany; [|by intros [= <- <-]].
  intros [= <- <-] [Hlen Hle] Hrule.
  apply any_marked_spec in Hany as [?|(e & He & Hm)]; [done|].
  split; [unfold mark; by rewrite length_insert|].
  intros e' [->|?]%is_marked_mark; [|by apply Hle].
  apply Hrule. exists e. split; [done|by apply Hle].
Qed.

Lemma scan_faces_below pr m m' c (target : list bool) :
  scan_faces pr m = (m', c) →
  marks_le m target → rule_holds pr target → marks_le m' target.
Proof.
  unfold scan_faces. intros Hscan Hle Hrule.
  assert (∀ faces m c m' c',
            (∀ f, f ∈ faces → rule_at (long_edge pr) target f) →
            foldl (scan_face (long_edge pr)) (m, c) faces = (m', c') →
            marks_le m target → marks_le m' target) as Hgen.
  { induction faces as [|f faces IH]; intros m0 c0 m1 c1 Hr; cbn [foldl].
    { by intros [= <- <-]. }
    destruct (scan_face (long_edge pr) (m0, c0) f) as [m2 c2] eqn:Hf.
    intros Hfold Hm0. eapply IH; [|done|].
    - intros f' Hf'. apply Hr. by right.
    - eapply scan_face_below; [done..|]. apply Hr. left. }
  eapply Hgen; [|done..]. intros f Hf. unfold rule_at. by apply Hrule.
Qed.

Lemma scan_faces_fixed pr m :
  rule_holds pr m → scan_faces pr m = (m, 0).
Proof.
  unfold scan_faces, rule_holds. generalize 0 as c.
  induction (mesh_faces pr) as [|f faces IH]; intros c Hrule; [done|].
  cbn [foldl]. unfold scan_face at 2.
  destruct (is_marked m (vec_nat (long_edge pr) (face_index f))) eqn:Hl.
  { apply IH. intros f' Hf'. apply Hrule. by right. }
  destruct (foldl _ false (face_edges f)) eqn:Hany.
  - apply any_marked_spec in Hany as [?|Hex]; [done|].
    rewrite Hrule in Hl; [done|left|done].
  - apply IH. intros f' Hf'. apply Hrule. by right.
Qed.

Lemma scans_below procs st targets :
  Forall2 marks_le st targets → Forall2 rule_holds procs targets →
  Forall2 marks_le (zip_with scan_faces procs st).*1 targets.
Proof.
  intros Hle. revert procs.
  induction Hle as [|m t st targets Hm _ IH]; intros procs Hrule.
  { destruct procs; constructor. }
  destruct procs as [|pr procs]; [by inversion Hrule|].
  apply Forall2_cons in Hrule as [Hr Hrs].
  cbn [zip_with]. rewrite fmap_cons.
  destruct (scan_faces pr m) as [m' c] eqn:Hs. cbn [fst].
  constructor; [by eapply scan_faces_below|by apply IH].
Qed.

Lemma scans_fixed procs st :
  Forall2 rule_holds procs st → zip_with scan_faces procs st = (λ m, (m, 0)) <$> st.
Proof.
  induction 1 as [|pr m procs st Hr _ IH]; [done|].
  cbn [zip_with]. by rewrite fmap_cons, IH, scan_faces_fixed.
Qed.

Section closure.
Variable sync : list (list bool) → list (list bool).

(** X6: [enforce_rules] marks no more than the rule demands: a marking that
    contains the initial one, satisfies the rule on every process and is
    closed under the marker update contains the marking returned. *)
Theorem enforce_rules_least
    (procs : list Process) (st targets st' : list (list bool)) (fuel rounds : nat) :
  (∀ s, Forall2 marks_le s targets → Forall2 marks_le (sync s) targets) →
  Forall2 rule_holds procs targets →
  Forall2 marks_le st targets →
  enforce_rules sync procs fuel st = Some (st', rounds) →
  Forall2 marks_le st' targets.
Proof.
  intros Hsync Hrule. unfold enforce_rules. generalize 0 as r.
  revert st. induction fuel as [|fuel IH]; intros st r Hle; [done|].
  cbn [enforce_rules_loop]. unfold round.
  assert (Forall2 marks_le (zip_with scan_faces procs (sync st)).*1 targets) as Hnext
    by (apply scans_below; [by apply Hsync|done]).
  destruct (_ =? 0); [by intros [= <- <-]|]. by apply IH.
Qed.

(** X7: a marking that satisfies the rule on every process and that the
    marker update leaves as it is comes back unchanged after one pass. *)
Theorem enforce_rules_fixed
    (procs : list Process) (st : list (list bool)) (fuel : nat) :
  sync st = st →
  Forall2 rule_holds procs st →
  enforce_rules sync procs (S fuel) st = Some (st, 1).
Proof.
  intros Hsync Hrule. unfold enforce_rules. cbn [enforce_rules_loop].
  unfold round. rewrite Hsync, scans_fixed by done.
  rewrite <- !list_fmap_compose.
  assert (sum_list ((snd ∘ λ m : list bool, (m, 0)) <$> st) = 0) as ->.
  { clear. induction st as [|m st IH]; [done|]. rewrite fmap_cons. simpl. apply IH. }
  cbn. f_equal. f_equal. apply list_fmap_id.
Qed.

End closure.

Lemma serial_rule_all : Forall2 rule_holds serial_procs serial_all.
Proof.
  apply Forall2_cons. split; [|apply Forall2_nil_2].
  intros f Hf _. repeat (apply elem_of_cons in Hf as [->|Hf]); [done..|].
  by apply elem_of_nil in Hf.
Qed.

Lemma serial_rule_st1 : Forall2 rule_holds serial_procs serial_st1.
Proof.
  apply Forall2_cons. split; [|apply Forall2_nil_2].
  intros f Hf _. repeat (apply elem_of_cons in Hf as [->|Hf]); [done..|].
  by apply elem_of_nil in Hf.
Qed.

Lemma serial_below_all : Forall2 marks_le serial_st0 serial_all.
Proof.
  apply Forall2_cons. split; [|apply Forall2_nil_2]. split; [done|].
  intros [|[|[|[|[|e]]]]]; done.
Qed.

(** The serial run ends on [serial_st1], below the full marking. *)
Lemma enforce_rules_least_witness : Forall2 marks_le serial_st1 serial_all.
Proof.
  apply (enforce_rules_least serial_sync serial_procs serial_st0 serial_all
           serial_st1 5 2);
    [by intros s|apply serial_rule_all|apply serial_below_all|by vm_compute].
Defined.

Lemma enforce_rules_fixed_witness :
  enforce_rules serial_sync serial_procs 1 serial_st1 = Some (serial_st1, 1).
Proof.
  apply (enforce_rules_fixed serial_sync serial_procs serial_st1 0);
    [reflexivity|apply serial_rule_st1].
Defined.

End RuleEnforcerClosure.

(** ** More on the selector *)

Module LongestEdgeRobust.
Import LongestEdgeSelector LongestEdgeSelectorProps SelectorExample.

Lemma edges_with_vertex_elem f e :
  e ∈ face_edges f → ∃ g, (e, g) ∈ edges_with_vertex f.
Proof.
  intros (pos & Hpos)%list_elem_of_lookup.
  exists (vec_nat (face_vertices f) pos). apply list_elem_of_lookup. exists pos.
  unfold edges_with_vertex. by rewrite list_lookup_imap, Hpos.
Qed.

(** X8: whatever the vertex indices of the face are (equal, or fewer than the
    edges), as soon as one edge has a positive length the edge
    [face_long_edge] records for the face is one of its edges and no edge
    of the face is longer. *)
Theorem face_long_edge_maximal
    (num_faces : nat) (faces : list Face) (f : Face) :
  NoDup (face_index <$> faces) → f ∈ faces → face_index f < num_faces →
  (∃ e, e ∈ face_edges f ∧ (0 < edge_length e)%Q) →
  ∃ e, e ∈ face_edges f ∧
    face_long_edge num_faces faces !! face_index f = Some (edge_index e) ∧
    ∀ e', e' ∈ face_edges f → (edge_length e' <= edge_length e)%Q.
Proof.
  intros Hnd Hf Hlt (e0 & He0 & Hpos).
  rewrite face_long_edge_lookup by done. unfold long_edge_of_face.
  destruct (scan_from_spec (edges_with_vertex f) (0, 0, 0%Q)) as (_ & Hmax & Hsel).
  fold (long_edge_scan (edges_with_vertex f)) in Hmax, Hsel.
  destruct Hsel as [Hinit|(ev & Hev & Hsel)].
  { destruct (edges_with_vertex_elem f e0 He0) as [g Hg].
    destruct (Hmax _ Hg). rewrite Hinit. by left. }
  exists ev.1. rewrite Hsel. split_and!; [|done|].
  - apply elem_of_edges_with_vertex in Hev as (pos & Hpos' & _).
    by eapply list_elem_of_lookup_2.
  - intros e' He'. destruct (edges_with_vertex_elem f e' He') as [g Hg].
    specialize (Hmax _ Hg). rewrite Hsel in Hmax. simpl in Hmax.
    apply Qnot_lt_le. intros Hlt'. apply Hmax. by left.
Qed.

(** On the sample triangle. *)
Lemma face_long_edge_maximal_witness :
  ∃ e, e ∈ face_edges tri ∧
    face_long_edge 1 [tri] !! face_index tri = Some (edge_index e) ∧
    ∀ e', e' ∈ face_edges tri → (edge_length e' <= edge_length e)%Q.
Proof.
  apply (face_long_edge_maximal 1 [tri] tri);
    [apply NoDup_singleton|left|simpl; lia|].
  eexists. split; [left|]. by vm_compute.
Defined.

End LongestEdgeRobust.

(** ** More on the mapper *)

Lemma foldl_reaches_elem {A B} (I P : A → Prop) (f : A → B → A) (l : list B) (x : B) :
  x ∈ l →
  (∀ a y, y ∈ l → I a → I (f a y)) →
  (∀ a, I a → P (f a x)) →
  (∀ a y, y ∈ l → I a → P a → P (f a y)) →
  ∀ a, I a → P (foldl f a l).
Proof.
  induction l as [|y l IH]; intros Hx HI Hadd Hkeep a Ha;
    [by apply elem_of_nil in Hx|].
  cbn [foldl]. apply elem_of_cons in Hx as [<-|Hx].
  - apply (foldl_invariant (λ a, I a ∧ P a));
      [split; [apply HI; [left|done]|by apply Hadd]|].
    intros a' y Hy [? ?]. split; [apply HI|apply Hkeep]; (done || by right).
  - apply IH; [done|..].
    + intros ?? Hy. apply HI. by right.
    + done.
    + intros ?? Hy. apply Hkeep. by right.
    + apply HI; [left|done].
Qed.

Module ParentFacetMapperMore.
Import ParentFacetMapper ParentFacetMapperProps MapperExample MapperFacts.

(** *** The vertex set of a parent facet *)

Lemma add_new_vertex_spec nvm vset edge v :
  v ∈ add_new_vertex nvm vset edge ↔ v ∈ vset ∨ nvm !! edge = Some v.
Proof.
  unfold add_new_vertex. destruct (nvm !! edge) as [w|].
  - rewrite elem_of_union, elem_of_singleton. split.
    + intros [->|?]; [by right|by left].
    + intros [?|[= ->]]; [by right|by left].
  - split; [by left|]. by intros [?|?].
Qed.

Lemma add_new_vertices_spec nvm (es : list N) vset v :
  v ∈ foldl (add_new_vertex nvm) vset es ↔
  v ∈ vset ∨ ∃ e, e ∈ es ∧ nvm !! e = Some v.
Proof.
  revert vset. induction es as [|e es IH]; intros vset; cbn [foldl].
  { split; [by left|]. intros [?|(e & []%elem_of_nil & _)]. done. }
  rewrite IH, add_new_vertex_spec. split.
  - intros [[?|?]|(e' & ? & ?)]; [by left|right..].
    + exists e. split; [left|done].
    + exists e'. split; [by right|done].
  - intros [?|(e' & [->|?]%elem_of_cons & ?)]; [by left; left|by left; right|].
    right. by exists e'.
Qed.

(** X9: the vertex set built for a parent facet holds the vertices of the
    facet and, beyond them, only new vertices of split edges: in two
    dimensions that of the facet itself, in three dimensions those of the
    edges of the facet, in other dimensions none. *)
Theorem parent_facet_set_spec
    (tdim : nat) (nvm : gmap N N) (f : Facet) (v : N) :
  v ∈ parent_facet_set tdim nvm f ↔
  v ∈ facet_vertices f ∨
  (tdim = 2 ∧ nvm !! facet_index f = Some v) ∨
  (tdim = 3 ∧ ∃ e, e ∈ facet_edges f ∧ nvm !! e = Some v).
Proof.
  unfold parent_facet_set.
  destruct (Nat.eqb_spec tdim 2) as [->|H2].
  { rewrite add_new_vertex_spec, elem_of_list_to_set. split.
    - intros [?|?]; [by left|right; left; done].
    - intros [?|[[_ ?]|[[=] _]]]; [by left|by right]. }
  destruct (Nat.eqb_spec tdim 3) as [->|H3].
  { rewrite add_new_vertices_spec, elem_of_list_to_set. split.
    - intros [?|?]; [by left|right; right; done].
    - intros [?|[[[=] _]|[_ ?]]]; [by left|by right]. }
  rewrite elem_of_list_to_set. split; [by left|].
  by intros [?|[[? _]|[? _]]].
Qed.

(** *** The reverse map from parent cells to child cells *)

Lemma reverse_cell_map_length n pc m : length (reverse_cell_map n pc m) = n.
Proof.
  unfold reverse_cell_map. apply foldl_invariant; [apply length_replicate|].
  intros rcm ci _ <-. destruct (pc !! ci); [apply length_alter|done].
Qed.

Lemma reverse_cell_map_range n pc m pi s ci :
  reverse_cell_map n pc m !! pi = Some s → ci ∈ s → ci < m.
Proof.
  unfold reverse_cell_map. revert pi s ci.
  apply (foldl_invariant
           (λ rcm : list (gset nat), ∀ pi s ci, rcm !! pi = Some s → ci ∈ s → ci < m)).
  - by intros pi s ci [-> _]%lookup_replicate ?%not_elem_of_empty.
  - intros rcm c Hc%elem_of_seq IH pi s ci.
    destruct (pc !! c) as [p|]; [|apply IH].
    rewrite list_lookup_alter. case_decide as Hpi; [subst p|apply IH].
    destruct (rcm !! pi) as [s'|] eqn:Hs; [|done].
    intros [= <-] [->%elem_of_singleton|?]%elem_of_union; [lia|by eapply IH].
Qed.

Lemma reverse_cell_map_complete n pc m pi ci :
  pi < n → ci < m → pc !! ci = Some pi →
  ci ∈ default ∅ (reverse_cell_map n pc m !! pi).
Proof.
  intros Hpi Hci Hpc. unfold reverse_cell_map.
  apply (foldl_reaches (λ rcm, length rcm = n)
           (λ rcm : list (gset nat), ci ∈ default ∅ (rcm !! pi)) _ _ ci).
  - apply elem_of_seq. lia.
  - intros rcm c <-. destruct (pc !! c); [apply length_alter|done].
  - intros rcm Hlen. rewrite Hpc, list_lookup_alter_eq.
    destruct (rcm !! pi) as [s|] eqn:Hs;
      [cbn; apply elem_of_union; left; by apply elem_of_singleton|].
    apply lookup_ge_None in Hs. lia.
  - intros rcm c Hlen Hin. destruct (pc !! c) as [p|]; [|done].
    rewrite list_lookup_alter. case_decide as Hp; [subst p|done].
    destruct (rcm !! pi) as [s|]; [cbn in *; apply elem_of_union; by right|done].
  - apply length_replicate.
Qed.

Lemma children_of_complete n pc m pi ci :
  pi < n → ci < m → pc !! ci = Some pi →
  ci ∈ children_of (reverse_cell_map n pc m) pi.
Proof.
  intros. unfold children_of. rewrite merge_sort_Permutation, elem_of_elements.
  by apply reverse_cell_map_complete.
Qed.

(** X10: the children listed for a parent cell are exactly the cells of the
    new mesh whose ["parent_cell"] entry is that parent, each once and in
    increasing order. *)
Theorem children_of_exact
    (num_cells : nat) (parent_cell : list nat) (num_new_cells pi : nat) :
  pi < num_cells →
  let children :=
    children_of (reverse_cell_map num_cells parent_cell num_new_cells) pi in
  (∀ ci, ci ∈ children ↔ ci < num_new_cells ∧ parent_cell !! ci = Some pi) ∧
  NoDup children ∧ Sorted (≤) children.
Proof.
  intros Hpi children. unfold children, children_of. split_and!.
  - intros ci. rewrite merge_sort_Permutation, elem_of_elements. split.
    + destruct (reverse_cell_map _ _ _ !! pi) as [s|] eqn:Hs;
        [|by intros ?%not_elem_of_empty].
      cbn. intros Hin. split.
      * by eapply reverse_cell_map_range.
      * by eapply reverse_cell_map_spec.
    + intros [? ?]. by apply reverse_cell_map_complete.
  - rewrite merge_sort_Permutation. apply NoDup_elements.
  - apply Sorted_merge_sort. intros x y. lia.
Qed.

Lemma children_of_exact_witness :
  let children := children_of (reverse_cell_map 2 [1; 0; 1; 1] 4) 1 in
  (∀ ci, ci ∈ children ↔ ci < 4 ∧ [1; 0; 1; 1] !! ci = Some 1) ∧
  NoDup children ∧ Sorted (≤) children.
Proof. apply (children_of_exact 2 [1; 0; 1; 1] 4 1). lia. Defined.

(** *** No facet on a parent facet is left without a parent *)

Section complete.
Variables (mesh new_mesh : Mesh) (parent_cell : list nat) (nvm : gmap N N).
Hypothesis parent_indices :
  ∀ pcell pf, pcell ∈ cells mesh → pf ∈ pcell → facet_index pf ≠ no_parent.

Lemma tag_step_keeps pcell pf f fi npf :
  pcell ∈ cells mesh → pf ∈ pcell →
  tagged fi npf →
  tagged fi (tag_step f npf (facet_index pf, parent_facet_set (tdim mesh) nvm pf)).
Proof.
  intros Hpc Hpf (v & Hv & Hne). unfold tag_step. cbn [fst snd].
  destruct (vertex_match _ _); [|by exists v].
  unfold tagged. rewrite list_lookup_insert. case_decide; [|by exists v].
  eexists. split; [done|]. by eapply parent_indices.
Qed.

Lemma tag_child_facet_keeps pcell f fi npf :
  pcell ∈ cells mesh →
  tagged fi npf →
  tagged fi (tag_child_facet pcell (parent_facet_set (tdim mesh) nvm <$> pcell) npf f).
Proof.
  intros Hpc Ht. rewrite tag_child_facet_unfold. case_bool_decide; [|done].
  apply foldl_invariant; [done|].
  intros a p (pf & -> & Hpf)%list_elem_of_fmap Ha.
  by apply (tag_step_keeps pcell pf).
Qed.

Lemma tag_child_facet_length pcell sets f npf :
  length (tag_child_facet pcell sets npf f) = length npf.
Proof.
  unfold tag_child_facet. case_bool_decide; [|done]. apply length_tag_fold.
Qed.

Lemma tag_child_facet_tags pcell f pf npf :
  pcell ∈ cells mesh → pf ∈ pcell →
  facet_within (tdim mesh) nvm f pf →
  N.to_nat (facet_index f) < length npf →
  tagged (N.to_nat (facet_index f))
    (tag_child_facet pcell (parent_facet_set (tdim mesh) nvm <$> pcell) npf f).
Proof.
  intros Hpc Hpf Hw Hlt. rewrite tag_child_facet_unfold.
  case_bool_decide as Hno.
  - apply (foldl_reaches_elem (λ a, length a = length npf)
             (tagged (N.to_nat (facet_index f))) _ _
             (facet_index pf, parent_facet_set (tdim mesh) nvm pf)).
    + unfold tagged_sets. by apply list_elem_of_fmap_2'  with pf.
    + intros a p _ <-. unfold tag_step.
      destruct (vertex_match _ _); [by rewrite length_insert|done].
    + intros a Ha. unfold tag_step. cbn [fst snd].
      apply vertex_match_spec in Hw. rewrite Hw.
      eexists. split; [apply list_lookup_insert_eq; lia|]. by eapply parent_indices.
    + intros a p (pf' & -> & Hpf')%list_elem_of_fmap _ Ht.
      by apply (tag_step_keeps pcell pf').
    + done.
  - apply lookup_lt_is_Some in Hlt as [v Hv]. exists v. split; [done|congruence].
Qed.

(** X11: a facet of the new mesh that lies within the vertex set of a facet
    of the parent of one of its cells ends with a parent, provided no
    facet of the parent mesh carries the index that stands for "no
    parent". *)
Theorem set_parent_facet_markers_complete pi ci pcell cell f pf :
  cells mesh !! pi = Some pcell →
  cells new_mesh !! ci = Some cell →
  parent_cell !! ci = Some pi →
  f ∈ cell → N.to_nat (facet_index f) < num_facets new_mesh →
  pf ∈ pcell →
  facet_within (tdim mesh) nvm f pf →
  ∃ v, set_parent_facet_markers mesh new_mesh parent_cell nvm
         !! N.to_nat (facet_index f) = Some v ∧ v ≠ no_parent.
Proof.
  intros Hp Hc Hpc Hf Hlt Hpf Hw.
  set (n := num_facets new_mesh). set (fi := N.to_nat (facet_index f)).
  set (rcm := reverse_cell_map (length (cells mesh)) parent_cell
                               (length (cells new_mesh))).
  set (facet_loop := λ (pc : list Facet) (npf : list N) (c : list Facet),
         foldl (tag_child_facet pc (parent_facet_set (tdim mesh) nvm <$> pc)) npf c).
  assert (∀ pc npf c, length (facet_loop pc npf c) = length npf) as Hlen1.
  { intros pc npf c. unfold facet_loop. apply foldl_invariant; [done|].
    intros a y _ <-. apply tag_child_facet_length. }
  assert (∀ pc npf c, pc ∈ cells mesh → tagged fi npf → tagged fi (facet_loop pc npf c))
    as Hkeep1.
  { intros pc npf c Hin Ht. unfold facet_loop. apply foldl_invariant; [done|].
    intros a y _ Ha. by apply tag_child_facet_keeps. }
  set (child_step := λ (pc : list Facet) (npf : list N) (child_index : nat),
         match cells new_mesh !! child_index with
         | Some c => facet_loop pc npf c
         | None => npf
         end).
  assert (∀ pc npf k, length (child_step pc npf k) = length npf) as Hlen2.
  { intros pc npf k. unfold child_step. destruct (_ !! k); [apply Hlen1|done]. }
  assert (∀ pc npf k, pc ∈ cells mesh → tagged fi npf → tagged fi (child_step pc npf k))
    as Hkeep2.
  { intros pc npf k Hin Ht. unfold child_step. destruct (_ !! k); [by apply Hkeep1|done]. }
  assert (pcell ∈ cells mesh) as Hpin by (by eapply list_elem_of_lookup_2).
  unfold set_parent_facet_markers. cbv zeta. fold rcm n.
  apply (foldl_reaches_elem (λ a, length a = n) (tagged fi) _ _ (pi, pcell)).
  - apply list_elem_of_lookup. exists pi. by rewrite list_lookup_imap, Hp.
  - intros a [pi' pc'] _ <-. unfold tag_children. cbn [fst snd].
    apply foldl_invariant; [done|]. intros a' k _ <-. apply (Hlen2 pc').
  - intros a Ha. unfold tag_children. cbn [fst snd].
    apply (foldl_reaches (λ a, length a = n) (tagged fi) (child_step pcell) _ ci).
    + apply children_of_complete; [by eapply lookup_lt_Some..|done].
    + intros a' k <-. apply Hlen2.
    + intros a' Ha'. unfold child_step. rewrite Hc.
      apply (foldl_reaches_elem (λ a, length a = n) (tagged fi) _ _ f); [done|..|done].
      * intros a'' y _ <-. apply tag_child_facet_length.
      * intros a'' Ha''. apply (tag_child_facet_tags pcell f pf); [done..|].
        by rewrite Ha''.
      * intros a'' y _ _ Ht. by apply tag_child_facet_keeps.
    + intros a' k _ Ht. by apply Hkeep2.
    + done.
  - intros a [pi' pc'] (i & Hi)%list_elem_of_lookup _ Ht.
    rewrite list_lookup_imap in Hi.
    destruct (cells mesh !! i) as [pc|] eqn:Hpc'; [|done]. injection Hi as <- <-.
    unfold tag_children. cbn [fst snd].
    apply foldl_invariant; [done|]. intros a' k _ Ha'.
    apply Hkeep2; [by eapply list_elem_of_lookup_2|done].
  - apply length_replicate.
Qed.

End complete.

(** On the sample tetrahedron: the child facet on the split edge. *)
Lemma set_parent_facet_markers_complete_witness :
  ∃ v, set_parent_facet_markers
         {| tdim := 3; cells := [[pf0; pf1; pf2; pf3]]; num_facets := 4 |}
         {| tdim := 3; cells := [[child]]; num_facets := 1 |}
         [0] split_edge_0
         !! N.to_nat (facet_index child) = Some v ∧ v ≠ no_parent.
Proof.
  apply (set_parent_facet_markers_complete
           {| tdim := 3; cells := [[pf0; pf1; pf2; pf3]]; num_facets := 4 |}
           {| tdim := 3; cells := [[child]]; num_facets := 1 |}
           [0] split_edge_0) with (pi := 0) (ci := 0) (pcell := [pf0; pf1; pf2; pf3])
           (cell := [child]) (pf := pf0);
    [|reflexivity|reflexivity|reflexivity|left|simpl; lia|left|].
  - intros pcell pf Hpc Hpf. cbn in Hpc.
    apply list_elem_of_singleton in Hpc as ->.
    repeat (apply elem_of_cons in Hpf as [->|Hpf]); [done..|].
    by apply elem_of_nil in Hpf.
  - apply vertex_match_spec. by vm_compute.
Defined.

End ParentFacetMapperMore.

(** ** More on the redistributor *)

Lemma mapM_result_Fatal {A B} (f : A → result B) (l : list A) file task reason :
  (∀ x, x ∈ l → (∃ b, f x = Ok b) ∨ f x = Fatal file task reason) →
  (∃ x, x ∈ l ∧ f x = Fatal file task reason) →
  mapM f l = Fatal file task reason.
Proof.
  induction l as [|x l IH]; intros Hall (y & Hy & Hf); [by apply elem_of_nil in Hy|].
  cbn [mapM]. destruct (Hall x) as [[b Hb]|Hb]; [left| |by rewrite Hb].
  rewrite Hb. cbn [mbind result_bind].
  apply elem_of_cons in Hy as [->|Hy]; [congruence|].
  rewrite IH; [done| |by exists y]. intros z Hz. apply Hall. by right.
Qed.

Module RedistributorMore.
Import ValueCollectionRedistributor RedistributorProps RedistributorExample
  SenderExample.

Section more.
Context {M T : Type} `{!MeshValueCollection M T}.

#[local] Abbreviation triple := (nat * nat * T)%type.
#[local] Abbreviation datum := ((nat * nat) * T)%type.
#[local] Abbreviation Process := (@Process M T).
#[local] Abbreviation Prepared := (@Prepared M T).

(** X12: when some process has no global cell indices, the call ends with
    the fatal error and gives no collection at all. *)
Theorem build_mesh_value_collection_fatal (procs : list Process) :
  (∃ p, p ∈ procs ∧ have_global_indices p = false) →
  build_mesh_value_collection procs
  = Fatal "MeshPartitioning.h" "build mesh value collection"
          "Do not have have_global_entity_indices".
Proof.
  intros (p & Hp & Hg). unfold build_mesh_value_collection.
  rewrite (mapM_result_Fatal _ _ "MeshPartitioning.h" "build mesh value collection"
             "Do not have have_global_entity_indices"); [done| |].
  - intros q _. unfold prepare. destruct (have_global_indices q); [left|by right].
    by eexists.
  - exists p. split; [done|]. unfold prepare. by rewrite Hg.
Qed.

(** *** The global-to-local lookup keeps the last position *)

Lemma map_of_global_entity_indices_snoc gei g :
  map_of_global_entity_indices (gei ++ [g])
  = <[g := length gei]> (map_of_global_entity_indices gei).
Proof.
  unfold map_of_global_entity_indices. rewrite imap_app, foldl_app. cbn.
  by rewrite Nat.add_0_r.
Qed.

Lemma map_of_global_entity_indices_last gei g i :
  map_of_global_entity_indices gei !! g = Some i →
  ∀ j, gei !! j = Some g → j ≤ i.
Proof.
  revert i. induction gei as [|x gei IH] using rev_ind; intros i; [done|].
  rewrite map_of_global_entity_indices_snoc, lookup_insert.
  case_decide as Hx.
  - intros [= <-] j Hj%lookup_lt_Some. rewrite length_app in Hj. simpl in Hj. lia.
  - intros Hi j Hj. apply lookup_app_Some in Hj as [Hj|[Hge Hj]]; [by eapply IH|].
    apply list_lookup_singleton_Some in Hj as [_ ->]. done.
Qed.

(** X13: the lookup built from [global_entity_indices] finds a global index
    exactly when the index occurs there, and then gives the last
    position at which it occurs. *)
Theorem global_to_local_lookup (gei : list nat) (g : nat) :
  (map_of_global_entity_indices gei !! g = None ↔ g ∉ gei) ∧
  (∀ i, map_of_global_entity_indices gei !! g = Some i ↔
        gei !! i = Some g ∧ ∀ j, gei !! j = Some g → j ≤ i).
Proof.
  split.
  - split.
    + intros Hnone Hin.
      apply (map_of_global_entity_indices_complete) in Hin as [i Hi].
      congruence.
    + intros Hnot. destruct (map_of_global_entity_indices gei !! g) as [i|] eqn:Hi;
        [|done].
      apply (map_of_global_entity_indices_sound) in Hi.
      destruct Hnot. by eapply list_elem_of_lookup_2.
  - intros i. split.
    + intros Hi. split; [by apply (map_of_global_entity_indices_sound)|].
      by apply map_of_global_entity_indices_last.
    + intros [Hi Hlast].
      destruct (map_of_global_entity_indices_complete gei g) as [i' Hi'];
        [by eapply list_elem_of_lookup_2|].
      pose proof (map_of_global_entity_indices_sound _ _ _ Hi') as Hs.
      pose proof (map_of_global_entity_indices_last _ _ _ Hi' _ Hi).
      pose proof (Hlast _ Hs). by replace i with i' by lia.
Qed.

(** *** Where a sent triple comes from *)

Lemma map_of_ldata_sound (ldata : list datum) g its k :
  map_of_ldata ldata !! g = Some its → k ∈ its →
  ∃ d, ldata !! k = Some d ∧ d.1.1 = g.
Proof.
  unfold map_of_ldata. revert g its k.
  apply (foldl_invariant
           (λ m : gmap nat (gset nat), ∀ g its k,
              m !! g = Some its → k ∈ its → ∃ d, ldata !! k = Some d ∧ d.1.1 = g)).
  - intros g its k. by rewrite lookup_empty.
  - intros m [k' d'] (i & Hi)%list_elem_of_lookup IH g its k.
    rewrite list_lookup_imap in Hi.
    destruct (ldata !! i) as [x|] eqn:Hx; [|done]. injection Hi as <- <-.
    cbn [fst snd]. rewrite lookup_insert. case_decide as Hg; [|apply IH].
    intros [= <-] [->%elem_of_singleton|Hk]%elem_of_union; [by exists x|].
    destruct (m !! x.1.1) as [s|] eqn:Hs; [|by apply not_elem_of_empty in Hk].
    subst g. by eapply IH.
Qed.

Lemma sent_triples_sound n (p : Process) dest tr :
  tr ∈ default [] (sent_triples n p !! dest) →
  ∃ k g pd,
    local_value_data p !! k = Some ((g, tr.1.2), tr.2) ∧
    (g, pd) ∈ locate_off_process_entities p (off_process p) ∧
    (dest, tr.1.1) ∈ pd.
Proof.
  revert dest tr. unfold sent_triples.
  apply (foldl_invariant
           (λ send : list (list triple), ∀ dest tr,
              tr ∈ default [] (send !! dest) →
              ∃ k g pd,
                local_value_data p !! k = Some ((g, tr.1.2), tr.2) ∧
                (g, pd) ∈ locate_off_process_entities p (off_process p) ∧
                (dest, tr.1.1) ∈ pd)).
  { intros dest tr. destruct (replicate n [] !! dest) as [b|] eqn:Hb; cbn;
      [apply lookup_replicate in Hb as [-> _]|]; by intros ?%elem_of_nil. }
  intros send [g pd] Hhost Hinv. unfold pack_host_triples. cbn [fst snd].
  destruct (map_of_ldata (local_value_data p) !! g) as [its|] eqn:Hits; [|done].
  apply foldl_invariant; [done|].
  intros send' k Hk Hinv'.
  rewrite merge_sort_Permutation, elem_of_elements in Hk.
  destruct (map_of_ldata_sound _ _ _ _ Hits Hk) as ([[g' e] v] & Hd & Hg).
  cbn in Hg. subst g'. rewrite Hd. cbn [fst snd].
  apply foldl_invariant; [done|].
  intros send'' [proc lc] Hpd Hinv'' dest tr.
  unfold push_triple. cbn [fst snd]. rewrite list_lookup_alter.
  case_decide as Hproc; [subst proc|apply Hinv''].
  destruct (send'' !! dest) as [b|] eqn:Hb; [|by intros ?%elem_of_nil].
  cbn. intros [Hin|Hin%list_elem_of_singleton]%elem_of_app.
  - apply Hinv''. by rewrite Hb.
  - subst tr. by exists k, g, pd.
Qed.

(** X14: every value a process puts in the buffer for a destination is the
    value of one of its tuples whose cell has that destination among its
    hosts; it travels with the local cell index given for that host and
    with the tuple's own entity index. If the hosts are only reported for
    the cells asked for, that cell is not among the local ones. *)
Theorem send_buffers_sound
    (n : nat) (p : Process) (pr : Prepared) (dest i : nat)
    (b0 : list nat) (b1 : list T) (v : T) :
  prepare n p = Ok pr →
  send_data0 pr !! dest = Some b0 →
  send_data1 pr !! dest = Some b1 →
  b1 !! i = Some v →
  ∃ c e k g pd,
    b0 !! (2 * i) = Some c ∧ b0 !! (2 * i + 1) = Some e ∧
    local_value_data p !! k = Some ((g, e), v) ∧
    (g, pd) ∈ locate_off_process_entities p (off_process p) ∧
    (dest, c) ∈ pd ∧
    ((∀ off g' pd', (g', pd') ∈ locate_off_process_entities p off → g' ∈ off) →
     g ∉ global_entity_indices p).
Proof.
  intros Hprep H0 H1 Hv.
  assert (have_global_indices p = true) as Hg.
  { unfold prepare in Hprep. by destruct (have_global_indices p). }
  rewrite (prepare_spec n p Hg) in Hprep. injection Hprep as <-.
  cbn [prepared_of send_data0 send_data1] in H0, H1.
  rewrite list_lookup_fmap in H0. rewrite list_lookup_fmap in H1.
  destruct (sent_triples n p !! dest) as [trs|] eqn:Htrs; [|done].
  injection H0 as <-. injection H1 as <-.
  unfold value_buffer in Hv. rewrite list_lookup_fmap in Hv.
  destruct (trs !! i) as [[[c e] v']|] eqn:Htr; [|done]. injection Hv as ->.
  destruct (buffers_lookup _ _ _ Htr) as (_ & Hc & He).
  destruct (sent_triples_sound n p dest (c, e, v)) as (k & g & pd & Hk & Hhost & Hpd).
  { rewrite Htrs. cbn. by eapply list_elem_of_lookup_2. }
  exists c, e, k, g, pd. split_and!; [done..|].
  intros Hloc Hin. apply Hloc in Hhost.
  unfold off_process in Hhost. apply list_elem_of_omap in Hhost as (d & _ & Hd).
  destruct (map_of_global_entity_indices (global_entity_indices p) !! d.1.1) eqn:Hm;
    [done|]. injection Hd as <-.
  apply (map_of_global_entity_indices_complete) in Hin as [? ?].
  congruence.
Qed.

End more.

(** The sample processes with the global indices of the first one
    removed. *)
Lemma build_mesh_value_collection_fatal_witness :
  build_mesh_value_collection
    ({| have_global_indices := false; global_entity_indices := [];
        num_cells := 0; local_value_data := []; mesh_values := ∅;
        locate_off_process_entities := λ _, [] |} :: two_procs)
  = Fatal "MeshPartitioning.h" "build mesh value collection"
          "Do not have have_global_entity_indices".
Proof.
  apply build_mesh_value_collection_fatal. eexists. split; [left|done].
Defined.

(** The sample sender puts the value 4 of its tuple for the global
    cell 14 in the buffer for process 2, as local cell 0, entity 3. *)
Lemma send_buffers_sound_witness :
  ∃ c e k g pd,
    [0; 3] !! (2 * 0) = Some c ∧ [0; 3] !! (2 * 0 + 1) = Some e ∧
    local_value_data sender !! k = Some ((g, e), 4) ∧
    (g, pd) ∈ locate_off_process_entities sender (off_process sender) ∧
    (2, c) ∈ pd ∧ g ∉ global_entity_indices sender.
Proof.
  destruct (default AssertFail (Some (prepare 3 sender))) as [pr| |]
    eqn:Hpr; try discriminate Hpr.
  cbn [default from_option id] in Hpr.
  destruct (send_buffers_sound 3 sender pr 2 0 [0; 3] [4] 4 Hpr)
    as (c & e & k & g & pd & H0 & H1 & Hk & Hh & Hpd & Hloc);
    [vm_compute in Hpr; injection Hpr as <-; reflexivity..|].
  exists c, e, k, g, pd. split_and!; [done..|]. apply Hloc.
  intros off g' pd' Hin. cbn [locate_off_process_entities sender] in Hin.
  by apply list_elem_of_filter in Hin as [? _].
Defined.

End RedistributorMore.

(** ** The cell loop of [do_refine] *)

Module CellLoopLemmas.
Import SimplexGenerator GeneratorSweep GeneratorSweepProps CellLoop.

Lemma elem_of_marked_edge_list marked_edges cell p :
  p ∈ marked_edge_list marked_edges cell ↔
  ∃ e, cell_edges cell !! p = Some e ∧ vec_bool marked_edges e = true.
Proof.
  unfold marked_edge_list. rewrite list_elem_of_omap. split.
  - intros ([q e] & (k & Hk)%list_elem_of_lookup & Hp).
    rewrite list_lookup_imap in Hk.
    destruct (cell_edges cell !! k) as [e'|] eqn:Hq; [|done].
    injection Hk as <- <-. cbn [fst snd] in Hp.
    destruct (vec_bool marked_edges e') eqn:Hm; [|done].
    injection Hp as <-. by exists e'.
  - intros (e & He & Hm). exists (p, e). split.
    + apply list_elem_of_lookup. exists p. by rewrite list_lookup_imap, He.
    + cbn [fst snd]. by rewrite Hm.
Qed.

Lemma marked_edge_list_nil marked_edges cell :
  (∀ e, e ∈ cell_edges cell → vec_bool marked_edges e = false) →
  marked_edge_list marked_edges cell = [].
Proof.
  intros Hno. destruct (marked_edge_list marked_edges cell) as [|p l] eqn:Hl; [done|].
  assert (p ∈ marked_edge_list marked_edges cell) as Hp by (rewrite Hl; left).
  apply elem_of_marked_edge_list in Hp as (e & He & Hm).
  rewrite Hno in Hm; [done|]. by eapply list_elem_of_lookup_2.
Qed.

Lemma set_vertices_eq (ind vs : list nat) :
  length vs ≤ length ind → set_vertices ind vs = vs ++ drop (length vs) ind.
Proof.
  unfold set_vertices. induction vs as [|x vs IH] using rev_ind; intros Hlen; [done|].
  rewrite length_app in Hlen. cbn [length] in Hlen.
  rewrite imap_app, foldl_app, IH by lia. cbn [imap foldl fst snd].
  rewrite Nat.add_0_r, length_app. cbn [length].
  destruct (lookup_lt_is_Some_2 ind (length vs)) as [y Hy]; [lia|].
  rewrite (drop_S _ _ _ Hy), insert_app_r_alt by lia.
  rewrite Nat.sub_diag. cbn [insert list_insert].
  rewrite <- app_assoc. cbn [app]. by rewrite Nat.add_1_r.
Qed.

Lemma emit_children ind idx (ss : list (list nat)) nc pc :
  foldl (emit_child ind idx) (nc, pc) ss
  = (nc ++ ((λ it : list nat, vec_nat ind <$> it) <$> ss),
     pc ++ replicate (length ss) idx).
Proof.
  revert nc pc. induction ss as [|t ss IH]; intros nc pc.
  - cbn. by rewrite !app_nil_r.
  - cbn [foldl]. unfold emit_child at 2. cbn [fst snd]. unfold new_cell.
    rewrite IH, fmap_cons, <- !app_assoc. done.
Qed.

Lemma set_new_vertices_spec cell nvm marked_edges nv ne (ind : list nat) mi :
  length ind = nv + ne →
  foldl (set_new_vertex cell nvm nv) (Ok (replicate ne false, ind))
        (marked_edge_list marked_edges cell) = Ok mi →
  length mi.1 = ne ∧ length mi.2 = nv + ne ∧
  (∀ j, j < nv → mi.2 !! j = ind !! j) ∧
  (∀ q, vec_bool mi.1 q = true →
        ∃ e, cell_edges cell !! q = Some e ∧ vec_bool marked_edges e = true ∧
             nvm !! e = Some (vec_nat mi.2 (nv + q))).
Proof.
  intros Hlen. revert mi.
  apply (foldl_invariant
           (λ r : result (list bool * list nat), ∀ mi, r = Ok mi →
              length mi.1 = ne ∧ length mi.2 = nv + ne ∧
              (∀ j, j < nv → mi.2 !! j = ind !! j) ∧
              (∀ q, vec_bool mi.1 q = true →
                    ∃ e, cell_edges cell !! q = Some e ∧
                         vec_bool marked_edges e = true ∧
                         nvm !! e = Some (vec_nat mi.2 (nv + q))))).
  - intros mi [= <-]. cbn [fst snd]. split_and!; [by rewrite length_replicate|done..|].
    intros q Hq. unfold vec_bool in Hq.
    destruct (replicate ne false !! q) as [b|] eqn:Hb; [|done].
    apply lookup_replicate in Hb as [-> _]. done.
  - intros r p Hp IH mi Hstep. unfold set_new_vertex in Hstep.
    destruct r as [[m i]| |]; cbn [mbind result_bind fst snd] in Hstep; try done.
    destruct (IH _ eq_refl) as (Hlm & Hli & Hlow & Hmk).
    cbn [fst snd] in Hlm, Hli, Hlow, Hmk.
    apply elem_of_marked_edge_list in Hp as (e & He & Hme).
    unfold vec_nat in Hstep at 1. rewrite He in Hstep. cbn [default] in Hstep.
    change (id e) with e in Hstep.
    destruct (nvm !! e) as [v|] eqn:Hv; [|done].
    injection Hstep as <-. cbn [fst snd]. split_and!.
    + by rewrite length_insert.
    + by rewrite length_insert.
    + intros j Hj. rewrite list_lookup_insert_ne by lia. by apply Hlow.
    + intros q Hq. unfold vec_bool in Hq. destruct (decide (q = p)) as [->|Hne].
      * assert (p < length m) as Hpm.
        { destruct (decide (p < length m)) as [|Hge]; [done|].
          rewrite list_insert_ge in Hq by lia.
          rewrite lookup_ge_None_2 in Hq by lia. done. }
        exists e. split_and!; [done..|]. unfold vec_nat.
        by rewrite list_lookup_insert_eq by lia.
      * rewrite list_lookup_insert_ne in Hq by done.
        destruct (Hmk q Hq) as (e' & ? & ? & He').
        exists e'. split_and!; [done..|]. unfold vec_nat.
        rewrite list_lookup_insert_ne by lia. done.
Qed.

Lemma get_simplices_slots tdim markers longest ss (t : list nat) s :
  tdim = 2 ∨ tdim = 3 →
  length markers = tdim * 3 - 3 →
  (tdim = 3 → valid_longest_edge longest) →
  get_simplices [] markers longest tdim = Ok ss →
  t ∈ ss → s ∈ t →
  s < tdim + 1 ∨ (tdim + 1 ≤ s ∧ vec_bool markers (s - (tdim + 1)) = true).
Proof.
  intros [->| ->] Hlen Hval Hget Ht Hs; unfold get_simplices in Hget;
    cbn [Nat.eqb] in Hget; unfold dolfin_assert in Hget.
  - destruct (length longest =? 1); [|done].
    assert (vec_bool markers (vec_nat longest 0) = true) as Hm.
    { unfold get_triangles, dolfin_assert in Hget.
      by destruct (vec_bool markers (vec_nat longest 0)). }
    assert (vec_nat longest 0 < 3) as Hlt.
    { unfold vec_bool in Hm.
      destruct (markers !! vec_nat longest 0) eqn:Hl; [|done].
      apply lookup_lt_Some in Hl. cbn in Hlen. lia. }
    destruct (triangles_checked _ _ _ Hlen Hlt Hget) as [Hc _].
    rewrite forallb_elem in Hc. specialize (Hc _ Ht).
    unfold tri_conforming_b in Hc.
    apply andb_true_iff in Hc as [Hc _]. apply andb_true_iff in Hc as [_ Hslots].
    rewrite forallb_elem in Hslots. specialize (Hslots _ Hs).
    apply orb_true_iff in Hslots as [Hs3%Nat.ltb_lt|Hmark]; [left; lia|].
    destruct (decide (s < 3)); [left; lia|right]. split; [lia|done].
  - destruct (length longest =? 4); [|done]. injection Hget as <-.
    pose proof sweep_conforming as Hsw.
    rewrite forallb_elem in Hsw.
    specialize (Hsw _ (elem_of_all_markings 6 _ Hlen)).
    rewrite forallb_elem in Hsw.
    specialize (Hsw _ (elem_of_all_longest _ (Hval eq_refl))).
    rewrite forallb_elem in Hsw. specialize (Hsw _ Ht).
    apply andb_true_iff in Hsw as [Hslots _].
    rewrite forallb_elem in Hslots. specialize (Hslots _ Hs).
    apply orb_true_iff in Hslots as [Hs4%Nat.ltb_lt|Hmark]; [left; lia|].
    destruct (decide (s < 4)); [left; lia|right]. split; [lia|done].
Qed.

Lemma refine_cell_unmarked tdim marked_edges nvm long_edge st cell :
  marked_edge_list marked_edges cell = [] →
  length (cell_vertices cell) = tdim + 1 →
  tdim + 1 ≤ length (indices st) →
  refine_cell tdim marked_edges nvm long_edge st cell
  = Ok {| indices := cell_vertices cell;
          new_cell_topology := new_cell_topology st ++ [cell_vertices cell];
          parent_cell := parent_cell st ++ [cell_index cell] |}.
Proof.
  intros Hmel Hvs Hind. unfold refine_cell. cbv zeta. rewrite Hmel. cbn [length Nat.eqb].
  rewrite set_vertices_eq by lia.
  rewrite resize_app_le by lia. rewrite <- Hvs, resize_all. done.
Qed.

(** One pass of the loop body that returns: what it appends, and how
    long it leaves [indices]. *)
Lemma refine_cell_spec tdim marked_edges nvm long_edge st cell st' :
  refine_cell tdim marked_edges nvm long_edge st cell = Ok st' →
  tdim + 1 ≤ length (indices st') ∧
  ∃ g, new_cell_topology st' = new_cell_topology st ++ g ∧
       parent_cell st' = parent_cell st ++ replicate (length g) (cell_index cell) ∧
       (tdim = 2 ∨ tdim = 3 →
        length (cell_vertices cell) = tdim + 1 →
        (tdim = 3 → valid_longest_edge (cell_longest_edge tdim long_edge cell)) →
        tdim + 1 ≤ length (indices st) →
        ∀ child v, child ∈ g → v ∈ child →
                   from_parent marked_edges nvm cell v).
Proof.
  intros Hrun. unfold refine_cell in Hrun. cbv zeta in Hrun.
  destruct (length (marked_edge_list marked_edges cell) =? 0) eqn:Hmel.
  - injection Hrun as <-. cbn [indices new_cell_topology parent_cell].
    split; [rewrite length_resize; lia|].
    eexists [_]. split_and!; [done..|].
    intros _ Hvs _ Hind child v ->%list_elem_of_singleton Hv. left.
    rewrite set_vertices_eq in Hv by lia.
    rewrite resize_app_le in Hv by lia. by rewrite <- Hvs, resize_all in Hv.
  - destruct (foldl _ _ (marked_edge_list marked_edges cell)) as [mi| |] eqn:Hfold;
      cbn [mbind result_bind] in Hrun; try done.
    destruct (get_simplices _ _ _ _) as [ss| |] eqn:Hget;
      cbn [mbind result_bind] in Hrun; try done.
    injection Hrun as <-. cbn [indices new_cell_topology parent_cell].
    rewrite emit_children. cbn [fst snd].
    apply set_new_vertices_spec in Hfold as (Hlm & Hli & Hlow & Hmk);
      [|by rewrite length_resize].
    split; [lia|].
    eexists. split_and!; [done|by rewrite length_fmap|].
    intros Htdim Hvs Hval Hind child v
      (t & -> & Ht)%list_elem_of_fmap (s & -> & Hs)%list_elem_of_fmap.
    destruct (get_simplices_slots _ _ _ _ _ _ Htdim Hlm Hval Hget Ht Hs)
      as [Hlt|[Hge Hmark]].
    + left. unfold vec_nat. rewrite Hlow by done.
      rewrite lookup_resize by (rewrite ?set_vertices_eq, ?length_app; lia).
      rewrite set_vertices_eq by lia. rewrite lookup_app_l by lia.
      destruct (lookup_lt_is_Some_2 (cell_vertices cell) s) as [x Hx]; [lia|].
      rewrite Hx. cbn. by eapply list_elem_of_lookup_2.
    + right. destruct (Hmk _ Hmark) as (e & He & Hme & Hv).
      exists (s - (tdim + 1)), e. split_and!; [done..|].
      by replace (tdim + 1 + (s - (tdim + 1))) with s in Hv by lia.
Qed.

Lemma get_simplices_not_fatal simplex_set markers longest tdim file task reason :
  get_simplices simplex_set markers longest tdim ≠ Fatal file task reason.
Proof.
  unfold get_simplices, get_triangles, dolfin_assert.
  destruct (tdim =? 2); [destruct (_ =? 1); [|done]; by destruct (vec_bool _ _)|].
  destruct (tdim =? 3); [|done]. by destruct (_ =? 4).
Qed.

Lemma refine_cell_not_fatal tdim marked_edges nvm long_edge st cell file task reason :
  refine_cell tdim marked_edges nvm long_edge st cell ≠ Fatal file task reason.
Proof.
  unfold refine_cell. cbv zeta.
  destruct (length (marked_edge_list marked_edges cell) =? 0); [done|].
  assert (∀ l r, (∀ f t x, r ≠ Fatal f t x) →
            ∀ f t x, foldl (set_new_vertex cell nvm (tdim + 1)) r l ≠ Fatal f t x)
    as Hfold.
  { induction l as [|p l IH]; intros r Hr; [done|]. cbn [foldl]. apply IH.
    intros f t x. unfold set_new_vertex.
    destruct r as [mi| |f' t' x']; cbn [mbind result_bind];
      [|done|by destruct (Hr f' t' x')].
    by destruct (nvm !! vec_nat _ _). }
  destruct (foldl _ _ _) as [mi| |f t x] eqn:Hf; cbn [mbind result_bind]; [|done|].
  - destruct (get_simplices _ _ _ _) as [ss| |f t x] eqn:Hget;
      cbn [mbind result_bind]; [done..|].
    by apply get_simplices_not_fatal in Hget.
  - exfalso. refine (Hfold _ (Ok _) _ f t x Hf). done.
Qed.

Lemma refine_cell_missing_vertex tdim marked_edges nvm long_edge st cell p e :
  cell_edges cell !! p = Some e → vec_bool marked_edges e = true →
  nvm !! e = None →
  refine_cell tdim marked_edges nvm long_edge st cell = AssertFail.
Proof.
  intros He Hm Hnone.
  assert (p ∈ marked_edge_list marked_edges cell) as Hp
    by (apply elem_of_marked_edge_list; by exists e).
  unfold refine_cell. cbv zeta.
  destruct (length (marked_edge_list marked_edges cell) =? 0) eqn:Hlen.
  { apply Nat.eqb_eq, nil_length_inv in Hlen. rewrite Hlen in Hp.
    by apply elem_of_nil in Hp. }
  rewrite (foldl_reaches_elem
             (λ r : result (list bool * list nat), ∀ f t x, r ≠ Fatal f t x)
             (λ r, r = AssertFail) _ _ p Hp); [done|..|done].
  - intros r q _ Hr f t x. unfold set_new_vertex.
    destruct r as [mi| |f' t' x']; cbn [mbind result_bind];
      [|done|by destruct (Hr f' t' x')].
    by destruct (nvm !! vec_nat _ _).
  - intros r Hr. unfold set_new_vertex.
    destruct r as [mi| |f t x]; cbn [mbind result_bind];
      [|done|by destruct (Hr f t x)].
    unfold vec_nat. rewrite He. cbn. by rewrite Hnone.
  - by intros r q _ _ ->.
Qed.

End CellLoopLemmas.

Lemma lookup_mjoin_aligned {A B C} (f : B → C) (groups : list (list A))
    (cells : list B) i x :
  length groups = length cells →
  mjoin groups !! i = Some x →
  ∃ k g c, groups !! k = Some g ∧ cells !! k = Some c ∧ x ∈ g ∧
    mjoin (zip_with (λ g c, replicate (length g) (f c)) groups cells) !! i
    = Some (f c).
Proof.
  revert cells i. induction groups as [|g groups IH]; intros [|c cells] i Hlen Hi;
    try done.
  change (mjoin (g :: groups)) with (g ++ mjoin groups) in Hi.
  change (mjoin (zip_with (λ g c, replicate (length g) (f c)) (g :: groups) (c :: cells)))
    with (replicate (length g) (f c)
          ++ mjoin (zip_with (λ g c, replicate (length g) (f c)) groups cells)).
  apply lookup_app_Some in Hi as [Hi|[Hge Hi]].
  - exists 0, g, c. split_and!; [done|done|by eapply list_elem_of_lookup_2|].
    pose proof (lookup_lt_Some _ _ _ Hi).
    rewrite lookup_app_l by (by rewrite length_replicate).
    by apply lookup_replicate_2.
  - destruct (IH cells (i - length g)) as (k & g' & c' & ? & ? & ? & Hp);
      [by injection Hlen|done|].
    exists (S k), g', c'. split_and!; [done..|].
    rewrite lookup_app_r by (rewrite length_replicate; lia).
    by rewrite length_replicate.
Qed.

Lemma length_mjoin_aligned {A B C} (f : B → C) (groups : list (list A))
    (cells : list B) :
  length groups = length cells →
  length (mjoin (zip_with (λ g c, replicate (length g) (f c)) groups cells))
  = length (mjoin groups).
Proof.
  revert cells. induction groups as [|g groups IH]; intros [|c cells] Hlen; try done.
  change (mjoin (g :: groups)) with (g ++ mjoin groups).
  change (mjoin (zip_with (λ g c, replicate (length g) (f c)) (g :: groups) (c :: cells)))
    with (replicate (length g) (f c)
          ++ mjoin (zip_with (λ g c, replicate (length g) (f c)) groups cells)).
  rewrite !length_app, length_replicate, IH; [done|by injection Hlen].
Qed.

Module CellLoopProps.
Import SimplexGenerator CellLoop CellLoopLemmas.

Section loop.
Variables (tdim : nat) (marked_edges : list bool) (nvm : gmap nat nat)
  (long_edge : list nat).

#[local] Abbreviation body :=
  (λ (st : result State) (cell : Cell),
     st ← st; refine_cell tdim marked_edges nvm long_edge st cell).

Lemma loop_assert_fail cells : foldl body AssertFail cells = AssertFail.
Proof. by induction cells. Qed.

Lemma loop_fatal cells file task reason :
  foldl body (Fatal file task reason) cells = Fatal file task reason.
Proof. by induction cells. Qed.

Lemma loop_spec cells st0 st :
  foldl body (Ok st0) cells = Ok st →
  tdim + 1 ≤ length (indices st0) →
  ∃ groups,
    length groups = length cells ∧
    new_cell_topology st = new_cell_topology st0 ++ mjoin groups ∧
    parent_cell st
    = parent_cell st0
      ++ mjoin (zip_with (λ g c, replicate (length g) (cell_index c)) groups cells) ∧
    Forall2 (λ g c,
               tdim = 2 ∨ tdim = 3 →
               length (cell_vertices c) = tdim + 1 →
               (tdim = 3 → valid_longest_edge (cell_longest_edge tdim long_edge c)) →
               ∀ child v, child ∈ g → v ∈ child →
                          from_parent marked_edges nvm c v)
            groups cells.
Proof.
  revert st0. induction cells as [|c cells IH]; intros st0 Hrun Hind.
  - injection Hrun as <-. exists []. by rewrite !app_nil_r.
  - cbn [foldl mbind result_bind] in Hrun.
    destruct (refine_cell tdim marked_edges nvm long_edge st0 c) as [st1| |f t x]
      eqn:Hc; [|by rewrite loop_assert_fail in Hrun|by rewrite loop_fatal in Hrun].
    apply refine_cell_spec in Hc as (Hind1 & g & Hn & Hp & Hprov).
    destruct (IH _ Hrun Hind1) as (groups & Hlen & Hn' & Hp' & Hall).
    exists (g :: groups). split_and!.
    + cbn [length]. by rewrite Hlen.
    + rewrite Hn', Hn, <- app_assoc. done.
    + rewrite Hp', Hp, <- app_assoc. done.
    + apply Forall2_cons. split; [|done]. intros ???. by apply Hprov.
Qed.

(** X15: the children of each cell stand together in the pending cell list,
    in the order of the cells, and ["parent_cell"] holds the index of
    that cell once for each of them. *)
Theorem do_refine_cells_parents (cells : list Cell) (st : State) :
  do_refine_cells tdim marked_edges nvm long_edge cells = Ok st →
  ∃ groups : list (list (list nat)),
    length groups = length cells ∧
    new_cell_topology st = mjoin groups ∧
    parent_cell st
    = mjoin (zip_with (λ g c, replicate (length g) (cell_index c)) groups cells) ∧
    length (parent_cell st) = length (new_cell_topology st).
Proof.
  intros Hrun. apply loop_spec in Hrun as (groups & Hlen & Hn & Hp & _);
    [|cbn; rewrite length_replicate; lia].
  cbn [new_cell_topology parent_cell app] in Hn, Hp.
  exists groups. split_and!; [done..|].
  rewrite Hn, Hp. by apply length_mjoin_aligned.
Qed.

(** X16: on a mesh of triangles or tetrahedra, every vertex of a new cell is
    a vertex of the cell recorded as its parent or the new vertex of a
    marked edge of that cell: what is left in [indices] from an earlier
    cell never reaches the new mesh. *)
Theorem do_refine_cells_provenance (cells : list Cell) (st : State)
    (i : nat) (child : list nat) :
  tdim = 2 ∨ tdim = 3 →
  (∀ c, c ∈ cells → length (cell_vertices c) = tdim + 1) →
  (tdim = 3 → ∀ c, c ∈ cells →
     valid_longest_edge (cell_longest_edge tdim long_edge c)) →
  do_refine_cells tdim marked_edges nvm long_edge cells = Ok st →
  new_cell_topology st !! i = Some child →
  ∃ c, c ∈ cells ∧ parent_cell st !! i = Some (cell_index c) ∧
       ∀ v, v ∈ child → from_parent marked_edges nvm c v.
Proof.
  intros Htdim Hvs Hval Hrun Hi.
  apply loop_spec in Hrun as (groups & Hlen & Hn & Hp & Hall);
    [|cbn; rewrite length_replicate; lia].
  cbn [new_cell_topology parent_cell app] in Hn, Hp. rewrite Hn in Hi.
  destruct (lookup_mjoin_aligned cell_index _ _ _ _ Hlen Hi)
    as (k & g & c & Hg & Hc & Hin & Hpar).
  assert (c ∈ cells) as Hcin by (by eapply list_elem_of_lookup_2).
  exists c. split_and!; [done|by rewrite Hp|].
  intros v Hv.
  apply (Forall2_lookup_lr _ _ _ _ _ _ Hall Hg Hc Htdim) with child;
    [by apply Hvs| |done..].
  intros H3. by apply Hval.
Qed.

(** X17: when no edge of any cell is marked, the loop hands every cell on as
    it is, in the order of the cells and with its own index as parent. *)
Theorem do_refine_cells_unmarked (cells : list Cell) :
  (∀ c, c ∈ cells →
     length (cell_vertices c) = tdim + 1 ∧
     ∀ e, e ∈ cell_edges c → vec_bool marked_edges e = false) →
  ∃ ind,
    do_refine_cells tdim marked_edges nvm long_edge cells
    = Ok {| indices := ind;
            new_cell_topology := cell_vertices <$> cells;
            parent_cell := cell_index <$> cells |}.
Proof.
  intros Hcells. unfold do_refine_cells.
  assert (∀ st0, tdim + 1 ≤ length (indices st0) →
            ∃ ind, foldl body (Ok st0) cells
                   = Ok {| indices := ind;
                           new_cell_topology :=
                             new_cell_topology st0 ++ (cell_vertices <$> cells);
                           parent_cell :=
                             parent_cell st0 ++ (cell_index <$> cells) |}) as Hgen.
  { induction cells as [|c cells IH]; intros st0 Hind.
    - exists (indices st0). cbn. rewrite !app_nil_r. by destruct st0.
    - destruct (Hcells c) as [Hvs Hno]; [left|].
      cbn [foldl mbind result_bind].
      rewrite refine_cell_unmarked; [|by apply marked_edge_list_nil|done..].
      destruct (IH (λ c' Hc', Hcells c' (list_elem_of_further _ _ _ Hc'))
                   {| indices := cell_vertices c;
                      new_cell_topology := new_cell_topology st0 ++ [cell_vertices c];
                      parent_cell := parent_cell st0 ++ [cell_index c] |})
        as [ind Hind']; [cbn; lia|].
      exists ind. rewrite Hind'. cbn [new_cell_topology parent_cell].
      by rewrite <- !app_assoc. }
  apply (Hgen {| indices := _; new_cell_topology := []; parent_cell := [] |}).
  cbn. rewrite length_replicate. lia.
Qed.

(** X18: when a marked edge of some cell has no entry in the map of new
    vertices, the loop stops on an assertion and nothing is returned. *)
Theorem do_refine_cells_missing_vertex (cells : list Cell) :
  (∃ c p e, c ∈ cells ∧ cell_edges c !! p = Some e ∧
            vec_bool marked_edges e = true ∧ nvm !! e = None) →
  do_refine_cells tdim marked_edges nvm long_edge cells = AssertFail.
Proof.
  intros (c & p & e & Hc & He & Hm & Hnone). unfold do_refine_cells.
  apply (foldl_reaches_elem
           (λ r : result State, ∀ f t x, r ≠ Fatal f t x)
           (λ r, r = AssertFail) _ _ c Hc); [..|done].
  - intros r c' _ Hr f t x.
    destruct r as [st| |f' t' x']; cbn [mbind result_bind];
      [apply refine_cell_not_fatal|done|by destruct (Hr f' t' x')].
  - intros r Hr.
    destruct r as [st| |f t x]; cbn [mbind result_bind];
      [by eapply refine_cell_missing_vertex|done|by destruct (Hr f t x)].
  - by intros r c' _ _ ->.
Qed.

End loop.

End CellLoopProps.

Module CellLoopRun.
Import SimplexGenerator CellLoop CellLoopProps CellLoopExample TetLoopExample.

(** The two triangles with their shared edge marked: two children
    each. *)
Lemma do_refine_cells_parents_witness :
  ∃ groups : list (list (list nat)),
    length groups = 2 ∧
    [[4; 0; 2]; [4; 0; 1]; [4; 3; 2]; [4; 3; 1]] = mjoin groups ∧
    [0; 0; 1; 1]
    = mjoin (zip_with (λ g c, replicate (length g) (cell_index c))
                      groups two_triangles) ∧
    length [0; 0; 1; 1] = length [[4; 0; 2]; [4; 0; 1]; [4; 3; 2]; [4; 3; 1]].
Proof.
  apply (do_refine_cells_parents 2 shared_marked shared_vertex [0; 0] two_triangles
           {| indices := [1; 2; 3; 4; 0; 4];
              new_cell_topology := [[4; 0; 2]; [4; 0; 1]; [4; 3; 2]; [4; 3; 1]];
              parent_cell := [0; 0; 1; 1] |}).
  by vm_compute.
Defined.

(** The tetrahedron with the edges 0 and 4 marked: its second child. *)
Lemma do_refine_cells_provenance_witness :
  ∃ c, c ∈ one_tet ∧ [0; 0; 0] !! 1 = Some (cell_index c) ∧
       ∀ v, v ∈ [0; 1; 10; 11] → from_parent tet_marked tet_vertex c v.
Proof.
  apply (do_refine_cells_provenance 3 tet_marked tet_vertex tet_long_edge one_tet
           {| indices := [0; 1; 2; 3; 10; 0; 0; 0; 11; 0];
              new_cell_topology := [[0; 1; 3; 10]; [0; 1; 10; 11]; [1; 2; 10; 11]];
              parent_cell := [0; 0; 0] |} 1 [0; 1; 10; 11]).
  - by right.
  - by intros c ->%list_elem_of_singleton.
  - intros _ c ->%list_elem_of_singleton.
    change (valid_longest_edge [0; 0; 3; 4]).
    apply GeneratorSweepRun.valid_longest_edge_0034.
  - by vm_compute.
  - reflexivity.
Defined.

(** The two triangles with no edge marked. *)
Lemma do_refine_cells_unmarked_witness :
  ∃ ind,
    do_refine_cells 2 [] shared_vertex [0; 0] two_triangles
    = Ok {| indices := ind;
            new_cell_topology := cell_vertices <$> two_triangles;
            parent_cell := cell_index <$> two_triangles |}.
Proof.
  apply do_refine_cells_unmarked. intros c Hc. split; [|done].
  repeat (apply elem_of_cons in Hc as [->|Hc]); [done..|].
  by apply elem_of_nil in Hc.
Defined.

(** The two triangles with the shared edge marked and no new vertex
    made. *)
Lemma do_refine_cells_missing_vertex_witness :
  do_refine_cells 2 shared_marked ∅ [0; 0] two_triangles = AssertFail.
Proof.
  apply do_refine_cells_missing_vertex.
  exists {| cell_index := 0; cell_vertices := [0; 1; 2]; cell_edges := [0; 1; 2];
            cell_faces := [] |}, 0, 0.
  split_and!; [left|done..].
Defined.

End CellLoopRun.

(** ** From the enforcer to the cell loop *)

Module RefineAfterEnforce.
Import SimplexGenerator ParallelRefinement CellLoop CellLoopLemmas.
Import SerialEnforcerExample SerialLoopExample.

Lemma set_new_vertices_ok cell nvm nv ne (l : list nat) (m : list bool)
    (i : list nat) :
  length m = ne →
  (∀ p, p ∈ l → p < ne ∧ is_Some (nvm !! vec_nat (cell_edges cell) p)) →
  ∃ mi, foldl (set_new_vertex cell nvm nv) (Ok (m, i)) l = Ok mi ∧
        length mi.1 = ne ∧
        (∀ q, vec_bool m q = true → vec_bool mi.1 q = true) ∧
        ∀ p, p ∈ l → vec_bool mi.1 p = true.
Proof.
  revert m i. induction l as [|p l IH]; intros m i Hm Hl.
  - exists (m, i). split_and!; [done..|]. by intros p ?%elem_of_nil.
  - destruct (Hl p) as [Hp [v Hv]]; [left|].
    cbn [foldl]. unfold set_new_vertex at 2. cbn [mbind result_bind fst snd].
    rewrite Hv.
    destruct (IH (<[p:=true]> m) (<[nv + p:=v]> i)) as (mi & Hrun & Hlen & Hkeep & Hall).
    { by rewrite length_insert. }
    { intros q Hq. apply Hl. by right. }
    exists mi. split_and!; [done..| |].
    + intros q Hq. apply Hkeep. unfold vec_bool in *.
      destruct (decide (q = p)) as [->|];
        [by rewrite list_lookup_insert_eq by lia
        |by rewrite list_lookup_insert_ne by done].
    + intros q [->|Hq]%elem_of_cons; [|by apply Hall].
      apply Hkeep. unfold vec_bool. by rewrite list_lookup_insert_eq by lia.
Qed.

Lemma refine_cell_triangle_ok marked_edges nvm long_edge st cell :
  length (cell_edges cell) = 3 →
  vec_nat long_edge (cell_index cell) ∈ cell_edges cell →
  (∀ e, e ∈ cell_edges cell → vec_bool marked_edges e = true →
        vec_bool marked_edges (vec_nat long_edge (cell_index cell)) = true) →
  (∀ e, e ∈ cell_edges cell → vec_bool marked_edges e = true → is_Some (nvm !! e)) →
  ∃ st', refine_cell 2 marked_edges nvm long_edge st cell = Ok st'.
Proof.
  intros Hedges Hle Hrule Hnew. unfold refine_cell. cbv zeta.
  destruct (length (marked_edge_list marked_edges cell) =? 0) eqn:Hmel;
    [by eexists|].
  destruct (set_new_vertices_ok cell nvm (2 + 1) (2 * 3 - 3)
              (marked_edge_list marked_edges cell) (replicate (2 * 3 - 3) false)
              (resize (2 + 1 + (2 * 3 - 3)) 0
                 (set_vertices (indices st) (cell_vertices cell))))
    as (mi & Hrun & Hlen & _ & Hall).
  { by rewrite length_replicate. }
  { intros p (e & He & Hm)%elem_of_marked_edge_list. split.
    - apply lookup_lt_Some in He. rewrite Hedges in He. cbn. lia.
    - unfold vec_nat. rewrite He. cbn. apply Hnew; [|done].
      by eapply list_elem_of_lookup_2. }
  rewrite Hrun. cbn [mbind result_bind].
  assert (vec_bool marked_edges (vec_nat long_edge (cell_index cell)) = true) as Hlong.
  { destruct (marked_edge_list marked_edges cell) as [|p l] eqn:Hl; [done|].
    assert (p ∈ marked_edge_list marked_edges cell) as Hp by (rewrite Hl; left).
    apply elem_of_marked_edge_list in Hp as (e & He & Hm).
    apply (Hrule e); [|done]. by eapply list_elem_of_lookup_2. }
  assert (vec_bool mi.1 (cell_local cell (vec_nat long_edge (cell_index cell))) = true)
    as Hpos.
  { apply Hall, elem_of_marked_edge_list. unfold cell_local.
    destruct (list_find_elem_of (λ e, vec_nat long_edge (cell_index cell) = e)
                (cell_edges cell) _ Hle eq_refl) as [[pos e] Hfind].
    rewrite Hfind. apply list_find_Some in Hfind as (He & <- & _).
    by exists (vec_nat long_edge (cell_index cell)). }
  unfold get_simplices, cell_longest_edge. cbn [Nat.eqb fmap list_fmap length].
  unfold get_triangles, dolfin_assert.
  change (vec_nat [cell_local cell (vec_nat long_edge (cell_index cell))] 0)
    with (cell_local cell (vec_nat long_edge (cell_index cell))).
  rewrite Hpos. cbn [mbind result_bind]. by eexists.
Qed.

(** X19: on a mesh of triangles, whose faces are its cells: once the marking
    follows the rule of the enforcer and every marked edge has its new
    vertex, the cell loop runs through; the assertion of [get_triangles]
    that the longest edge is marked never fails. *)
Theorem do_refine_cells_after_enforce_rules
    (pr : RuleEnforcer.Process) (marked_edges : list bool)
    (nvm : gmap nat nat) (cells : list Cell) :
  RuleEnforcer.rule_holds pr marked_edges →
  (∀ c, c ∈ cells →
     length (cell_edges c) = 3 ∧
     vec_nat (RuleEnforcer.long_edge pr) (cell_index c) ∈ cell_edges c ∧
     ∃ f, f ∈ RuleEnforcer.mesh_faces pr ∧ face_index f = cell_index c ∧
          edge_index <$> face_edges f = cell_edges c) →
  (∀ c e, c ∈ cells → e ∈ cell_edges c → vec_bool marked_edges e = true →
          is_Some (nvm !! e)) →
  ∃ st, do_refine_cells 2 marked_edges nvm (RuleEnforcer.long_edge pr) cells = Ok st.
Proof.
  intros Hrule Hcells Hnew. unfold do_refine_cells.
  generalize ({| indices := replicate (2 + 1 + (2 * 3 - 3)) 0;
                 new_cell_topology := []; parent_cell := [] |}).
  induction cells as [|c cells IH]; intros st0; [by eexists|].
  destruct (Hcells c) as (Hedges & Hle & f & Hf & Hfi & Hfe); [left|].
  destruct (refine_cell_triangle_ok marked_edges nvm (RuleEnforcer.long_edge pr) st0 c)
    as [st1 Hst1]; [done..| | |].
  - intros e He Hm. rewrite <- Hfi. apply (Hrule f Hf).
    rewrite <- Hfe in He. apply list_elem_of_fmap in He as (ed & -> & Hed).
    by exists ed.
  - intros e He Hm. by apply (Hnew c); [left|..].
  - cbn [foldl mbind result_bind]. rewrite Hst1. apply IH.
    + intros c' Hc'. apply Hcells. by right.
    + intros c' e Hc'. apply Hnew. by right.
Qed.

(** The serial run of the enforcer ends with the edges 0, 2 and 4
    marked; the loop over its two cells then returns. *)
Lemma do_refine_cells_after_enforce_rules_witness :
  ∃ st, do_refine_cells 2 [true; false; true; false; true] serial_vertex [2; 4]
          serial_cells = Ok st.
Proof.
  apply (do_refine_cells_after_enforce_rules
           {| RuleEnforcer.mesh_faces :=
                [ {| face_index := 0;
                     face_edges := [ {| edge_index := 0; edge_length := 1 |};
                                     {| edge_index := 1; edge_length := 1 |};
                                     {| edge_index := 2; edge_length := 2 |} ];
                     face_vertices := [] |};
                  {| face_index := 1;
                     face_edges := [ {| edge_index := 2; edge_length := 2 |};
                                     {| edge_index := 3; edge_length := 1 |};
                                     {| edge_index := 4; edge_length := 3 |} ];
                     face_vertices := [] |} ];
              RuleEnforcer.long_edge := [2; 4] |}).
  - intros f Hf _. cbn in Hf.
    repeat (apply elem_of_cons in Hf as [->|Hf]); [done..|].
    by apply elem_of_nil in Hf.
  - intros c Hc.
    repeat (apply elem_of_cons in Hc as [->|Hc]);
      [| |by apply elem_of_nil in Hc].
    + split_and!; [done|cbn; do 2 right; left|].
      eexists. split; [left|done].
    + split_and!; [done|cbn; do 2 right; left|].
      eexists. split; [right; left|done].
  - intros c e Hc He Hm.
    repeat (apply elem_of_cons in Hc as [->|Hc]);
      [| |by apply elem_of_nil in Hc];
      cbn in He;
      repeat (apply elem_of_cons in He as [->|He]);
      try (by apply elem_of_nil in He); try discriminate Hm; by eexists.
Defined.

End RefineAfterEnforce.
